(** * The Garbler side of the two-party protocol (circuit/garbler.go)

    A shallow embedding of [Garbler] and of the pieces of the [circuit] and
    [ot] packages it calls, followed by the properties of the protocol that
    the specification states about it.

    The function talks to its peer over a [*bufio.ReadWriter]; the model
    threads a connection value through every send and receive and keeps the
    events of the stream in the order in which the Garbler performed them.
    The [verbose] flag and the [time]/[FileSize] bookkeeping only feed
    [fmt.Printf] and are left out of [Garbler]; the size that is printed
    is followed on its own in [transfer] and [FileSize_String]. *)

From Stdlib Require Import List ZArith Lia Bool.
From Stdlib Require Import Strings.Byte.
From Stdlib Require Strings.String Numbers.DecimalString.
Import String.StringSyntax.
Delimit Scope string_scope with string.
Import ListNotations.
Open Scope Z_scope.

(** ** Bytes and big integers *)

Definition bytes := list byte.

Definition byte_of_Z (z : Z) : byte :=
  match Byte.of_N (Z.to_N (z mod 256)) with
  | Some b => b
  | None => x00
  end.

Definition Z_of_byte (b : byte) : Z := Z.of_N (Byte.to_N b).

(** [bytes.Compare(a, b) == 0] *)
Fixpoint bytes_eqb (a b : bytes) : bool :=
  match a, b with
  | [], [] => true
  | x :: a', y :: b' => Byte.eqb x y && bytes_eqb a' b'
  | _, _ => false
  end.

(** A [uint32] on the stream: four bytes, big-endian. *)
Definition u32 (v : Z) : Z := v mod 2 ^ 32.

Definition enc_u32 (v : Z) : bytes :=
  [ byte_of_Z (v / 2 ^ 24); byte_of_Z (v / 2 ^ 16);
    byte_of_Z (v / 2 ^ 8); byte_of_Z v ].

Definition dec_u32 (b0 b1 b2 b3 : byte) : Z :=
  Z_of_byte b0 * 2 ^ 24 + Z_of_byte b1 * 2 ^ 16
  + Z_of_byte b2 * 2 ^ 8 + Z_of_byte b3.

(** A frame: the length as a [uint32], then the bytes. *)
Definition frame (d : bytes) : bytes :=
  enc_u32 (Z.of_nat (length d)) ++ d.

(** [Bytes()] of a big integer: the absolute value, big-endian, no leading
    zero byte; the empty slice for zero. *)
Fixpoint be_bytes (fuel : nat) (n : Z) (acc : bytes) : bytes :=
  match fuel with
  | O => acc
  | S fuel' =>
      if n =? 0 then acc
      else be_bytes fuel' (n / 256) (byte_of_Z n :: acc)
  end.

Definition bigBytes (z : Z) : bytes :=
  be_bytes (S (Z.to_nat (Z.log2 (Z.abs z)))) (Z.abs z) [].

(** [big.NewInt(0).SetBit(x, i, b)] *)
Definition SetBit (x : Z) (i : Z) (b : bool) : Z :=
  if b then Z.setbit x i else Z.clearbit x i.

(** ** Circuits, wires and garbled circuits

    The declarations of [Circuit], [IO], [Garbled] and [ot.Wire] are not in
    garbler.go; the records below carry the fields the function reads. *)

(** One group of an input or output partition; [Size] is its bit width. *)
Record IOArg := mkIOArg { Size : nat }.

Definition IO := list IOArg.

Record Circuit := mkCircuit {
  NumWires : Z;
  N1 : IO;
  N2 : IO;
  N3 : IO
}.

(** Modelled from the spec: [IO.Size()] is declared outside garbler.go; the
    spec writes it [|N3|], the number of wires of the partition, which is
    the sum of the bit widths of its groups. *)
Fixpoint IO_Size (io : IO) : Z :=
  match io with
  | [] => 0
  | a :: rest => Z.of_nat (Size a) + IO_Size rest
  end.

(** Modelled from the spec: [IO.Split] is declared outside garbler.go; the
    spec has it slice a packed little-endian integer into one value per
    declared group, each of the group's bit width. *)
Fixpoint IO_Split (io : IO) (v : Z) : list Z :=
  match io with
  | [] => []
  | a :: rest =>
      Z.land v (Z.ones (Z.of_nat (Size a)))
        :: IO_Split rest (Z.shiftr v (Z.of_nat (Size a)))
  end.

Record Label := mkLabel { Bytes : bytes }.

Record Wire := mkWire { Label0 : Label; Label1 : Label }.

(** [garbled.Gates] is ranged over with integer keys and [garbled.Wires] is
    indexed by integers; both are taken as slices, the tables in gate
    order. *)
Record Garbled := mkGarbled {
  Wires : list Wire;
  Gates : list (list bytes)
}.

Record PublicKey := mkPublicKey { pkN : Z; pkE : Z }.

(** ** Errors and results *)

Inductive Error :=
| ErrGarble (code : nat)                  (* returned by circ.Garble *)
| ErrOT (code : nat)                      (* returned by the ot package *)
| ErrRead                                 (* receiveUint32 / receiveData *)
| ErrWrite                                (* sendUint32 / sendData *)
| ErrUnknownLabel (label : bytes) (i : Z). (* "Unknown label %x for result %d" *)

(** The outcome of a piece of the function body: it falls through with a
    value, returns [nil, err], panics (a slice index out of range), or the
    model's loop runs out of fuel. *)
Inductive Res (A : Type) :=
| Ok (a : A)
| Err (e : Error)
| Panic
| OutOfFuel.

Arguments Ok {A} a.
Arguments Err {A} e.
Arguments Panic {A}.
Arguments OutOfFuel {A}.

(** What a call of [Garbler] gives back in Go: the pair
    [([]*big.Int, error)], or a panic. *)
Inductive GoResult :=
| Return (outputs : option (list Z)) (err : option Error)
| Panics
| Diverges.

(** ** The framed transport

    Modelled from the spec: [sendUint32], [sendData], [receiveUint32] and
    [receiveData] are declared outside garbler.go.  The spec gives them as
    [send_u32] (four bytes big-endian), [send_bytes] (the length as u32,
    then the bytes) and their inverses, every failure being the stream
    closing.  The connection holds the bytes the peer still has to deliver,
    the number of sends the peer will still accept, the events so far, and
    whether a send or a receive has failed. *)

Inductive Event :=
| SentUint32 (v : Z)
| SentData (d : bytes)
| RecvUint32 (v : Z)
| RecvData (d : bytes)
| Flushed.

Record Conn := mkConn {
  rd : bytes;
  wbudget : nat;
  log : list Event;
  broken : bool
}.

Definition M (A : Type) : Type := Conn -> Res A * Conn.

Definition ret {A} (a : A) : M A := fun c => (Ok a, c).

Definition bind {A B} (m : M A) (k : A -> M B) : M B :=
  fun c =>
    match m c with
    | (Ok a, c') => k a c'
    | (Err e, c') => (Err e, c')
    | (Panic, c') => (Panic, c')
    | (OutOfFuel, c') => (OutOfFuel, c')
    end.

Declare Scope go_scope.
Delimit Scope go_scope with go.
Notation "x <- m ;; k" := (bind m (fun x => k))
  (at level 100, m at next level, right associativity) : go_scope.
Notation "m ;; k" := (bind m (fun _ => k))
  (at level 100, right associativity) : go_scope.
Open Scope go_scope.

(** [x, err := f(); if err != nil { return nil, err }] *)
Definition liftE {A} (r : Error + A) : M A :=
  fun c => match r with inl e => (Err e, c) | inr a => (Ok a, c) end.

Definition liftR {A} (r : Res A) : M A := fun c => (r, c).

Definition emit (e : Event) (c : Conn) : Conn :=
  mkConn (rd c) (wbudget c) (log c ++ [e]) (broken c).

Definition break (c : Conn) : Conn :=
  mkConn (rd c) (wbudget c) (log c) true.

Definition sendUint32 (v : Z) : M unit :=
  fun c =>
    match wbudget c with
    | O => (Err ErrWrite, break c)
    | S n => (Ok tt, mkConn (rd c) n (log c ++ [SentUint32 (u32 v)]) (broken c))
    end.

Definition sendData (d : bytes) : M unit :=
  fun c =>
    match wbudget c with
    | O => (Err ErrWrite, break c)
    | S n => (Ok tt, mkConn (rd c) n (log c ++ [SentData d]) (broken c))
    end.

Definition receiveUint32 : M Z :=
  fun c =>
    match rd c with
    | b0 :: b1 :: b2 :: b3 :: rest =>
        let v := dec_u32 b0 b1 b2 b3 in
        (Ok v, mkConn rest (wbudget c) (log c ++ [RecvUint32 v]) (broken c))
    | _ => (Err ErrRead, break c)
    end.

Definition receiveData : M bytes :=
  fun c =>
    match rd c with
    | b0 :: b1 :: b2 :: b3 :: rest =>
        let n := Z.to_nat (dec_u32 b0 b1 b2 b3) in
        if (n <=? length rest)%nat
        then (Ok (firstn n rest),
              mkConn (skipn n rest) (wbudget c)
                (log c ++ [RecvData (firstn n rest)]) (broken c))
        else (Err ErrRead, break c)
    | _ => (Err ErrRead, break c)
    end.

(** [conn.Flush()]: the function drops its error result at each of its four
    calls, so the model gives it none. *)
Definition Flush : M unit := fun c => (Ok tt, emit Flushed c).

(** Modelled from the spec: the opcodes are constants declared outside
    garbler.go; the spec's stream layout gives [OP_OT] the value 1 and
    [OP_RESULT] the value 2. *)
Definition OP_OT : Z := 1.
Definition OP_RESULT : Z := 2.

(** ** The oblivious-transfer sender

    The [ot] package is not among the sources.  [Garbler] uses it through
    the operations below; the sender and the transfer are pointers in Go,
    so a call may change them, and the model hands the new value back. *)
Class OTSender := {
  Sender : Type;
  SenderXfer : Type;
  NewSender : Z -> list Wire -> Error + Sender;
  SenderPublicKey : Sender -> PublicKey;
  NewTransfer : Sender -> Z -> Error + (SenderXfer * Sender);
  RandomMessages : SenderXfer -> bytes * bytes * SenderXfer;
  ReceiveV : SenderXfer -> bytes -> SenderXfer;
  Messages : SenderXfer -> Error + (bytes * bytes)
}.

(** [xs[i]] on a slice: a panic when [i] is out of range. *)
Definition index {A} (xs : list A) (i : Z) : Res A :=
  if (i <? 0) then Panic
  else match nth_error xs (Z.to_nat i) with
       | Some x => Ok x
       | None => Panic
       end.

(** The wire at an index that is known to be in range. *)
Definition noWire : Wire := mkWire (mkLabel []) (mkLabel []).

Definition wireAt (wires : list Wire) (w : Z) : Wire :=
  nth (Z.to_nat w) wires noWire.

Section Garbler.

Context {OT : OTSender}.

(** [circ.Garble(key)], declared outside garbler.go. *)
Variable Garble : Circuit -> bytes -> Error + Garbled.

(** *** Send garbled tables (lines 54-71) *)

Fixpoint sendRows (data : list bytes) : M unit :=
  match data with
  | [] => ret tt
  | d :: rest => sendData d ;; sendRows rest
  end.

Fixpoint sendTables (id : Z) (gates : list (list bytes)) : M unit :=
  match gates with
  | [] => ret tt
  | data :: rest =>
      sendUint32 id ;;
      sendUint32 (Z.of_nat (length data)) ;;
      sendRows data ;;
      sendTables (id + 1) rest
  end.

(** *** Select our inputs (lines 73-94)

    [left] counts the iterations the inner loop still has to make,
    [io.Size - i]. *)

Definition inputBit (input : option Z) (i : nat) : bool :=
  match input with
  | Some x => Z.testbit x (Z.of_nat i)
  | None => false
  end.

Fixpoint selectBits (wires : list Wire) (input : option Z)
    (left : nat) (i : nat) (w : Z) (n1 : list bytes)
    : Res (Z * list bytes) :=
  match left with
  | O => Ok (w, n1)
  | S left' =>
      match index wires w with
      | Ok wire =>
          let n := if inputBit input i
                   then Bytes (Label1 wire)
                   else Bytes (Label0 wire) in
          selectBits wires input left' (S i) (w + 1) (n1 ++ [n])
      | Err e => Err e
      | Panic => Panic
      | OutOfFuel => OutOfFuel
      end
  end.

(** [inputs] is a [[]*big.Int]: an entry may be nil. *)
Definition inputAt (inputs : list (option Z)) (idx : nat) : option Z :=
  if (idx <? length inputs)%nat then nth idx inputs None else None.

Fixpoint selectInputs (wires : list Wire) (groups : IO) (idx : nat)
    (inputs : list (option Z)) (w : Z) (n1 : list bytes)
    : Res (list bytes) :=
  match groups with
  | [] => Ok n1
  | io :: rest =>
      match selectBits wires (inputAt inputs idx) (Size io) 0 w n1 with
      | Ok (w', n1') => selectInputs wires rest (S idx) inputs w' n1'
      | Err e => Err e
      | Panic => Panic
      | OutOfFuel => OutOfFuel
      end
  end.

(** *** Send our inputs (lines 96-105) *)

Fixpoint sendInputs (n1 : list bytes) : M unit :=
  match n1 with
  | [] => ret tt
  | i :: rest => sendData i ;; sendInputs rest
  end.

(** *** Send our public key (lines 113-124) *)

Definition sendPublicKey (sender : Sender) : M unit :=
  let pub := SenderPublicKey sender in
  sendData (bigBytes (pkN pub)) ;;
  sendUint32 (pkE pub) ;;
  Flush.

(** *** Process messages (lines 131-207) *)

(** case OP_OT *)
Definition otRound (sender : Sender) : M Sender :=
  bit <- receiveUint32 ;;
  r <- liftE (NewTransfer sender bit) ;;
  let '(xfer, sender') := r in
  let '(x0, x1, xfer) := RandomMessages xfer in
  sendData x0 ;;
  sendData x1 ;;
  Flush ;;
  v <- receiveData ;;
  let xfer := ReceiveV xfer v in
  m <- liftE (Messages xfer) ;;
  let '(m0p, m1p) := m in
  sendData m0p ;;
  sendData m1p ;;
  Flush ;;
  ret sender'.

Definition decodeLabel (label : bytes) (wire : Wire) (i : Z) : Res bool :=
  if bytes_eqb label (Bytes (Label0 wire)) then Ok false
  else if bytes_eqb label (Bytes (Label1 wire)) then Ok true
  else Err (ErrUnknownLabel label i).

(** The loop of case OP_RESULT; [left] is [circ.N3.Size() - i]. *)
Fixpoint decodeResult (garbled : Garbled) (circ : Circuit)
    (left : nat) (i : Z) (result : Z) : M Z :=
  match left with
  | O => ret result
  | S left' =>
      label <- receiveData ;;
      wire <- liftR (index (Wires garbled)
                       (NumWires circ - IO_Size (N3 circ) + i)) ;;
      bit <- liftR (decodeLabel label wire i) ;;
      decodeResult garbled circ left' (i + 1) (SetBit result i bit)
  end.

(** case OP_RESULT *)
Definition opResult (garbled : Garbled) (circ : Circuit) (result : Z)
    : M Z :=
  result <- decodeResult garbled circ
              (Z.to_nat (IO_Size (N3 circ))) 0 result ;;
  sendData (bigBytes result) ;;
  Flush ;;
  ret result.

(** [for !done { ... }]: every iteration reads an opcode; the switch has
    the two cases and no default. *)
Fixpoint messageLoop (fuel : nat) (garbled : Garbled) (circ : Circuit)
    (sender : Sender) (result : Z) : M Z :=
  match fuel with
  | O => liftR OutOfFuel
  | S fuel' =>
      op <- receiveUint32 ;;
      if op =? OP_OT then
        sender' <- otRound sender ;;
        messageLoop fuel' garbled circ sender' result
      else if op =? OP_RESULT then
        opResult garbled circ result
      else
        messageLoop fuel' garbled circ sender result
  end.

(** Each iteration consumes an opcode of four bytes, so the bytes left on
    the stream bound the number of iterations. *)
Definition processMessages (garbled : Garbled) (circ : Circuit)
    (sender : Sender) : M Z :=
  fun c => messageLoop (S (length (rd c))) garbled circ sender 0 c.

(** *** The function body after [circ.Garble] *)
Definition session (garbled : Garbled) (circ : Circuit)
    (inputs : list (option Z)) : M (list Z) :=
  sendTables 0 (Gates garbled) ;;
  n1 <- liftR (selectInputs (Wires garbled) (N1 circ) 0 inputs 0 []) ;;
  sendInputs n1 ;;
  sender <- liftE (NewSender 2048 (Wires garbled)) ;;
  sendPublicKey sender ;;
  result <- processMessages garbled circ sender ;;
  ret (IO_Split (N3 circ) result).

Definition goReturn (r : Res (list Z)) : GoResult :=
  match r with
  | Ok outputs => Return (Some outputs) None
  | Err e => Return None (Some e)
  | Panic => Panics
  | OutOfFuel => Diverges
  end.

Definition Garbler (conn : Conn) (circ : Circuit)
    (inputs : list (option Z)) (key : bytes) : GoResult * Conn :=
  match Garble circ key with
  | inl err => (Return None (Some err), conn)
  | inr garbled =>
      let '(r, conn') := session garbled circ inputs conn in
      (goReturn r, conn')
  end.

End Garbler.

(** ** The oblivious-transfer sender of the specification

    Modelled from the spec: the [ot] package ([NewSender], [NewTransfer],
    [RandomMessages], [ReceiveV], [Messages]) is not among the sources.
    The spec gives the sender an RSA key pair [(n, e, d)] for the session
    and, per round: two random values [x0], [x1] below [n]; on the
    receiver's [v], the keys [k_i = (v - x_i)^d mod n] and the messages
    [m_i' = m_i xor k_i] at the width of the label, [m_0], [m_1] being the
    two labels of the round's wire; and one round per Evaluator input
    wire, the [i]-th request serving the [i]-th Evaluator input wire
    whatever index it carries. *)

Module SpecOT.

(** Big-endian bytes as a number, and a number as [width] big-endian
    bytes (truncated or zero-extended). *)
Fixpoint Z_of_bytes_acc (acc : Z) (b : bytes) : Z :=
  match b with
  | [] => acc
  | x :: rest => Z_of_bytes_acc (acc * 256 + Z_of_byte x) rest
  end.

Definition Z_of_bytes (b : bytes) : Z := Z_of_bytes_acc 0 b.

Fixpoint fixed_bytes (width : nat) (z : Z) (acc : bytes) : bytes :=
  match width with
  | O => acc
  | S width' => fixed_bytes width' (z / 256) (byte_of_Z z :: acc)
  end.

Record KeyPair := mkKeyPair { keyN : Z; keyE : Z; keyD : Z }.

Record sender := mkSender {
  key : KeyPair;
  wires : list Wire;
  round : nat            (* OT rounds served so far *)
}.

Record xfer := mkXfer {
  xkey : KeyPair;
  m0 : bytes;
  m1 : bytes;
  x0 : Z;
  x1 : Z;
  v : Z
}.

Section Instance.

(** The circuit of the session (it fixes where the Evaluator's input
    wires start), key generation, and the random source. *)
Variable circ : Circuit.
Variable keygen : Z -> Error + KeyPair.
Variable random : nat -> Z.

Definition newSender (keyBits : Z) (ws : list Wire) : Error + sender :=
  match keygen keyBits with
  | inl e => inl e
  | inr k => inr (mkSender k ws 0)
  end.

(** The [i]-th request serves the [i]-th Evaluator input wire, which
    is wire [|N1| + i]; the index sent with the request is not
    consulted. *)
Definition newTransfer (s : sender) (bit : Z)
    : Error + (xfer * sender) :=
  if (Z.of_nat (round s) <? IO_Size (N2 circ)) then
    match nth_error (wires s)
            (Z.to_nat (IO_Size (N1 circ)) + round s) with
    | Some w =>
        inr (mkXfer (key s) (Bytes (Label0 w)) (Bytes (Label1 w))
               (random (2 * round s) mod keyN (key s))
               (random (2 * round s + 1) mod keyN (key s)) 0,
             mkSender (key s) (wires s) (S (round s)))
    | None => inl (ErrOT 1)
    end
  else inl (ErrOT 1).

Definition randomMessages (x : xfer) : bytes * bytes * xfer :=
  (bigBytes (x0 x), bigBytes (x1 x), x).

Definition receiveV (x : xfer) (data : bytes) : xfer :=
  mkXfer (xkey x) (m0 x) (m1 x) (x0 x) (x1 x) (Z_of_bytes data).

Definition blind (x : xfer) (xi : Z) (m : bytes) : bytes :=
  let k := ((v x - xi) ^ keyD (xkey x)) mod keyN (xkey x) in
  fixed_bytes (length m) (Z.lxor (Z_of_bytes m) k) [].

Definition messages (x : xfer) : Error + (bytes * bytes) :=
  if keyN (xkey x) <=? 0 then inl (ErrOT 2)
  else inr (blind x (x0 x) (m0 x), blind x (x1 x) (m1 x)).

Definition instance : OTSender := {|
  Sender := sender;
  SenderXfer := xfer;
  NewSender := newSender;
  SenderPublicKey := fun s => mkPublicKey (keyN (key s)) (keyE (key s));
  NewTransfer := newTransfer;
  RandomMessages := randomMessages;
  ReceiveV := receiveV;
  Messages := messages
|}.

End Instance.

End SpecOT.

(** ** The stream the Garbler is meant to produce

    The events of each phase, written after the protocol description. *)

(** Budget a list of events asks of the peer: one per send. *)
Definition isSend (e : Event) : bool :=
  match e with
  | SentUint32 _ | SentData _ => true
  | _ => false
  end.

Definition cost (evs : list Event) : nat := length (filter isSend evs).

(** One gate: its id as u32, its row count as u32, then its rows framed. *)
Definition gateRecord (id : nat) (data : list bytes) : list Event :=
  SentUint32 (u32 (Z.of_nat id))
    :: SentUint32 (u32 (Z.of_nat (length data)))
    :: map SentData data.

(** The tables of all gates, in the order of the circuit. *)
Definition tableStream (gates : list (list bytes)) : list Event :=
  concat (map (fun p => gateRecord (fst p) (snd p))
            (combine (seq 0 (length gates)) gates)).

(** The Garbler's input labels: over the groups of [N1] in declared
    order, and in each group over the bit positions in ascending order,
    the label of the bit's value on the bit's wire.  The wires of the
    groups follow one another from wire 0. *)
Definition groupStart (groups : IO) (idx : nat) : Z :=
  IO_Size (firstn idx groups).

Definition chosenLabel (wire : Wire) (input : option Z) (i : nat) : bytes :=
  if inputBit input i then Bytes (Label1 wire) else Bytes (Label0 wire).

Definition groupLabels (wires : list Wire) (groups : IO)
    (inputs : list (option Z)) (idx : nat) : list bytes :=
  map (fun i =>
         chosenLabel (wireAt wires (groupStart groups idx + Z.of_nat i))
           (inputAt inputs idx) i)
    (seq 0 (Size (nth idx groups (mkIOArg 0)))).

Definition inputLabels (wires : list Wire) (groups : IO)
    (inputs : list (option Z)) : list bytes :=
  concat (map (groupLabels wires groups inputs) (seq 0 (length groups))).

(** The labels the peer returns for the output wires: each one is one of
    the two labels of its wire, the wires taken from [w] upwards. *)
Fixpoint validLabels (wires : list Wire) (w : Z) (labels : list bytes)
    : bool :=
  match labels with
  | [] => true
  | l :: rest =>
      match index wires w with
      | Ok wire =>
          (bytes_eqb l (Bytes (Label0 wire))
           || bytes_eqb l (Bytes (Label1 wire)))
          && validLabels wires (w + 1) rest
      | _ => false
      end
  end.

(** Every frame of the list has a length that fits the u32 prefix. *)
Definition framable (ds : list bytes) : Prop :=
  Forall (fun d => Z.of_nat (length d) < 2 ^ 32) ds.

(** The first output wire of a circuit. *)
Definition outputBase (circ : Circuit) : Z :=
  NumWires circ - IO_Size (N3 circ).

(** A returned label decodes to bit 0 when it is the wire's [Label0] and
    to bit 1 when it is the wire's [Label1] (the comparison with [Label0]
    comes first). *)
Definition decodes (wire : Wire) (label : bytes) (b : bool) : Prop :=
  (label = Bytes (Label0 wire) /\ b = false)
  \/ (label <> Bytes (Label0 wire) /\ label = Bytes (Label1 wire)
      /\ b = true).

Definition keyStream (pub : PublicKey) : list Event :=
  [SentData (bigBytes (pkN pub)); SentUint32 (u32 (pkE pub)); Flushed].

(** The integer [z] assembled from the returned [labels]: there is one
    label per output wire, label [j] is decoded against wire
    [NumWires - |N3| + j] and gives bit [j] of [z], and [z] has no other
    bit set. *)
Definition decoded (g : Garbled) (circ : Circuit) (labels : list bytes)
    (z : Z) : Prop :=
  length labels = Z.to_nat (IO_Size (N3 circ)) /\
  (forall j, (j < length labels)%nat ->
     exists wire,
       index (Wires g) (outputBase circ + Z.of_nat j) = Ok wire /\
       decodes wire (nth j labels []) (Z.testbit z (Z.of_nat j))) /\
  (forall k, k < 0 \/ IO_Size (N3 circ) <= k -> Z.testbit z k = false).

(** ** The order of the stream

    [prefix p l]: the session broke off after [p] on its way through
    [l]. *)
Definition prefix {A} (p l : list A) : Prop := exists s, l = p ++ s.

(** One OT round as the Garbler sees it: the opcode and the index come
    in, [x0] and [x1] go out, [v] comes in, [m0'] and [m1'] go out. *)
Definition roundEvents (bit : Z) (x0 x1 v m0p m1p : bytes) : list Event :=
  [ RecvUint32 OP_OT; RecvUint32 bit; SentData x0; SentData x1; Flushed;
    RecvData v; SentData m0p; SentData m1p; Flushed ].

(** The result exchange: the opcode and the output labels come in, the
    result goes out. *)
Definition resultEvents (labels : list bytes) (r : bytes) : list Event :=
  RecvUint32 OP_RESULT :: map RecvData labels ++ [SentData r; Flushed].

(** The events of the message loop, started with sender [s]: opcodes that
    are neither OT nor RESULT, whole OT rounds made of the sender's own
    messages, and last either a whole result exchange or what was done of
    a round or of the result exchange when the session broke off. *)
Inductive loopTrace {OT : OTSender} (circ : Circuit)
    : Sender -> list Event -> Prop :=
| LT_broken s p :
    (exists bit x0 x1 v m0p m1p, prefix p (roundEvents bit x0 x1 v m0p m1p))
    \/ (exists labels r, prefix p (resultEvents labels r)) ->
    loopTrace circ s p
| LT_other s op L :
    op <> OP_OT -> op <> OP_RESULT ->
    loopTrace circ s L ->
    loopTrace circ s (RecvUint32 op :: L)
| LT_round s bit xfer s' x0 x1 xfer' v m0p m1p L :
    NewTransfer s bit = inr (xfer, s') ->
    RandomMessages xfer = (x0, x1, xfer') ->
    Messages (ReceiveV xfer' v) = inr (m0p, m1p) ->
    loopTrace circ s' L ->
    loopTrace circ s (roundEvents bit x0 x1 v m0p m1p ++ L)
| LT_result s labels r :
    length labels = Z.to_nat (IO_Size (N3 circ)) ->
    loopTrace circ s (resultEvents labels (bigBytes r)).

(** The events of a whole session on garbled circuit [g]: the tables,
    then the input labels, then the public key, then the loop; a session
    that breaks off leaves a prefix. *)
Definition sessionTrace {OT : OTSender} (g : Garbled) (circ : Circuit)
    (inputs : list (option Z)) (p : list Event) : Prop :=
  let T := tableStream (Gates g) in
  prefix p T
  \/ exists n1,
       selectInputs (Wires g) (N1 circ) 0 inputs 0 [] = Ok n1 /\
       let I := map SentData n1 in
       (prefix p (T ++ I)
        \/ exists s,
             NewSender 2048 (Wires g) = inr s /\
             let K := keyStream (SenderPublicKey s) in
             (prefix p (T ++ I ++ K)
              \/ exists L, p = T ++ I ++ K ++ L /\ loopTrace circ s L)).

(** ** The rounds of the specification's sender

    The requests of the peer and what the sender of [SpecOT] answers, round
    by round. *)
Module Rounds.

Section Served.

Variable circ : Circuit.
Variable random : nat -> Z.

(** What the peer sends for one round, and for a run of rounds. *)
Definition request (bit : Z) (data : bytes) : bytes :=
enc_u32 OP_OT ++ enc_u32 bit ++ frame data.

Definition requests (reqs : list (Z * bytes)) : bytes :=
concat (map (fun r => request (fst r) (snd r)) reqs).

(** The transfer of round [i]: the two labels of the [i]-th Evaluator
  input wire, wire [|N1| + i]. *)
Definition roundXfer (k : SpecOT.KeyPair) (ws : list Wire) (i : nat) : SpecOT.xfer :=
let w := wireAt ws (IO_Size (N1 circ) + Z.of_nat i) in
SpecOT.mkXfer k (Bytes (Label0 w)) (Bytes (Label1 w))
  (random (2 * i) mod SpecOT.keyN k) (random (2 * i + 1) mod SpecOT.keyN k) 0.

(** The four messages the sender puts out in round [i] on [v]. *)
Definition answers (k : SpecOT.KeyPair) (ws : list Wire) (i : nat)
  (data : bytes) : bytes * bytes * bytes * bytes :=
let x := SpecOT.receiveV (roundXfer k ws i) data in
(bigBytes (SpecOT.x0 x), bigBytes (SpecOT.x1 x),
 SpecOT.blind x (SpecOT.x0 x) (SpecOT.m0 x), SpecOT.blind x (SpecOT.x1 x) (SpecOT.m1 x)).

Definition served (k : SpecOT.KeyPair) (ws : list Wire) (i : nat)
  (bit : Z) (data : bytes) : list Event :=
let '(a0, a1, b0, b1) := answers k ws i data in
roundEvents (u32 bit) a0 a1 data b0 b1.

Fixpoint servedFrom (k : SpecOT.KeyPair) (ws : list Wire) (i : nat)
  (reqs : list (Z * bytes)) : list Event :=
match reqs with
| [] => []
| r :: rest =>
    served k ws i (fst r) (snd r) ++ servedFrom k ws (S i) rest
end.

End Served.

End Rounds.

(** ** The function body, phase by phase

    What is left of [session] after the tables, after the input labels and
    after the public key; [session_phases] below shows that these are the
    body itself. *)

Definition afterKey {OT : OTSender} (g : Garbled) (circ : Circuit)
    (s : Sender) : M (list Z) :=
  result <- processMessages g circ s ;;
  ret (IO_Split (N3 circ) result).

Definition afterInputs {OT : OTSender} (g : Garbled) (circ : Circuit)
    : M (list Z) :=
  sender <- liftE (NewSender 2048 (Wires g)) ;;
  sendPublicKey sender ;;
  afterKey g circ sender.

Definition afterTables {OT : OTSender} (g : Garbled) (circ : Circuit)
    (inputs : list (option Z)) : M (list Z) :=
  n1 <- liftR (selectInputs (Wires g) (N1 circ) 0 inputs 0 []) ;;
  sendInputs n1 ;;
  afterInputs g circ.

(** The events before the loop. *)
Definition prelude {OT : OTSender} (g : Garbled) (circ : Circuit)
    (inputs : list (option Z)) (s : Sender) : list Event :=
  tableStream (Gates g)
    ++ map SentData (inputLabels (Wires g) (N1 circ) inputs)
    ++ keyStream (SenderPublicKey s).

(** What [Garbler] returns once the loop has ended (or failed). *)
Definition finish (circ : Circuit) (x : Res Z * Conn) : GoResult * Conn :=
  (match fst x with
   | Ok z => Return (Some (IO_Split (N3 circ) z)) None
   | Err e => Return None (Some e)
   | Panic => Panics
   | OutOfFuel => Diverges
   end, snd x).

(** ** Two properties of a piece of the body *)

(** [emits m full]: run with enough budget, [m] appends exactly [full] to
    the stream and falls through; run with less, it stops with a write
    error after a proper prefix of [full]. *)

Definition emits (m : M unit) (full : list Event) : Prop :=
  forall c,
    ((cost full <= wbudget c)%nat /\
     m c = (Ok tt, mkConn (rd c) (wbudget c - cost full)
                     (log c ++ full) (broken c)))
    \/
    ((wbudget c < cost full)%nat /\
     exists p s, s <> [] /\ full = p ++ s /\
       m c = (Err ErrWrite, mkConn (rd c) 0 (log c ++ p) true)).

(** [tame m]: [m] does not run out of fuel, takes bytes from the peer but
    never gives any back, only adds to the stream, and marks the
    connection as failed only when it returns an error. *)

Definition tame {A} (m : M A) : Prop :=
  forall c r c', m c = (r, c') ->
    r <> OutOfFuel /\
    (length (rd c') <= length (rd c))%nat /\
    prefix (log c) (log c') /\
    ((forall e, r <> Err e) -> broken c' = broken c).

(** The tables of the gates from gate [id] on. *)
Definition tableFrom (id : nat) (gates : list (list bytes)) : list Event :=
  concat (map (fun p => gateRecord (fst p) (snd p))
            (combine (seq id (length gates)) gates)).

(** ** A small circuit to run the function on

    Two Garbler input bits, two Evaluator input bits, two outputs of one
    bit each; an AND table of three rows and an XOR gate without one. *)
Module Demo.

Definition lbl (a b : byte) : Label := mkLabel [a; b].

Definition wires : list Wire :=
  [ mkWire (lbl x00 x10) (lbl x00 x11);
    mkWire (lbl x01 x10) (lbl x01 x11);
    mkWire (lbl x02 x10) (lbl x02 x11);
    mkWire (lbl x03 x10) (lbl x03 x11);
    mkWire (lbl x04 x10) (lbl x04 x11);
    mkWire (lbl x05 x10) (lbl x05 x11) ].

Definition garbled : Garbled :=
  mkGarbled wires [ [ [xaa]; [xbb]; [xcc] ]; [] ].

Definition circ : Circuit :=
  mkCircuit 6 [mkIOArg 2] [mkIOArg 2] [mkIOArg 1; mkIOArg 1].

Definition garble (c : Circuit) (k : bytes) : Error + Garbled :=
  inr garbled.


Definition keys : SpecOT.KeyPair := SpecOT.mkKeyPair 33 3 7.

Definition ot : OTSender :=
  SpecOT.instance circ (fun _ => inr keys) (fun i => Z.of_nat i + 5).

Definition sender0 : SpecOT.sender := SpecOT.mkSender keys wires 0.

(** The peer asks for the result at once and returns the labels of the
    output bits 1 and 0. *)
Definition resultOnly : bytes :=
  enc_u32 OP_RESULT ++ frame [x04; x11] ++ frame [x05; x10].

(** The peer runs two OT rounds (sending the indices 9 and 0), then
    asks for the result. *)
Definition twoRounds : bytes :=
  enc_u32 OP_OT ++ enc_u32 9 ++ frame [x09] ++
  enc_u32 OP_OT ++ enc_u32 0 ++ frame [x0a] ++
  resultOnly.

(** An opcode 7 comes first. *)
Definition strayOpcode : bytes := enc_u32 7 ++ resultOnly.

(** The second label returned belongs to no output wire. *)
Definition badLabel : bytes :=
  enc_u32 OP_RESULT ++ frame [x04; x11] ++ frame [xff; xff].

Definition fresh (stream : bytes) (budget : nat) : Conn :=
  mkConn stream budget [] false.

End Demo.

(** ** Output waiting in the buffer

    The sends go to a [bufio] writer: a send leaves output waiting in the
    buffer, [Flush] hands it to the peer.  [flushedReads pending evs]
    holds when no receive of [evs] is made while output is waiting,
    [pending] telling whether some is waiting at the start. *)
Fixpoint flushedReads (pending : bool) (evs : list Event) : bool :=
  match evs with
  | [] => true
  | SentUint32 _ :: rest => flushedReads true rest
  | SentData _ :: rest => flushedReads true rest
  | Flushed :: rest => flushedReads false rest
  | RecvUint32 _ :: rest => negb pending && flushedReads false rest
  | RecvData _ :: rest => negb pending && flushedReads false rest
  end.


(** ** The inputs as the selection reads them

    One integer per group of N1, cut to the width of the group; an
    integer that is missing or nil counts as 0. *)
Definition inputValue (inputs : list (option Z)) (idx : nat) : Z :=
  match inputAt inputs idx with
  | Some x => x
  | None => 0
  end.

Definition truncatedInputs (groups : IO) (inputs : list (option Z))
    : list (option Z) :=
  map (fun idx =>
         Some (inputValue inputs idx
               mod 2 ^ Z.of_nat (Size (nth idx groups (mkIOArg 0)))))
    (seq 0 (length groups)).


(** ** Slice indices in range

    [nopanic m]: [m] makes no slice access out of range. *)
Definition nopanic {A} (m : M A) : Prop :=
  forall c, fst (m c) <> Panic.


(** ** The size of the transfer (lines 55-127)

    [size] is a [FileSize], a [uint64] that starts at zero; it is counted
    up after each send of the tables, of the input labels and of the key,
    and is printed in verbose mode once the key is out.  The functions
    below are the sending loops of the body with [size] carried along,
    and [transfer] is the body up to that point. *)
Definition u64 (v : Z) : Z := v mod 2 ^ 64.

Fixpoint sendRowsSized (size : Z) (data : list bytes) : M Z :=
  match data with
  | [] => ret size
  | d :: rest =>
      sendData d ;;
      sendRowsSized (u64 (size + u64 (4 + Z.of_nat (length d)))) rest
  end.

Fixpoint sendTablesSized (id : Z) (size : Z) (gates : list (list bytes))
    : M Z :=
  match gates with
  | [] => ret size
  | data :: rest =>
      sendUint32 id ;;
      let size := u64 (size + 4) in
      sendUint32 (Z.of_nat (length data)) ;;
      let size := u64 (size + 4) in
      size <- sendRowsSized size data ;;
      sendTablesSized (id + 1) size rest
  end.

Fixpoint sendInputsSized (size : Z) (n1 : list bytes) : M Z :=
  match n1 with
  | [] => ret size
  | i :: rest =>
      sendData i ;;
      sendInputsSized (u64 (size + u64 (4 + Z.of_nat (length i)))) rest
  end.

Definition sendPublicKeySized {OT : OTSender} (size : Z) (sender : Sender)
    : M Z :=
  let pub := SenderPublicKey sender in
  let data := bigBytes (pkN pub) in
  sendData data ;;
  let size := u64 (size + u64 (4 + Z.of_nat (length data))) in
  sendUint32 (pkE pub) ;;
  let size := u64 (size + 4) in
  Flush ;;
  ret size.

Definition transfer {OT : OTSender} (garbled : Garbled) (circ : Circuit)
    (inputs : list (option Z)) : M (Sender * Z) :=
  size <- sendTablesSized 0 0 (Gates garbled) ;;
  n1 <- liftR (selectInputs (Wires garbled) (N1 circ) 0 inputs 0 []) ;;
  size <- sendInputsSized size n1 ;;
  sender <- liftE (NewSender 2048 (Wires garbled)) ;;
  size <- sendPublicKeySized size sender ;;
  ret (sender, size).

(** The bytes a send puts on the connection: a [uint32] as four bytes,
    data as a frame. *)
Definition wireBytes (e : Event) : bytes :=
  match e with
  | SentUint32 v => enc_u32 v
  | SentData d => frame d
  | _ => []
  end.

Definition sentBytes (evs : list Event) : bytes := flat_map wireBytes evs.

Definition wireLength (evs : list Event) : Z :=
  Z.of_nat (length (sentBytes evs)).

(** [sizedAs m u size n]: [m] is [u] with the size carried along; it
    fails as [u] does, and where [u] falls through, [m] gives [size]
    grown by [n]. *)
Definition sizedAs (m : M Z) (u : M unit) (size n : Z) : Prop :=
  forall c,
    match u c with
    | (Ok _, c') =>
        exists size',
          m c = (Ok size', c') /\ u64 size' = u64 (size + n) /\
          (u64 size = size -> u64 size' = size')
    | (Err e, c') => m c = (Err e, c')
    | (Panic, c') => m c = (Panic, c')
    | (OutOfFuel, c') => m c = (OutOfFuel, c')
    end.


(** ** [FileSize.String] (lines 21-35) *)

(** [fmt.Sprintf] with the verb [%d] on an unsigned integer: its decimal
    digits. *)
Definition formatUint (n : Z) : String.string :=
  DecimalString.NilZero.string_of_uint (N.to_uint (Z.to_N n)).

(** [s] is a [uint64]; the division is the integer division. *)
Definition FileSize_String (s : Z) : String.string :=
  if s >? 1000 * 1000 * 1000 * 1000 then
    String.append (formatUint (s / (1000 * 1000 * 1000 * 1000))) " TB"
  else if s >? 1000 * 1000 * 1000 then
    String.append (formatUint (s / (1000 * 1000 * 1000))) " GB"
  else if s >? 1000 * 1000 then
    String.append (formatUint (s / (1000 * 1000))) " MB"
  else if s >? 1000 then
    String.append (formatUint (s / 1000)) " kB"
  else
    String.append (formatUint s) " B".

(** The units of a printed size: the bytes of one unit and its suffix. *)
Definition sizeUnits : list (Z * String.string) :=
  [ (1, " B"%string); (1000, " kB"%string); (1000000, " MB"%string);
    (1000000000, " GB"%string); (1000000000000, " TB"%string) ].


(** ** Variable bindings (compiler/ssa/block.go, [Bindings])

    [Bindings] is a slice of [Binding]; [Set] and [Get] go through it in
    order.  [Set] and [Type] are reserved words here, so the methods are
    [Bindings_Set] and [Bindings_Get] and the field is [BType]. *)
Module Ssa.

(** The declarations of [Variable] and [types.Info] are not in block.go;
    the class carries the fields of a variable that [Set] reads and the
    zero value of [types.Info]. *)
Class Variables := {
  Info : Type;
  zeroInfo : Info;
  Var : Type;
  VarName : Var -> String.string;
  VarScope : Var -> Z;
  VarType : Var -> Info
}.

Section Bindings.

Context {V : Variables}.

(** [BindingValue] is implemented by [*Variable] and by [*Select]. *)
Inductive BindingValue :=
| BoundVariable (v : Var)
| BoundSelect (cond : Var) (type : Info) (t f : BindingValue)
    (resolved : Var).

(** [Bound] is an interface value: nil in the zero [Binding]. *)
Record Binding := mkBinding {
  Name : String.string;
  Scope : Z;
  BType : Info;
  Bound : option BindingValue
}.

Definition Bindings := list Binding.

Definition zeroBinding : Binding :=
  mkBinding String.EmptyString 0 zeroInfo None.

(** [if val != nil { b.Bound = val } else { b.Bound = &v }] *)
Definition boundTo (v : Var) (val : option Var) : option BindingValue :=
  match val with
  | Some p => Some (BoundVariable p)
  | None => Some (BoundVariable v)
  end.

(** [Set]: the first binding of the same name and scope is rebound in
    place; without one the new binding is appended. *)
Fixpoint Bindings_Set (bindings : Bindings) (v : Var) (val : option Var)
    : Bindings :=
  match bindings with
  | [] => [mkBinding (VarName v) (VarScope v) (VarType v) (boundTo v val)]
  | b :: rest =>
      if String.eqb (Name b) (VarName v) && (Scope b =? VarScope v)
      then mkBinding (Name b) (Scope b) (VarType v) (boundTo v val) :: rest
      else b :: Bindings_Set rest v val
  end.

(** The loop of [Get], [ret] being the named result. *)
Fixpoint Get_loop (bindings : Bindings) (name : String.string)
    (ret : Binding) : Binding :=
  match bindings with
  | [] => ret
  | b :: rest =>
      Get_loop rest name
        (if String.eqb (Name b) name
         then if (String.length (Name ret) =? 0)%nat || (Scope b >? Scope ret)
              then b
              else ret
         else ret)
  end.

Definition Bindings_Get (bindings : Bindings) (name : String.string)
    : Binding * bool :=
  let ret := Get_loop bindings name zeroBinding in
  if (String.length (Name ret) =? 0)%nat then (ret, false) else (ret, true).

End Bindings.

(** Variables that are a name, a scope and a number of bits. *)
Definition plainVariables : Variables :=
  {| Info := nat; zeroInfo := 0%nat;
     Var := String.string * Z * nat;
     VarName := fun v => fst (fst v);
     VarScope := fun v => snd (fst v);
     VarType := fun v => snd v |}.

End Ssa.


(** The name and the scope of each binding, in slice order: what [Set]
    looks a binding up by. *)
Definition bindingKeys {V : Ssa.Variables} (bs : Ssa.Bindings)
    : list (String.string * Z) :=
  map (fun b => (Ssa.Name b, Ssa.Scope b)) bs.

(** * Properties *)

(** ** The model at work *)

Example bigBytes_258 : bigBytes 258 = [x01; x02].
Proof. reflexivity. Qed.

Example bigBytes_zero : bigBytes 0 = [].
Proof. reflexivity. Qed.

Example frame_two_bytes : frame [x04; x11] = [x00; x00; x00; x02; x04; x11].
Proof. reflexivity. Qed.

Example IO_Split_29 : IO_Split [mkIOArg 2; mkIOArg 3] 29 = [1; 7].
Proof. reflexivity. Qed.

Example tableStream_demo :
  tableStream (Gates Demo.garbled) =
    [ SentUint32 0; SentUint32 3; SentData [xaa]; SentData [xbb];
      SentData [xcc]; SentUint32 1; SentUint32 0 ].
Proof. reflexivity. Qed.

Example inputLabels_demo :
  inputLabels Demo.wires (N1 Demo.circ) [Some 2] = [[x00; x10]; [x01; x11]].
Proof. reflexivity. Qed.

(** A whole session: tables, input labels for the input 2, the key
    [(33, 3)], two OT rounds (for wires 2 and 3), the result exchange. *)
Example Garbler_demo :
  @Garbler Demo.ot Demo.garble (Demo.fresh Demo.twoRounds 100) Demo.circ
    [Some 2] [] =
  (Return (Some [1; 0]) None,
   mkConn [] 80
     [ SentUint32 0; SentUint32 3; SentData [xaa]; SentData [xbb];
       SentData [xcc]; SentUint32 1; SentUint32 0;
       SentData [x00; x10]; SentData [x01; x11];
       SentData [x21]; SentUint32 3; Flushed;
       RecvUint32 1; RecvUint32 9; SentData [x05]; SentData [x06]; Flushed;
       RecvData [x09]; SentData [x02; x00]; SentData [x02; x18]; Flushed;
       RecvUint32 1; RecvUint32 0; SentData [x07]; SentData [x08]; Flushed;
       RecvData [x0a]; SentData [x03; x19]; SentData [x03; x0c]; Flushed;
       RecvUint32 2; RecvData [x04; x11]; RecvData [x05; x10];
       SentData [x01]; Flushed ]
     false).
Proof. vm_compute. reflexivity. Qed.

(** The peer stops accepting after thirteen sends: the write of [m0'] in
    the first OT round fails and the call returns the error. *)
Example Garbler_demo_write_fails :
  fst (@Garbler Demo.ot Demo.garble (Demo.fresh Demo.twoRounds 13) Demo.circ
         [Some 2] []) = Return None (Some ErrWrite).
Proof. vm_compute. reflexivity. Qed.

(** ** Bytes and the framing *)

Lemma Z_of_byte_range (b : byte) : 0 <= Z_of_byte b < 256.
Proof.
  unfold Z_of_byte. pose proof (Byte.to_N_bounded b). lia.
Qed.

Lemma Z_of_byte_of_Z (z : Z) : Z_of_byte (byte_of_Z z) = z mod 256.
Proof.
  unfold Z_of_byte, byte_of_Z.
  assert (Hr : 0 <= z mod 256 < 256) by (apply Z.mod_pos_bound; lia).
  destruct (Byte.of_N (Z.to_N (z mod 256))) as [b|] eqn:E.
  - apply Byte.to_of_N in E. rewrite E. lia.
  - apply Byte.of_N_None_iff in E. lia.
Qed.

Lemma bytes_eqb_eq (a b : bytes) : bytes_eqb a b = true <-> a = b.
Proof.
  revert b. induction a as [|x a IH]; destruct b as [|y b]; simpl;
    try (split; (discriminate || reflexivity)).
  rewrite andb_true_iff, IH. split.
  - intros [H1 H2]. apply Byte.byte_dec_bl in H1. congruence.
  - intros H. inversion H; subst. split; [apply Byte.byte_dec_lb|]; reflexivity.
Qed.

Lemma bytes_eqb_neq (a b : bytes) : bytes_eqb a b = false <-> a <> b.
Proof.
  destruct (bytes_eqb a b) eqn:E.
  - apply bytes_eqb_eq in E. split; [discriminate | congruence].
  - split; [|reflexivity]. intros _ H. apply bytes_eqb_eq in H. congruence.
Qed.

Lemma u32_small (v : Z) : 0 <= v < 2 ^ 32 -> u32 v = v.
Proof. intros. unfold u32. apply Z.mod_small. assumption. Qed.

Lemma dec_enc_u32 (v : Z) :
  dec_u32 (byte_of_Z (v / 2 ^ 24)) (byte_of_Z (v / 2 ^ 16))
          (byte_of_Z (v / 2 ^ 8)) (byte_of_Z v) = u32 v.
Proof.
  unfold dec_u32, u32. rewrite !Z_of_byte_of_Z.
  change (2 ^ 24) with 16777216. change (2 ^ 16) with 65536.
  change (2 ^ 8) with 256. change (2 ^ 32) with 4294967296.
  Z.div_mod_to_equations. lia.
Qed.



(** ** The monad *)

Lemma bind_Ok_inv {A B} (m : M A) (k : A -> M B) c b c' :
  bind m k c = (Ok b, c') ->
  exists a c1, m c = (Ok a, c1) /\ k a c1 = (Ok b, c').
Proof.
  unfold bind. destruct (m c) as [[a|e| |] c1]; try discriminate.
  intros H. exists a, c1. split; [reflexivity | assumption].
Qed.

Lemma bind_Ok {A B} (m : M A) (k : A -> M B) c a c1 :
  m c = (Ok a, c1) -> bind m k c = k a c1.
Proof. intros H. unfold bind. rewrite H. reflexivity. Qed.

Lemma bind_Err {A B} (m : M A) (k : A -> M B) c e c1 :
  m c = (Err e, c1) -> bind m k c = (Err e, c1).
Proof. intros H. unfold bind. rewrite H. reflexivity. Qed.

(** ** Send-only pieces *)

Lemma cost_app (a b : list Event) : cost (a ++ b) = (cost a + cost b)%nat.
Proof. unfold cost. rewrite filter_app, length_app. reflexivity. Qed.

Lemma emits_ret : emits (ret tt) [].
Proof.
  intros [r w l b]. left. unfold cost. simpl. split; [lia|].
  unfold ret. simpl. rewrite ?Nat.sub_0_r, ?app_nil_r. reflexivity.
Qed.

Lemma emits_sendData (d : bytes) : emits (sendData d) [SentData d].
Proof.
  intros [r w l b]. unfold sendData, cost. simpl. destruct w as [|w].
  - right. split; [lia|]. exists [], [SentData d].
    repeat split; [discriminate|]. unfold break. simpl.
    rewrite ?app_nil_r. reflexivity.
  - left. split; [lia|]. replace (S w - 1)%nat with w by lia. reflexivity.
Qed.

Lemma emits_sendUint32 (v : Z) : emits (sendUint32 v) [SentUint32 (u32 v)].
Proof.
  intros [r w l b]. unfold sendUint32, cost. simpl. destruct w as [|w].
  - right. split; [lia|]. exists [], [SentUint32 (u32 v)].
    repeat split; [discriminate|]. unfold break. simpl.
    rewrite ?app_nil_r. reflexivity.
  - left. split; [lia|]. replace (S w - 1)%nat with w by lia. reflexivity.
Qed.

Lemma emits_Flush : emits Flush [Flushed].
Proof.
  intros [r w l b]. left. unfold cost. simpl. split; [lia|].
  unfold Flush, emit. simpl. rewrite ?Nat.sub_0_r. reflexivity.
Qed.

Lemma emits_seq (m1 m2 : M unit) (f1 f2 : list Event) :
  emits m1 f1 -> emits m2 f2 -> emits (m1 ;; m2) (f1 ++ f2).
Proof.
  intros H1 H2 c. rewrite cost_app.
  destruct (H1 c) as [[Hb E1] | [Hb (p & s & Hs & Hf & E1)]].
  - destruct (H2 (mkConn (rd c) (wbudget c - cost f1) (log c ++ f1) (broken c)))
      as [[Hb2 E2] | [Hb2 (p & s & Hs & Hf & E2)]]; simpl in *.
    + left. split; [lia|]. rewrite (bind_Ok _ _ _ _ _ E1), E2.
      rewrite <- app_assoc, Nat.sub_add_distr. reflexivity.
    + right. split; [lia|]. exists (f1 ++ p), s.
      repeat split; [assumption | rewrite Hf, app_assoc; reflexivity |].
      rewrite (bind_Ok _ _ _ _ _ E1), E2, <- app_assoc. reflexivity.
  - right. split; [lia|]. exists p, (s ++ f2).
    repeat split.
    + intros H. apply app_eq_nil in H. tauto.
    + rewrite Hf, app_assoc. reflexivity.
    + rewrite (bind_Err _ _ _ _ _ E1). reflexivity.
Qed.


(** ** The three sending phases *)

Lemma emits_sendRows (data : list bytes) :
  emits (sendRows data) (map SentData data).
Proof.
  induction data as [|d data IH]; simpl.
  - apply emits_ret.
  - apply (emits_seq _ _ [SentData d]); [apply emits_sendData | exact IH].
Qed.

Lemma emits_sendInputs (n1 : list bytes) :
  emits (sendInputs n1) (map SentData n1).
Proof.
  induction n1 as [|d n1 IH]; simpl.
  - apply emits_ret.
  - apply (emits_seq _ _ [SentData d]); [apply emits_sendData | exact IH].
Qed.

Lemma emits_sendTables_from (gates : list (list bytes)) (id : nat) :
  emits (sendTables (Z.of_nat id) gates) (tableFrom id gates).
Proof.
  revert id. induction gates as [|data gates IH]; intros id.
  - apply emits_ret.
  - unfold tableFrom. simpl. fold (tableFrom (S id) gates).
    apply (emits_seq _ _ [SentUint32 (u32 (Z.of_nat id))]);
      [apply emits_sendUint32|].
    apply (emits_seq _ _ [SentUint32 (u32 (Z.of_nat (length data)))]);
      [apply emits_sendUint32|].
    apply emits_seq; [apply emits_sendRows|].
    replace (Z.of_nat id + 1) with (Z.of_nat (S id)) by lia. apply IH.
Qed.

Lemma emits_sendTables (gates : list (list bytes)) :
  emits (sendTables 0 gates) (tableStream gates).
Proof. exact (emits_sendTables_from gates 0). Qed.

Lemma emits_sendPublicKey {OT : OTSender} (sender : Sender) :
  emits (sendPublicKey sender) (keyStream (SenderPublicKey sender)).
Proof.
  unfold sendPublicKey, keyStream.
  apply (emits_seq _ _ [SentData _]); [apply emits_sendData|].
  apply (emits_seq _ _ [SentUint32 _]); [apply emits_sendUint32|].
  apply emits_Flush.
Qed.

(** ** Selecting the Garbler's inputs *)

Lemma IO_Size_nonneg (io : IO) : 0 <= IO_Size io.
Proof. induction io; simpl; lia. Qed.

Lemma IO_Size_app (a b : IO) : IO_Size (a ++ b) = IO_Size a + IO_Size b.
Proof. induction a; simpl; lia. Qed.

Lemma index_wireAt (wires : list Wire) (w : Z) :
  0 <= w < Z.of_nat (length wires) -> index wires w = Ok (wireAt wires w).
Proof.
  intros H. unfold index, wireAt.
  destruct (w <? 0) eqn:E; [lia|].
  destruct (nth_error wires (Z.to_nat w)) as [x|] eqn:N.
  - rewrite (nth_error_nth _ _ _ N). reflexivity.
  - apply nth_error_None in N. lia.
Qed.

Lemma index_Ok_inv {A} (xs : list A) (i : Z) (x : A) :
  index xs i = Ok x -> 0 <= i /\ nth_error xs (Z.to_nat i) = Some x.
Proof.
  unfold index. destruct (i <? 0) eqn:E; [discriminate|].
  destruct (nth_error xs (Z.to_nat i)); [|discriminate].
  intros H. inversion H. split; [lia | reflexivity].
Qed.

Lemma index_not_Err {A} (xs : list A) (i : Z) :
  index xs i <> OutOfFuel /\ forall e, index xs i <> Err e.
Proof.
  unfold index. destruct (i <? 0); [split; intros; discriminate|].
  destruct (nth_error xs (Z.to_nat i)); split; intros; discriminate.
Qed.

Lemma selectBits_run (wires : list Wire) (input : option Z) (left : nat) :
  forall i w n1,
    0 <= w -> w + Z.of_nat left <= Z.of_nat (length wires) ->
    selectBits wires input left i w n1 =
      Ok (w + Z.of_nat left,
          n1 ++ map (fun j => chosenLabel (wireAt wires (w + Z.of_nat j))
                                input (i + j))
                  (seq 0 left)).
Proof.
  induction left as [|left IH]; intros i w n1 Hw Hlen.
  - simpl. rewrite Z.add_0_r, app_nil_r. reflexivity.
  - cbn [selectBits]. rewrite index_wireAt by lia.
    rewrite IH by lia. f_equal. f_equal; [lia|].
    rewrite <- app_assoc. f_equal. cbn [seq map app].
    rewrite <- seq_shift, map_map. f_equal.
    + unfold chosenLabel. rewrite Z.add_0_r, Nat.add_0_r. reflexivity.
    + apply map_ext. intros j.
      replace (w + 1 + Z.of_nat j) with (w + Z.of_nat (S j)) by lia.
      replace (S i + j)%nat with (i + S j)%nat by lia. reflexivity.
Qed.

Lemma selectBits_not_Err (wires : list Wire) (input : option Z) (left : nat) :
  forall i w n1,
    selectBits wires input left i w n1 <> OutOfFuel /\
    forall e, selectBits wires input left i w n1 <> Err e.
Proof.
  induction left as [|left IH]; intros i w n1; simpl.
  - split; intros; discriminate.
  - destruct (index_not_Err wires w) as [H1 H2].
    destruct (index wires w); try congruence.
    + apply IH.
    + split; intros; discriminate.
Qed.

Lemma selectInputs_not_Err (wires : list Wire) (inputs : list (option Z))
    (groups : IO) :
  forall idx w n1,
    selectInputs wires groups idx inputs w n1 <> OutOfFuel /\
    forall e, selectInputs wires groups idx inputs w n1 <> Err e.
Proof.
  induction groups as [|io groups IH]; intros idx w n1; simpl.
  - split; intros; discriminate.
  - destruct (selectBits_not_Err wires (inputAt inputs idx) (Size io) 0 w n1)
      as [H1 H2].
    destruct (selectBits wires (inputAt inputs idx) (Size io) 0 w n1)
      as [[w' n1']| | |]; try congruence.
    + apply IH.
    + split; intros; discriminate.
Qed.

Lemma selectInputs_run_from (wires : list Wire) (inputs : list (option Z))
    (rest : IO) :
  forall done n1,
    IO_Size (done ++ rest) <= Z.of_nat (length wires) ->
    selectInputs wires rest (length done) inputs (IO_Size done) n1 =
      Ok (n1 ++ concat (map (groupLabels wires (done ++ rest) inputs)
                          (seq (length done) (length rest)))).
Proof.
  induction rest as [|io rest IH]; intros done n1 Hlen.
  - simpl. rewrite app_nil_r. reflexivity.
  - cbn [selectInputs]. rewrite IO_Size_app in Hlen. simpl in Hlen.
    pose proof (IO_Size_nonneg done). pose proof (IO_Size_nonneg rest).
    rewrite selectBits_run by lia.
    cbn [Nat.add].
    assert (E1 : IO_Size (done ++ [io]) = IO_Size done + Z.of_nat (Size io))
      by (rewrite IO_Size_app; simpl; lia).
    assert (E2 : (done ++ [io]) ++ rest = done ++ io :: rest)
      by (rewrite <- app_assoc; reflexivity).
    assert (E3 : length (done ++ [io]) = S (length done))
      by (rewrite length_app; simpl; lia).
    specialize (IH (done ++ [io])
                  (n1 ++ map (fun j => chosenLabel
                                (wireAt wires (IO_Size done + Z.of_nat j))
                                (inputAt inputs (length done)) j)
                          (seq 0 (Size io)))).
    rewrite E3, E1, E2 in IH.
    rewrite IH by (rewrite IO_Size_app; simpl; lia).
    f_equal. rewrite <- app_assoc. f_equal. cbn [length seq map concat].
    f_equal. unfold groupLabels.
    rewrite app_nth2, Nat.sub_diag by lia. cbn [nth].
    unfold groupStart. rewrite firstn_app, firstn_all, Nat.sub_diag.
    cbn [firstn]. rewrite app_nil_r. reflexivity.
Qed.

Lemma selectBits_Ok_bound (wires : list Wire) (input : option Z)
    (left : nat) :
  forall i w n1 w' n1',
    selectBits wires input left i w n1 = Ok (w', n1') ->
    0 <= w <= Z.of_nat (length wires) ->
    w' = w + Z.of_nat left /\ w' <= Z.of_nat (length wires).
Proof.
  induction left as [|left IH]; intros i w n1 w' n1' H Hw.
  - cbn in H. inversion H; subst. lia.
  - cbn [selectBits] in H.
    destruct (index wires w) as [wire| | |] eqn:Hi; try discriminate.
    apply index_Ok_inv in Hi. destruct Hi as [_ Hi].
    assert (Z.to_nat w < length wires)%nat
      by (apply nth_error_Some; congruence).
    apply IH in H; lia.
Qed.

Lemma selectInputs_Ok_bound (wires : list Wire) (inputs : list (option Z))
    (groups : IO) :
  forall idx w n1 n1',
    selectInputs wires groups idx inputs w n1 = Ok n1' ->
    0 <= w <= Z.of_nat (length wires) ->
    w + IO_Size groups <= Z.of_nat (length wires).
Proof.
  induction groups as [|io groups IH]; intros idx w n1 n1' H Hw.
  - cbn. lia.
  - cbn [selectInputs] in H.
    destruct (selectBits wires (inputAt inputs idx) (Size io) 0 w n1)
      as [[w' n1'']| | |] eqn:E; try discriminate.
    apply selectBits_Ok_bound in E; [|assumption]. destruct E as [-> Hb].
    apply IH in H; [|lia]. cbn [IO_Size]. lia.
Qed.

Lemma selectInputs_run (wires : list Wire) (inputs : list (option Z))
    (groups : IO) :
  IO_Size groups <= Z.of_nat (length wires) ->
  selectInputs wires groups 0 inputs 0 [] =
    Ok (inputLabels wires groups inputs).
Proof.
  intros H. exact (selectInputs_run_from wires inputs groups [] [] H).
Qed.

(** ** Receiving *)

Lemma receiveUint32_enc (v : Z) (rest : bytes) (c : Conn) :
  rd c = enc_u32 v ++ rest ->
  receiveUint32 c =
    (Ok (u32 v),
     mkConn rest (wbudget c) (log c ++ [RecvUint32 (u32 v)]) (broken c)).
Proof.
  intros H. unfold receiveUint32. rewrite H. unfold enc_u32.
  cbn [app]. cbv zeta. rewrite dec_enc_u32. reflexivity.
Qed.

Lemma receiveData_frame (d rest : bytes) (c : Conn) :
  rd c = frame d ++ rest ->
  Z.of_nat (length d) < 2 ^ 32 ->
  receiveData c =
    (Ok d, mkConn rest (wbudget c) (log c ++ [RecvData d]) (broken c)).
Proof.
  intros H Hlen. unfold receiveData. rewrite H. unfold frame, enc_u32.
  cbn [app]. cbv zeta. rewrite dec_enc_u32, u32_small by lia.
  rewrite Nat2Z.id.
  assert (E : (length d <=? length (d ++ rest))%nat = true)
    by (apply Nat.leb_le; rewrite length_app; lia).
  rewrite E, firstn_app, firstn_all, Nat.sub_diag, skipn_app, skipn_all,
    Nat.sub_diag.
  cbn [firstn skipn app]. rewrite app_nil_r. reflexivity.
Qed.

(** Whatever a receive does, it never gives the peer bytes back. *)
Lemma receiveUint32_inv (c : Conn) (r : Res Z) (c' : Conn) :
  receiveUint32 c = (r, c') ->
  (exists v, r = Ok v /\ log c' = log c ++ [RecvUint32 v] /\
             (length (rd c') + 4 <= length (rd c))%nat /\
             wbudget c' = wbudget c /\ broken c' = broken c /\
             0 <= v < 2 ^ 32)
  \/ (r = Err ErrRead /\ c' = break c).
Proof.
  unfold receiveUint32.
  destruct (rd c) as [|b0 [|b1 [|b2 [|b3 rest]]]] eqn:E;
    intros H; inversion H; subst; clear H; try (right; split; reflexivity).
  left. eexists. split; [reflexivity|]. cbn [log rd wbudget broken].
  repeat split; try reflexivity; try (simpl; lia).
  - unfold dec_u32. pose proof (Z_of_byte_range b0).
    pose proof (Z_of_byte_range b1). pose proof (Z_of_byte_range b2).
    pose proof (Z_of_byte_range b3). lia.
  - unfold dec_u32. pose proof (Z_of_byte_range b0).
    pose proof (Z_of_byte_range b1). pose proof (Z_of_byte_range b2).
    pose proof (Z_of_byte_range b3). lia.
Qed.

Lemma receiveData_inv (c : Conn) (r : Res bytes) (c' : Conn) :
  receiveData c = (r, c') ->
  (exists d, r = Ok d /\ log c' = log c ++ [RecvData d] /\
             (length (rd c') + 4 <= length (rd c))%nat /\
             wbudget c' = wbudget c /\ broken c' = broken c)
  \/ (r = Err ErrRead /\ c' = break c).
Proof.
  unfold receiveData.
  destruct (rd c) as [|b0 [|b1 [|b2 [|b3 rest]]]] eqn:E;
    try (intros H; inversion H; subst; clear H; right; split; reflexivity).
  cbv zeta.
  destruct (Z.to_nat (dec_u32 b0 b1 b2 b3) <=? length rest)%nat eqn:L;
    intros H; inversion H; subst; clear H; [|right; split; reflexivity].
  left. eexists. split; [reflexivity|]. cbn [log rd wbudget broken].
  repeat split; try reflexivity.
  rewrite length_skipn. simpl. lia.
Qed.

Lemma send_inv (m : M unit) (ev : Event) (c : Conn) (r : Res unit)
    (c' : Conn) :
  emits m [ev] -> isSend ev = true -> m c = (r, c') ->
  (r = Ok tt /\ log c' = log c ++ [ev] /\ rd c' = rd c /\
   S (wbudget c') = wbudget c /\ broken c' = broken c)
  \/ (r = Err ErrWrite /\ log c' = log c /\ rd c' = rd c /\
      broken c' = true).
Proof.
  intros Hm Hs H.
  destruct (Hm c) as [[Hb E] | [Hb (p & s & Hs' & Hf & E)]];
    rewrite E in H; inversion H; subst; clear H;
    unfold cost in Hb; cbn [filter length] in Hb; rewrite Hs in Hb;
    cbn [length] in Hb.
  - left. unfold cost. cbn [filter]. rewrite Hs. cbn.
    repeat split; try reflexivity. lia.
  - right. cbn. destruct p as [|x p].
    + rewrite app_nil_r. repeat split; reflexivity.
    + destruct p; destruct s; try discriminate. congruence.
Qed.

(** ** Decoding the result *)

Lemma liftR_inv {A} (r : Res A) (c : Conn) (r' : Res A) (c' : Conn) :
  liftR r c = (r', c') -> r' = r /\ c' = c.
Proof. unfold liftR. intros H. inversion H. split; reflexivity. Qed.

Lemma liftE_inv {A} (r : Error + A) (c : Conn) (r' : Res A) (c' : Conn) :
  liftE r c = (r', c') ->
  c' = c /\ match r with inl e => r' = Err e | inr a => r' = Ok a end.
Proof.
  unfold liftE. destruct r; intros H; inversion H; split; reflexivity.
Qed.

Lemma decodeLabel_inv (label : bytes) (wire : Wire) (i : Z) :
  (exists b, decodeLabel label wire i = Ok b /\ decodes wire label b)
  \/ (decodeLabel label wire i = Err (ErrUnknownLabel label i)
      /\ label <> Bytes (Label0 wire) /\ label <> Bytes (Label1 wire)).
Proof.
  unfold decodeLabel, decodes.
  destruct (bytes_eqb label (Bytes (Label0 wire))) eqn:E0.
  - apply bytes_eqb_eq in E0. left. exists false. tauto.
  - apply bytes_eqb_neq in E0.
    destruct (bytes_eqb label (Bytes (Label1 wire))) eqn:E1.
    + apply bytes_eqb_eq in E1. left. exists true. tauto.
    + apply bytes_eqb_neq in E1. right. tauto.
Qed.

Lemma SetBit_eq (x i : Z) (b : bool) :
  0 <= i -> Z.testbit (SetBit x i b) i = b.
Proof.
  intros H. unfold SetBit. destruct b.
  - apply Z.setbit_eq. assumption.
  - apply Z.clearbit_eq.
Qed.

Lemma SetBit_neq (x i k : Z) (b : bool) :
  0 <= i -> i <> k -> Z.testbit (SetBit x i b) k = Z.testbit x k.
Proof.
  intros H N. unfold SetBit. destruct b.
  - apply Z.setbit_neq; assumption.
  - apply Z.clearbit_neq. assumption.
Qed.

Lemma decodeResult_Ok_inv (g : Garbled) (circ : Circuit) (left : nat) :
  forall i result c r c',
    0 <= i ->
    decodeResult g circ left i result c = (Ok r, c') ->
    exists labels,
      length labels = left /\
      log c' = log c ++ map RecvData labels /\
      wbudget c' = wbudget c /\ broken c' = broken c /\
      (forall j, (j < left)%nat ->
         exists wire,
           index (Wires g) (outputBase circ + (i + Z.of_nat j)) = Ok wire /\
           decodes wire (nth j labels [])
             (Z.testbit r (i + Z.of_nat j))) /\
      (forall k, k < i \/ i + Z.of_nat left <= k ->
         Z.testbit r k = Z.testbit result k).
Proof.
  induction left as [|left IH]; intros i result c r c' Hi H.
  - cbn in H. inversion H; subst. exists []. cbn.
    rewrite app_nil_r. repeat split; try reflexivity. intros; lia.
  - cbn [decodeResult] in H.
    apply bind_Ok_inv in H. destruct H as (label & c1 & Hrecv & H).
    apply bind_Ok_inv in H. destruct H as (wire & c2 & Hidx & H).
    apply liftR_inv in Hidx. destruct Hidx as [Hidx ->].
    apply bind_Ok_inv in H. destruct H as (bit & c3 & Hdec & H).
    apply liftR_inv in Hdec. destruct Hdec as [Hdec ->].
    apply receiveData_inv in Hrecv.
    destruct Hrecv as [(d & Hd & Hlog & _ & Hw & Hb) | [Hd _]];
      [|discriminate].
    inversion Hd; subst d; clear Hd.
    apply IH in H; [|lia].
    destruct H as (labels & Hlen & Hlog' & Hw' & Hb' & Hbits & Hout).
    exists (label :: labels). cbn [length map].
    repeat split; try congruence.
    + rewrite Hlog', Hlog, <- app_assoc. reflexivity.
    + intros j Hj. destruct j as [|j].
      * exists wire. rewrite Z.add_0_r. split; [unfold outputBase; congruence|]. cbn [nth].
        rewrite Hout by lia. rewrite SetBit_eq by lia.
        destruct (decodeLabel_inv label wire i) as [(b & E & D) | [E _]];
          [|congruence].
        rewrite E in Hdec. inversion Hdec; subst. exact D.
      * destruct (Hbits j) as (w & Hw1 & Hw2); [lia|].
        exists w. cbn [nth].
        replace (i + Z.of_nat (S j)) with (i + 1 + Z.of_nat j) by lia.
        split; assumption.
    + intros k Hk. rewrite Hout by lia. apply SetBit_neq; lia.
Qed.

Lemma framable_cons (d : bytes) (ds : list bytes) :
  framable (d :: ds) <-> Z.of_nat (length d) < 2 ^ 32 /\ framable ds.
Proof. unfold framable. apply Forall_cons_iff. Qed.

Lemma decodeLabel_valid (label : bytes) (wire : Wire) (i : Z) :
  bytes_eqb label (Bytes (Label0 wire))
  || bytes_eqb label (Bytes (Label1 wire)) = true ->
  exists b, decodeLabel label wire i = Ok b.
Proof.
  unfold decodeLabel. intros H.
  destruct (bytes_eqb label (Bytes (Label0 wire))); [eauto|].
  destruct (bytes_eqb label (Bytes (Label1 wire))); [eauto|discriminate].
Qed.

Lemma decodeResult_valid (g : Garbled) (circ : Circuit)
    (labels : list bytes) :
  forall i result c rest,
    rd c = concat (map frame labels) ++ rest ->
    framable labels ->
    validLabels (Wires g) (outputBase circ + i) labels = true ->
    exists r,
      decodeResult g circ (length labels) i result c =
        (Ok r, mkConn rest (wbudget c) (log c ++ map RecvData labels)
                 (broken c)).
Proof.
  induction labels as [|l labels IH]; intros i result c rest Hrd Hf Hv.
  - exists result. cbn in *. unfold ret. rewrite app_nil_r.
    destruct c; cbn in *; subst; reflexivity.
  - cbn [map concat] in Hrd. rewrite <- app_assoc in Hrd.
    apply framable_cons in Hf. destruct Hf as [Hl Hf].
    cbn [validLabels] in Hv.
    destruct (index (Wires g) (outputBase circ + i)) as [wire| | |] eqn:Hidx;
      try discriminate.
    apply andb_true_iff in Hv. destruct Hv as [Hv1 Hv2].
    destruct (decodeLabel_valid l wire i Hv1) as [b Hb].
    cbn [decodeResult length].
    rewrite (bind_Ok _ _ _ _ _ (receiveData_frame _ _ _ Hrd Hl)).
    fold (outputBase circ). unfold liftR at 1.
    unfold bind at 1. rewrite Hidx.
    unfold liftR at 1. unfold bind at 1. rewrite Hb.
    edestruct (IH (i + 1) (SetBit result i b)
                 (mkConn (concat (map frame labels) ++ rest) (wbudget c)
                    (log c ++ [RecvData l]) (broken c)) rest)
      as [r Hr]; [reflexivity | assumption | | ].
    + rewrite Z.add_assoc. assumption.
    + exists r. rewrite Hr. cbn [rd wbudget log broken map].
      rewrite <- app_assoc. reflexivity.
Qed.


Lemma decodeResult_unknown (g : Garbled) (circ : Circuit)
    (good : list bytes) :
  forall i result c bad rest left wire,
    rd c = concat (map frame good) ++ frame bad ++ rest ->
    framable (good ++ [bad]) ->
    validLabels (Wires g) (outputBase circ + i) good = true ->
    index (Wires g) (outputBase circ + i + Z.of_nat (length good)) = Ok wire ->
    bad <> Bytes (Label0 wire) -> bad <> Bytes (Label1 wire) ->
    (length good < left)%nat ->
    decodeResult g circ left i result c =
      (Err (ErrUnknownLabel bad (i + Z.of_nat (length good))),
       mkConn rest (wbudget c) (log c ++ map RecvData (good ++ [bad]))
         (broken c)).
Proof.
  induction good as [|l good IH];
    intros i result c bad rest left wire Hrd Hf Hv Hidx H0 H1 Hlen.
  - destruct left as [|left]; [cbn in Hlen; lia|].
    cbn [map concat app] in Hrd. cbn [app] in Hf.
    apply framable_cons in Hf. destruct Hf as [Hl _].
    cbn [length] in *. rewrite Z.add_0_r in *.
    cbn [decodeResult].
    rewrite (bind_Ok _ _ _ _ _ (receiveData_frame _ _ _ Hrd Hl)).
    fold (outputBase circ). unfold liftR at 1. unfold bind at 1.
    rewrite Hidx. unfold liftR at 1. unfold bind at 1.
    destruct (decodeLabel_inv bad wire i) as [(b & E & D) | [E _]].
    + unfold decodes in D. tauto.
    + rewrite E. reflexivity.
  - destruct left as [|left]; [cbn in Hlen; lia|].
    cbn [map concat] in Hrd. rewrite <- app_assoc in Hrd.
    cbn [app] in Hf. apply framable_cons in Hf. destruct Hf as [Hl Hf].
    cbn [validLabels] in Hv.
    destruct (index (Wires g) (outputBase circ + i)) as [w0| | |] eqn:Hi0;
      try discriminate.
    apply andb_true_iff in Hv. destruct Hv as [Hv1 Hv2].
    destruct (decodeLabel_valid l w0 i Hv1) as [b Hb].
    cbn [decodeResult].
    rewrite (bind_Ok _ _ _ _ _ (receiveData_frame _ _ _ Hrd Hl)).
    fold (outputBase circ). unfold liftR at 1. unfold bind at 1.
    rewrite Hi0. unfold liftR at 1. unfold bind at 1. rewrite Hb.
    cbn [length] in *.
    rewrite (IH (i + 1) _ _ bad rest left wire); cbn [rd wbudget log broken].
    + cbn [app map]. rewrite <- app_assoc.
      replace (i + 1 + Z.of_nat (length good))
        with (i + Z.of_nat (S (length good))) by lia.
      reflexivity.
    + reflexivity.
    + assumption.
    + rewrite Z.add_assoc. assumption.
    + rewrite <- Hidx. f_equal. lia.
    + assumption.
    + assumption.
    + lia.
Qed.

(** ** One OT round *)

Lemma sendData_inv (d : bytes) (c : Conn) (r : Res unit) (c' : Conn) :
  sendData d c = (r, c') ->
  (r = Ok tt /\ log c' = log c ++ [SentData d] /\ rd c' = rd c /\
   S (wbudget c') = wbudget c /\ broken c' = broken c)
  \/ (r = Err ErrWrite /\ log c' = log c /\ rd c' = rd c /\
      broken c' = true).
Proof. apply send_inv; [apply emits_sendData | reflexivity]. Qed.

Lemma sendUint32_inv (v : Z) (c : Conn) (r : Res unit) (c' : Conn) :
  sendUint32 v c = (r, c') ->
  (r = Ok tt /\ log c' = log c ++ [SentUint32 (u32 v)] /\ rd c' = rd c /\
   S (wbudget c') = wbudget c /\ broken c' = broken c)
  \/ (r = Err ErrWrite /\ log c' = log c /\ rd c' = rd c /\
      broken c' = true).
Proof. apply send_inv; [apply emits_sendUint32 | reflexivity]. Qed.

Ltac round_breaks p bit x0 x1 v m0p m1p :=
  right; split; [eexists; reflexivity|];
  exists p, bit, x0, x1, v, m0p, m1p;
  split; [unfold break, emit; cbn [log];
          repeat match goal with
                 | H : log _ = _ |- _ => rewrite H; clear H
                 end;
          rewrite <- ?app_assoc, ?app_nil_r; reflexivity
         | eexists; cbn; reflexivity].

Lemma otRound_cases {OT : OTSender} (s : Sender) (c : Conn) :
  forall r c', otRound s c = (r, c') ->
  (exists bit xfer s' x0 x1 xfer' v m0p m1p,
      r = Ok s' /\
      NewTransfer s bit = inr (xfer, s') /\
      RandomMessages xfer = (x0, x1, xfer') /\
      Messages (ReceiveV xfer' v) = inr (m0p, m1p) /\
      log c' = log c ++ tl (roundEvents bit x0 x1 v m0p m1p) /\
      broken c' = broken c /\
      (length (rd c') + 8 <= length (rd c))%nat)
  \/ ((exists e, r = Err e) /\
      exists p bit x0 x1 v m0p m1p,
        log c' = log c ++ p /\
        prefix (RecvUint32 OP_OT :: p) (roundEvents bit x0 x1 v m0p m1p)).
Proof.
  intros r c'. unfold otRound. unfold bind at 1.
  destruct (receiveUint32 c) as [r1 c1] eqn:E1.
  apply receiveUint32_inv in E1.
  destruct E1 as [(bit & -> & Hl1 & Hrd1 & Hw1 & Hb1 & _) | [-> ->]];
    [|intros H; inversion H; subst; round_breaks (@nil Event) 0 (@nil byte)
        (@nil byte) (@nil byte) (@nil byte) (@nil byte)].
  unfold bind at 1, liftE at 1.
  destruct (NewTransfer s bit) as [e | [xfer s']] eqn:ENT;
    [intros H; inversion H; subst; round_breaks [RecvUint32 bit] bit
       (@nil byte) (@nil byte) (@nil byte) (@nil byte) (@nil byte)|].
  destruct (RandomMessages xfer) as [[x0 x1] xfer'] eqn:ERM.
  unfold bind at 1. destruct (sendData x0 c1) as [r2 c2] eqn:E2.
  apply sendData_inv in E2.
  destruct E2 as [(-> & Hl2 & Hrd2 & Hw2 & Hb2) | (-> & Hl2 & _)];
    [|intros H; inversion H; subst; round_breaks [RecvUint32 bit] bit
        (@nil byte) (@nil byte) (@nil byte) (@nil byte) (@nil byte)].
  unfold bind at 1. destruct (sendData x1 c2) as [r3 c3] eqn:E3.
  apply sendData_inv in E3.
  destruct E3 as [(-> & Hl3 & Hrd3 & Hw3 & Hb3) | (-> & Hl3 & _)];
    [|intros H; inversion H; subst;
      round_breaks [RecvUint32 bit; SentData x0] bit
        x0 (@nil byte) (@nil byte) (@nil byte) (@nil byte)].
  unfold bind at 1. unfold Flush at 1.
  unfold bind at 1. destruct (receiveData (emit Flushed c3)) as [r4 c4] eqn:E4.
  apply receiveData_inv in E4. cbn [log rd wbudget broken emit] in E4.
  destruct E4 as [(v & -> & Hl4 & Hrd4 & Hw4 & Hb4) | [-> ->]];
    [|intros H; inversion H; subst;
      round_breaks [RecvUint32 bit; SentData x0; SentData x1; Flushed] bit
        x0 x1 (@nil byte) (@nil byte) (@nil byte)].
  unfold bind at 1, liftE at 1.
  destruct (Messages (ReceiveV xfer' v)) as [e | [m0p m1p]] eqn:EM;
    [intros H; inversion H; subst;
     round_breaks [RecvUint32 bit; SentData x0; SentData x1; Flushed;
                   RecvData v] bit x0 x1 v (@nil byte) (@nil byte)|].
  unfold bind at 1. destruct (sendData m0p c4) as [r5 c5] eqn:E5.
  apply sendData_inv in E5.
  destruct E5 as [(-> & Hl5 & Hrd5 & Hw5 & Hb5) | (-> & Hl5 & _)];
    [|intros H; inversion H; subst;
      round_breaks [RecvUint32 bit; SentData x0; SentData x1; Flushed;
                    RecvData v] bit x0 x1 v (@nil byte) (@nil byte)].
  unfold bind at 1. destruct (sendData m1p c5) as [r6 c6] eqn:E6.
  apply sendData_inv in E6.
  destruct E6 as [(-> & Hl6 & Hrd6 & Hw6 & Hb6) | (-> & Hl6 & _)];
    [|intros H; inversion H; subst;
      round_breaks [RecvUint32 bit; SentData x0; SentData x1; Flushed;
                    RecvData v; SentData m0p] bit x0 x1 v m0p (@nil byte)].
  unfold bind at 1, Flush at 1, ret.
  intros H; inversion H; subst. left.
  exists bit, xfer, s', x0, x1, xfer', v, m0p, m1p.
  repeat split; try assumption; try reflexivity.
  - unfold emit. cbn [log tl roundEvents]. rewrite Hl6, Hl5, Hl4, Hl3, Hl2, Hl1.
    rewrite <- !app_assoc. reflexivity.
  - cbn [broken emit]. congruence.
  - cbn [rd emit]. rewrite Hrd6, Hrd5. cbn [rd emit] in Hrd4.
    rewrite Hrd3, Hrd2 in Hrd4. lia.
Qed.

(** ** The result exchange *)

Lemma prefix_nil {A} (l : list A) : prefix [] l.
Proof. exists l. reflexivity. Qed.

Lemma prefix_refl {A} (l : list A) : prefix l l.
Proof. exists []. rewrite app_nil_r. reflexivity. Qed.

Lemma prefix_app_l {A} (a p l : list A) :
  prefix p l -> prefix (a ++ p) (a ++ l).
Proof. intros [s ->]. exists s. rewrite app_assoc. reflexivity. Qed.

Lemma prefix_app_r {A} (p l t : list A) : prefix p l -> prefix p (l ++ t).
Proof. intros [s ->]. exists (s ++ t). rewrite app_assoc. reflexivity. Qed.

Lemma decodeResult_log (g : Garbled) (circ : Circuit) (left : nat) :
  forall i result c r c',
    decodeResult g circ left i result c = (r, c') ->
    exists labels, log c' = log c ++ map RecvData labels.
Proof.
  induction left as [|left IH]; intros i result c r c' H.
  - cbn in H. inversion H; subst. exists []. cbn. rewrite app_nil_r.
    reflexivity.
  - cbn [decodeResult] in H. unfold bind at 1 in H.
    destruct (receiveData c) as [r1 c1] eqn:E1.
    apply receiveData_inv in E1.
    destruct E1 as [(label & -> & Hl1 & _) | [-> ->]].
    + unfold bind at 1, liftR at 1 in H.
      destruct (index (Wires g) (NumWires circ - IO_Size (N3 circ) + i));
        try (inversion H; subst; exists [label]; exact Hl1).
      unfold bind at 1, liftR at 1 in H.
      destruct (decodeLabel label a i);
        try (inversion H; subst; exists [label]; exact Hl1).
      apply IH in H. destruct H as (labels & Hl). exists (label :: labels).
      rewrite Hl, Hl1, <- app_assoc. reflexivity.
    + inversion H; subst. exists []. cbn. rewrite app_nil_r. reflexivity.
Qed.

Lemma opResult_cases (g : Garbled) (circ : Circuit) (c : Conn) :
  forall r c', opResult g circ 0 c = (r, c') ->
  (exists z labels,
      r = Ok z /\
      length labels = Z.to_nat (IO_Size (N3 circ)) /\
      log c' = log c ++ map RecvData labels
                 ++ [SentData (bigBytes z); Flushed] /\
      broken c' = broken c /\
      (forall j, (j < length labels)%nat ->
         exists wire,
           index (Wires g) (outputBase circ + Z.of_nat j) = Ok wire /\
           decodes wire (nth j labels []) (Z.testbit z (Z.of_nat j))) /\
      (forall k, k < 0 \/ IO_Size (N3 circ) <= k -> Z.testbit z k = false))
  \/ ((forall z, r <> Ok z) /\
      exists labels, log c' = log c ++ map RecvData labels).
Proof.
  intros r c'. unfold opResult. unfold bind at 1.
  destruct (decodeResult g circ (Z.to_nat (IO_Size (N3 circ))) 0 0 c)
    as [r1 c1] eqn:E1.
  pose proof (decodeResult_log _ _ _ _ _ _ _ _ E1) as [labels0 Hlog0].
  destruct r1 as [z|e| |];
    try (intros H; inversion H; subst; right;
         split; [intros; discriminate | exists labels0; exact Hlog0]).
  apply decodeResult_Ok_inv in E1; [|lia].
  destruct E1 as (labels & Hlen & Hlog & Hw & Hb & Hbits & Hout).
  unfold bind at 1. destruct (sendData (bigBytes z) c1) as [r2 c2] eqn:E2.
  apply sendData_inv in E2.
  destruct E2 as [(-> & Hl2 & Hrd2 & Hw2 & Hb2) | (-> & Hl2 & _)].
  - unfold bind at 1, Flush at 1, ret. intros H; inversion H; subst.
    left. exists z, labels. repeat split; try reflexivity; try assumption.
    + unfold emit. cbn [log]. rewrite Hl2, Hlog, <- !app_assoc. reflexivity.
    + unfold emit. cbn [broken]. congruence.
    + intros j Hj. rewrite Hlen in Hj.
      destruct (Hbits j Hj) as (wire & H1 & H2).
      exists wire. split; assumption.
    + intros k Hk. rewrite Hout.
      * apply Z.bits_0.
      * pose proof (IO_Size_nonneg (N3 circ)). lia.
  - intros H; inversion H; subst. right.
    split; [intros; discriminate|]. exists labels. congruence.
Qed.

(** ** What every piece of the function respects *)

Lemma prefix_trans {A} (a b c : list A) :
  prefix a b -> prefix b c -> prefix a c.
Proof.
  intros [s ->] [t ->]. exists (s ++ t). rewrite app_assoc. reflexivity.
Qed.

Lemma prefix_snoc {A} (l e : list A) : prefix l (l ++ e).
Proof. exists e. reflexivity. Qed.

Lemma tame_ret {A} (a : A) : tame (ret a).
Proof.
  intros c r c' H. inversion H; subst.
  split; [discriminate | split; [lia | split; [apply prefix_refl|]]].
  reflexivity.
Qed.

Lemma tame_liftE {A} (x : Error + A) : tame (liftE x).
Proof.
  intros c r c' H. apply liftE_inv in H. destruct H as [-> H].
  split; [destruct x; subst; discriminate|].
  split; [lia | split; [apply prefix_refl | reflexivity]].
Qed.

Lemma tame_liftR {A} (x : Res A) : x <> OutOfFuel -> tame (liftR x).
Proof.
  intros Hx c r c' H. apply liftR_inv in H. destruct H as [-> ->].
  split; [assumption|].
  split; [lia | split; [apply prefix_refl | reflexivity]].
Qed.

Lemma tame_bind {A B} (m : M A) (k : A -> M B) :
  tame m -> (forall a, tame (k a)) -> tame (bind m k).
Proof.
  intros Hm Hk c r c'. unfold bind.
  destruct (m c) as [r1 c1] eqn:E1.
  destruct (Hm _ _ _ E1) as (F1 & L1 & P1 & B1).
  destruct r1 as [a|e| |].
  - intros H. destruct (Hk a _ _ _ H) as (F2 & L2 & P2 & B2).
    split; [assumption | split; [eapply Nat.le_trans; eassumption|]].
    split; [eapply prefix_trans; eassumption|].
    intros N. rewrite (B2 N). apply B1. intros; discriminate.
  - intros H; inversion H; subst.
    split; [discriminate | split; [assumption | split; [assumption|]]].
    intros N. exfalso. exact (N e eq_refl).
  - intros H; inversion H; subst.
    split; [discriminate | split; [assumption | split; [assumption|]]].
    intros _. apply B1. intros; discriminate.
  - congruence.
Qed.

Lemma tame_sendData (d : bytes) : tame (sendData d).
Proof.
  intros c r c' H. apply sendData_inv in H.
  destruct H as [(-> & Hl & Hrd & _ & Hb) | (-> & Hl & Hrd & _)];
    (split; [discriminate | split; [rewrite Hrd; apply Nat.le_refl|]]);
    rewrite Hl; (split; [apply prefix_snoc || apply prefix_refl|]).
  - intros _. assumption.
  - intros N. exfalso. exact (N _ eq_refl).
Qed.

Lemma tame_sendUint32 (v : Z) : tame (sendUint32 v).
Proof.
  intros c r c' H. apply sendUint32_inv in H.
  destruct H as [(-> & Hl & Hrd & _ & Hb) | (-> & Hl & Hrd & _)];
    (split; [discriminate | split; [rewrite Hrd; apply Nat.le_refl|]]);
    rewrite Hl; (split; [apply prefix_snoc || apply prefix_refl|]).
  - intros _. assumption.
  - intros N. exfalso. exact (N _ eq_refl).
Qed.

Lemma tame_receiveUint32 : tame receiveUint32.
Proof.
  intros c r c' H. apply receiveUint32_inv in H.
  destruct H as [(v & -> & Hl & Hrd & _ & Hb & _) | [-> ->]];
    (split; [discriminate | split; [cbn; lia|]]).
  - rewrite Hl. split; [apply prefix_snoc|]. intros _. assumption.
  - split; [apply prefix_refl|]. intros N. exfalso. exact (N _ eq_refl).
Qed.

Lemma tame_receiveData : tame receiveData.
Proof.
  intros c r c' H. apply receiveData_inv in H.
  destruct H as [(v & -> & Hl & Hrd & _ & Hb) | [-> ->]];
    (split; [discriminate | split; [cbn; lia|]]).
  - rewrite Hl. split; [apply prefix_snoc|]. intros _. assumption.
  - split; [apply prefix_refl|]. intros N. exfalso. exact (N _ eq_refl).
Qed.

Lemma tame_Flush : tame Flush.
Proof.
  intros c r c' H. inversion H; subst.
  split; [discriminate | split; [cbn; lia|]].
  split; [apply prefix_snoc | reflexivity].
Qed.

Create HintDb tame.

#[local] Hint Resolve tame_ret tame_liftE tame_liftR tame_sendData
  tame_sendUint32 tame_receiveUint32 tame_receiveData tame_Flush : tame.

Ltac tame_step :=
  repeat first
    [ apply tame_bind; [| intros ?]
    | match goal with |- tame (let '(_, _) := ?x in _) => destruct x end
    | solve [auto with tame] ].

Lemma tame_sendRows (data : list bytes) : tame (sendRows data).
Proof. induction data; cbn [sendRows]; tame_step. Qed.

Lemma tame_sendInputs (n1 : list bytes) : tame (sendInputs n1).
Proof. induction n1; cbn [sendInputs]; tame_step. Qed.

Lemma tame_sendTables (gates : list (list bytes)) :
  forall id, tame (sendTables id gates).
Proof.
  induction gates; intros id; cbn [sendTables]; tame_step;
    auto using tame_sendRows.
Qed.


Lemma tame_otRound {OT : OTSender} (s : Sender) : tame (otRound s).
Proof. unfold otRound. tame_step. Qed.

Lemma decodeLabel_fuel (label : bytes) (wire : Wire) (i : Z) :
  decodeLabel label wire i <> OutOfFuel.
Proof.
  unfold decodeLabel.
  destruct (bytes_eqb label (Bytes (Label0 wire))); [discriminate|].
  destruct (bytes_eqb label (Bytes (Label1 wire))); discriminate.
Qed.

Lemma tame_decodeResult (g : Garbled) (circ : Circuit) (left : nat) :
  forall i result, tame (decodeResult g circ left i result).
Proof.
  induction left; intros i result; cbn [decodeResult]; tame_step;
    auto; apply tame_liftR; (apply index_not_Err || apply decodeLabel_fuel).
Qed.

Lemma tame_opResult (g : Garbled) (circ : Circuit) (result : Z) :
  tame (opResult g circ result).
Proof. unfold opResult. tame_step; auto using tame_decodeResult. Qed.

(** ** The message loop *)

Lemma tame_messageLoop {OT : OTSender} (g : Garbled) (circ : Circuit)
    (fuel : nat) :
  forall s result c r c',
    (length (rd c) < fuel)%nat ->
    messageLoop fuel g circ s result c = (r, c') ->
    r <> OutOfFuel /\
    (length (rd c') <= length (rd c))%nat /\
    prefix (log c) (log c') /\
    ((forall e, r <> Err e) -> broken c' = broken c).
Proof.
  induction fuel as [|fuel IH]; intros s result c r c' Hf H; [lia|].
  cbn [messageLoop] in H. unfold bind at 1 in H.
  destruct (receiveUint32 c) as [r1 c1] eqn:E1.
  destruct (tame_receiveUint32 _ _ _ E1) as (F1 & L1 & P1 & B1).
  apply receiveUint32_inv in E1.
  destruct E1 as [(v & -> & _ & Hrd & _ & Hb & _) | [-> ->]].
  - destruct (v =? OP_OT).
    + unfold bind at 1 in H. destruct (otRound s c1) as [r2 c2] eqn:E2.
      destruct (tame_otRound _ _ _ _ E2) as (F2 & L2 & P2 & B2).
      destruct r2 as [s'|e| |].
      * apply IH in H; [|lia]. destruct H as (F3 & L3 & P3 & B3).
        split; [assumption | split; [lia|]].
        split; [eapply prefix_trans; [|eassumption];
                eapply prefix_trans; eassumption|].
        intros N. rewrite (B3 N), B2, Hb by (intros; discriminate).
        reflexivity.
      * inversion H; subst; clear H.
        split; [discriminate | split; [lia|]].
        split; [eapply prefix_trans; eassumption|].
        intros N. exfalso. exact (N _ eq_refl).
      * inversion H; subst; clear H.
        split; [discriminate | split; [lia|]].
        split; [eapply prefix_trans; eassumption|].
        intros _. rewrite B2, Hb by (intros; discriminate). reflexivity.
      * congruence.
    + destruct (v =? OP_RESULT).
      * destruct (tame_opResult _ _ _ _ _ _ H) as (F2 & L2 & P2 & B2).
        split; [assumption | split; [lia|]].
        split; [eapply prefix_trans; eassumption|].
        intros N. rewrite (B2 N), Hb. reflexivity.
      * apply IH in H; [|lia]. destruct H as (F3 & L3 & P3 & B3).
        split; [assumption | split; [lia|]].
        split; [eapply prefix_trans; eassumption|].
        intros N. rewrite (B3 N), Hb. reflexivity.
  - inversion H; subst. split; [discriminate | split; [cbn; lia|]].
    split; [apply prefix_refl|].
    intros N. exfalso. exact (N _ eq_refl).
Qed.

Lemma messageLoop_trace {OT : OTSender} (g : Garbled) (circ : Circuit)
    (fuel : nat) :
  forall s c r c',
    messageLoop fuel g circ s 0 c = (r, c') ->
    exists L,
      log c' = log c ++ L /\ loopTrace circ s L /\
      forall z, r = Ok z ->
        exists pre labels,
          L = pre ++ resultEvents labels (bigBytes z) /\
          decoded g circ labels z.
Proof.
  induction fuel as [|fuel IH]; intros s c r c' H.
  - inversion H; subst. exists []. rewrite app_nil_r.
    split; [reflexivity | split; [|intros; discriminate]].
    apply LT_broken. right. exists [], []. apply prefix_nil.
  - cbn [messageLoop] in H. unfold bind at 1 in H.
    destruct (receiveUint32 c) as [r1 c1] eqn:E1.
    apply receiveUint32_inv in E1.
    destruct E1 as [(v & -> & Hl1 & _) | [-> ->]].
    2:{ inversion H; subst. exists []. cbn [log break].
        rewrite app_nil_r.
        split; [reflexivity | split; [|intros; discriminate]].
        apply LT_broken. right. exists [], []. apply prefix_nil. }
    destruct (v =? OP_OT) eqn:Eot.
    + apply Z.eqb_eq in Eot. subst v.
      unfold bind at 1 in H. destruct (otRound s c1) as [r2 c2] eqn:E2.
      apply otRound_cases in E2.
      destruct E2 as
        [(bit & xfer & s' & x0 & x1 & xfer' & v & m0p & m1p &
          -> & ENT & ERM & EM & Hl2 & _)
        | [[e ->] (p & bit & x0 & x1 & v & m0p & m1p & Hl2 & Hp)]].
      * apply IH in H. destruct H as (L & HL & HT & HOk).
        exists (roundEvents bit x0 x1 v m0p m1p ++ L).
        split; [|split].
        -- rewrite HL, Hl2, Hl1. cbn [roundEvents tl app].
           rewrite <- !app_assoc. reflexivity.
        -- eapply LT_round; eassumption.
        -- intros z Hz. destruct (HOk z Hz) as (pre & labels & -> & Hd).
           exists (roundEvents bit x0 x1 v m0p m1p ++ pre), labels.
           split; [rewrite <- app_assoc; reflexivity | assumption].
      * inversion H; subst. exists (RecvUint32 OP_OT :: p).
        split; [|split; [|intros; discriminate]].
        -- rewrite Hl2, Hl1, <- app_assoc. reflexivity.
        -- apply LT_broken. left. exists bit, x0, x1, v, m0p, m1p. exact Hp.
    + destruct (v =? OP_RESULT) eqn:Eres.
      * apply Z.eqb_eq in Eres. subst v. apply opResult_cases in H.
        destruct H as
          [(z & labels & -> & Hlen & Hl2 & _ & Hbits & Hout)
          | [Hno (labels & Hl2)]].
        -- exists (resultEvents labels (bigBytes z)).
           split; [|split].
           ++ rewrite Hl2, Hl1. unfold resultEvents.
              rewrite <- !app_assoc. reflexivity.
           ++ apply LT_result. assumption.
           ++ intros z' Hz. inversion Hz; subst z'. exists [], labels.
              split; [reflexivity|]. repeat split; assumption.
        -- exists (RecvUint32 OP_RESULT :: map RecvData labels).
           split; [|split].
           ++ rewrite Hl2, Hl1, <- app_assoc. reflexivity.
           ++ apply LT_broken. right. exists labels, [].
              exists [SentData []; Flushed]. reflexivity.
           ++ intros z Hz. exfalso. exact (Hno z Hz).
      * apply IH in H. destruct H as (L & HL & HT & HOk).
        exists (RecvUint32 v :: L). split; [|split].
        -- rewrite HL, Hl1, <- app_assoc. reflexivity.
        -- apply LT_other; [apply Z.eqb_neq; assumption ..| assumption].
        -- intros z Hz. destruct (HOk z Hz) as (pre & labels & -> & Hd).
           exists (RecvUint32 v :: pre), labels. split; [reflexivity|].
           assumption.
Qed.

(** ** A whole session *)

Lemma emits_cases (m : M unit) (full : list Event) (c : Conn)
    (r : Res unit) (c' : Conn) :
  emits m full -> m c = (r, c') ->
  (r = Ok tt /\ log c' = log c ++ full)
  \/ (r = Err ErrWrite /\ exists p, log c' = log c ++ p /\ prefix p full).
Proof.
  intros Hm H.
  destruct (Hm c) as [[_ E] | [_ (p & s & _ & Hf & E)]];
    rewrite E in H; inversion H; subst; clear H.
  - left. split; reflexivity.
  - right. split; [reflexivity|]. exists p. split; [reflexivity|].
    exists s. reflexivity.
Qed.

Lemma emits_run (m : M unit) (full : list Event) (c : Conn) :
  emits m full -> (cost full <= wbudget c)%nat ->
  m c = (Ok tt, mkConn (rd c) (wbudget c - cost full) (log c ++ full)
                  (broken c)).
Proof.
  intros Hm Hb. destruct (Hm c) as [[_ E] | [Hlt _]]; [exact E | lia].
Qed.

Lemma session_trace {OT : OTSender} (g : Garbled) (circ : Circuit)
    (inputs : list (option Z)) (c : Conn) (r : Res (list Z)) (c' : Conn) :
  session g circ inputs c = (r, c') ->
  exists p,
    log c' = log c ++ p /\
    sessionTrace g circ inputs p /\
    forall outputs, r = Ok outputs ->
      exists s pre labels z,
        NewSender 2048 (Wires g) = inr s /\
        p = tableStream (Gates g)
              ++ map SentData (inputLabels (Wires g) (N1 circ) inputs)
              ++ keyStream (SenderPublicKey s)
              ++ pre ++ resultEvents labels (bigBytes z) /\
        loopTrace circ s (pre ++ resultEvents labels (bigBytes z)) /\
        decoded g circ labels z /\
        outputs = IO_Split (N3 circ) z.
Proof.
  unfold session. intros H. unfold bind at 1 in H.
  destruct (sendTables 0 (Gates g) c) as [r1 c1] eqn:E1.
  apply (emits_cases _ _ _ _ _ (emits_sendTables _)) in E1.
  destruct E1 as [[-> Hl1] | [-> (p & Hl1 & Hp)]].
  2:{ inversion H; subst. exists p.
      split; [assumption | split; [left; assumption | intros; discriminate]]. }
  unfold bind at 1, liftR at 1 in H.
  destruct (selectInputs (Wires g) (N1 circ) 0 inputs 0 []) as [n1|e| |] eqn:ES;
    try (inversion H; subst; exists (tableStream (Gates g));
         split; [assumption
                | split; [left; apply prefix_refl | intros; discriminate]]).
  unfold bind at 1 in H. destruct (sendInputs n1 c1) as [r2 c2] eqn:E2.
  apply (emits_cases _ _ _ _ _ (emits_sendInputs _)) in E2.
  destruct E2 as [[-> Hl2] | [-> (p & Hl2 & Hp)]].
  2:{ inversion H; subst. exists (tableStream (Gates g) ++ p).
      split; [rewrite Hl2, Hl1, <- app_assoc; reflexivity|].
      split; [|intros; discriminate].
      right. exists n1. split; [assumption|]. left.
      apply prefix_app_l. assumption. }
  unfold bind at 1, liftE at 1 in H.
  destruct (NewSender 2048 (Wires g)) as [e|s] eqn:ENS.
  { inversion H; subst. exists (tableStream (Gates g) ++ map SentData n1).
    split; [rewrite Hl2, Hl1, <- app_assoc; reflexivity|].
    split; [|intros; discriminate].
    right. exists n1. split; [assumption|]. left. apply prefix_refl. }
  unfold bind at 1 in H. destruct (sendPublicKey s c2) as [r3 c3] eqn:E3.
  apply (emits_cases _ _ _ _ _ (emits_sendPublicKey _)) in E3.
  destruct E3 as [[-> Hl3] | [-> (p & Hl3 & Hp)]].
  2:{ inversion H; subst.
      exists (tableStream (Gates g) ++ map SentData n1 ++ p).
      split; [rewrite Hl3, Hl2, Hl1, <- !app_assoc; reflexivity|].
      split; [|intros; discriminate].
      right. exists n1. split; [assumption|]. right. exists s.
      split; [assumption|]. left. cbv zeta.
      do 2 apply prefix_app_l. assumption. }
  unfold bind at 1, processMessages at 1 in H.
  destruct (messageLoop (S (length (rd c3))) g circ s 0 c3) as [r4 c4] eqn:E4.
  apply messageLoop_trace in E4. destruct E4 as (L & Hl4 & HT & HOk).
  exists (tableStream (Gates g) ++ map SentData n1
            ++ keyStream (SenderPublicKey s) ++ L).
  assert (Hlog : log c4 = log c ++ tableStream (Gates g) ++ map SentData n1
                            ++ keyStream (SenderPublicKey s) ++ L)
    by (rewrite Hl4, Hl3, Hl2, Hl1, <- !app_assoc; reflexivity).
  assert (HS : sessionTrace g circ inputs
                 (tableStream (Gates g) ++ map SentData n1
                    ++ keyStream (SenderPublicKey s) ++ L)).
  { right. exists n1. split; [assumption|]. right. exists s.
    split; [assumption|]. right. exists L. split; [reflexivity | assumption]. }
  destruct r4 as [z|e| |]; inversion H; subst; clear H;
    (split; [assumption | split; [assumption|]]);
    try (intros; discriminate).
  intros outputs Ho. inversion Ho; subst; clear Ho.
  destruct (HOk z eq_refl) as (pre & labels & -> & Hd).
  exists s, pre, labels, z.
  assert (En : n1 = inputLabels (Wires g) (N1 circ) inputs).
  { pose proof (selectInputs_Ok_bound _ _ _ _ _ _ _ ES) as Hle.
    rewrite selectInputs_run in ES by lia. congruence. }
  subst n1.
  split; [reflexivity | split; [reflexivity | split; [assumption|]]].
  split; [assumption | reflexivity].
Qed.

Lemma session_phases {OT : OTSender} (g : Garbled) (circ : Circuit)
    (inputs : list (option Z)) :
  session g circ inputs = (sendTables 0 (Gates g) ;; afterTables g circ inputs).
Proof. reflexivity. Qed.

Lemma tame_processMessages {OT : OTSender} (g : Garbled) (circ : Circuit)
    (s : Sender) :
  tame (processMessages g circ s).
Proof.
  intros c r c' H. unfold processMessages in H.
  apply tame_messageLoop in H; [assumption | lia].
Qed.

#[local] Hint Resolve tame_processMessages tame_sendTables tame_sendInputs
  tame_sendRows : tame.


Lemma tame_afterInputs {OT : OTSender} (g : Garbled) (circ : Circuit) :
  tame (afterInputs g circ).
Proof. unfold afterInputs. tame_step. Qed.

Lemma tame_afterTables {OT : OTSender} (g : Garbled) (circ : Circuit)
    (inputs : list (option Z)) :
  tame (afterTables g circ inputs).
Proof.
  unfold afterTables. tame_step.
  apply tame_liftR. apply selectInputs_not_Err.
Qed.


(** With enough budget, the three sending phases run through. *)
Lemma session_tables {OT : OTSender} (g : Garbled) (circ : Circuit)
    (inputs : list (option Z)) (c : Conn) :
  (cost (tableStream (Gates g)) <= wbudget c)%nat ->
  session g circ inputs c =
    afterTables g circ inputs
      (mkConn (rd c) (wbudget c - cost (tableStream (Gates g)))
         (log c ++ tableStream (Gates g)) (broken c)).
Proof.
  intros Hb. rewrite session_phases. unfold bind at 1.
  rewrite (emits_run _ _ c (emits_sendTables _) Hb). reflexivity.
Qed.

Lemma afterTables_inputs {OT : OTSender} (g : Garbled) (circ : Circuit)
    (inputs : list (option Z)) (c : Conn) :
  IO_Size (N1 circ) <= Z.of_nat (length (Wires g)) ->
  let I := map SentData (inputLabels (Wires g) (N1 circ) inputs) in
  (cost I <= wbudget c)%nat ->
  afterTables g circ inputs c =
    afterInputs g circ
      (mkConn (rd c) (wbudget c - cost I) (log c ++ I) (broken c)).
Proof.
  intros Hw I Hb. unfold afterTables, liftR. unfold bind at 1.
  rewrite selectInputs_run by assumption. unfold bind at 1.
  rewrite (emits_run _ _ c (emits_sendInputs _) Hb). reflexivity.
Qed.

Lemma afterInputs_key {OT : OTSender} (g : Garbled) (circ : Circuit)
    (s : Sender) (c : Conn) :
  NewSender 2048 (Wires g) = inr s ->
  let K := keyStream (SenderPublicKey s) in
  (cost K <= wbudget c)%nat ->
  afterInputs g circ c =
    afterKey g circ s
      (mkConn (rd c) (wbudget c - cost K) (log c ++ K) (broken c)).
Proof.
  intros Hs K Hb. unfold afterInputs, liftE. unfold bind at 1. rewrite Hs.
  unfold bind at 1.
  rewrite (emits_run _ _ c (emits_sendPublicKey s) Hb). reflexivity.
Qed.

Lemma session_prelude {OT : OTSender} (g : Garbled) (circ : Circuit)
    (inputs : list (option Z)) (s : Sender) (c : Conn) :
  IO_Size (N1 circ) <= Z.of_nat (length (Wires g)) ->
  NewSender 2048 (Wires g) = inr s ->
  (cost (prelude g circ inputs s) <= wbudget c)%nat ->
  session g circ inputs c =
    afterKey g circ s
      (mkConn (rd c) (wbudget c - cost (prelude g circ inputs s))
         (log c ++ prelude g circ inputs s) (broken c)).
Proof.
  unfold prelude. intros Hw Hs Hb. rewrite !cost_app in Hb.
  rewrite session_tables by lia.
  rewrite afterTables_inputs by (cbn [wbudget]; assumption || lia).
  cbn [rd wbudget log broken].
  rewrite (afterInputs_key g circ s) by (cbn [wbudget]; assumption || lia).
  cbn [rd wbudget log broken]. rewrite !cost_app, <- !app_assoc.
  f_equal. f_equal. lia.
Qed.

Lemma prefix_split {A} (a b p : list A) :
  prefix p (a ++ b) ->
  prefix p a \/ exists q, p = a ++ q /\ prefix q b.
Proof.
  revert p. induction a as [|x a IH]; intros p [s Hs].
  - right. exists p. split; [reflexivity | exists s; exact Hs].
  - destruct p as [|y p].
    + left. apply prefix_nil.
    + cbn in Hs. inversion Hs; subst y.
      destruct (IH p) as [[t Ht] | (q & -> & Hq)].
      * exists s. assumption.
      * left. exists t. cbn. rewrite Ht. reflexivity.
      * right. exists q. split; [reflexivity | assumption].
Qed.

Lemma sessionTrace_tables {OT : OTSender} (g : Garbled) (circ : Circuit)
    (inputs : list (option Z)) (p : list Event) :
  sessionTrace g circ inputs p ->
  prefix (tableStream (Gates g)) p \/ prefix p (tableStream (Gates g)).
Proof.
  intros [H | (n1 & _ & [H | (s & _ & [H | (L & -> & _)])])].
  - right. assumption.
  - apply prefix_split in H. destruct H as [H | (q & -> & _)];
      [right; assumption | left; apply prefix_snoc].
  - apply prefix_split in H. destruct H as [H | (q & -> & _)];
      [right; assumption | left; apply prefix_snoc].
  - left. apply prefix_snoc.
Qed.

Lemma sessionTrace_inputs {OT : OTSender} (g : Garbled) (circ : Circuit)
    (inputs : list (option Z)) (p : list Event) (n1 : list bytes) :
  sessionTrace g circ inputs p ->
  selectInputs (Wires g) (N1 circ) 0 inputs 0 [] = Ok n1 ->
  prefix (tableStream (Gates g) ++ map SentData n1) p
  \/ prefix p (tableStream (Gates g) ++ map SentData n1).
Proof.
  intros [H | (n1' & E & [H | (s & _ & [H | (L & -> & _)])])] Hn;
    try (assert (n1' = n1) by congruence; subst n1').
  - right. apply prefix_app_r. assumption.
  - right. assumption.
  - cbv zeta in H. rewrite app_assoc in H. apply prefix_split in H.
    destruct H as [H | (q & -> & _)];
      [right; assumption | left; apply prefix_snoc].
  - left. cbv zeta. rewrite app_assoc. apply prefix_snoc.
Qed.

Lemma Garbler_run {OT : OTSender} (Garble : Circuit -> bytes -> Error + Garbled)
    (conn : Conn) (circ : Circuit) (inputs : list (option Z)) (key : bytes)
    (g : Garbled) :
  Garble circ key = inr g ->
  Garbler Garble conn circ inputs key =
    (goReturn (fst (session g circ inputs conn)),
     snd (session g circ inputs conn)).
Proof.
  intros H. unfold Garbler. rewrite H.
  destruct (session g circ inputs conn). reflexivity.
Qed.

(** * The claims *)

(** C5. The Garbler sends the garbled tables gate by gate in circuit
    order: what it puts on the stream starts with, for each gate in the
    order of the circuit, the gate id as u32, the row count as u32 and
    that many framed rows ([tableStream]); a session that breaks off
    earlier leaves a prefix of that, and with a peer that accepts that
    many sends the whole of it is sent. *)
Theorem Garbler_sends_tables_in_gate_order {OT : OTSender}
    (Garble : Circuit -> bytes -> Error + Garbled)
    (conn : Conn) (circ : Circuit) (inputs : list (option Z)) (key : bytes)
    (g : Garbled) :
  Garble circ key = inr g ->
  exists p,
    log (snd (Garbler Garble conn circ inputs key)) = log conn ++ p /\
    (prefix (tableStream (Gates g)) p \/ prefix p (tableStream (Gates g))) /\
    ((cost (tableStream (Gates g)) <= wbudget conn)%nat ->
     prefix (tableStream (Gates g)) p).
Proof.
  intros HG. rewrite (Garbler_run _ _ _ _ _ _ HG). cbn [snd].
  destruct (session g circ inputs conn) as [r c'] eqn:E. cbn [snd].
  destruct (session_trace _ _ _ _ _ _ E) as (p & Hlog & HS & _).
  exists p. split; [assumption|].
  split; [eapply sessionTrace_tables; eassumption|].
  intros Hb. rewrite session_tables in E by assumption.
  destruct (tame_afterTables _ _ _ _ _ _ E) as (_ & _ & [x Hx] & _).
  cbn [log] in Hx. rewrite Hlog, <- app_assoc in Hx.
  apply app_inv_head in Hx. exists x. assumption.
Qed.

Lemma Garbler_sends_tables_in_gate_order_witness :
  exists p,
    log (snd (@Garbler Demo.ot Demo.garble
                (Demo.fresh Demo.twoRounds 100) Demo.circ
                [Some 2] []))
      = log (Demo.fresh Demo.twoRounds 100) ++ p /\
    (prefix (tableStream (Gates Demo.garbled)) p
     \/ prefix p (tableStream (Gates Demo.garbled))) /\
    ((cost (tableStream (Gates Demo.garbled))
        <= wbudget (Demo.fresh Demo.twoRounds 100))%nat ->
     prefix (tableStream (Gates Demo.garbled)) p).
Proof.
  exact (@Garbler_sends_tables_in_gate_order Demo.ot Demo.garble
           (Demo.fresh Demo.twoRounds 100) Demo.circ [Some 2] []
           Demo.garbled eq_refl).
Defined.

Lemma inputLabels_length_from (wires : list Wire) (inputs : list (option Z))
    (rest : IO) :
  forall done,
    Z.of_nat (length (concat (map (groupLabels wires (done ++ rest) inputs)
                                (seq (length done) (length rest)))))
    = IO_Size rest.
Proof.
  induction rest as [|io rest IH]; intros done.
  - reflexivity.
  - cbn [length seq map concat IO_Size]. rewrite length_app, Nat2Z.inj_add.
    specialize (IH (done ++ [io])).
    rewrite <- app_assoc, length_app in IH. cbn [app length] in IH.
    replace (length done + 1)%nat with (S (length done)) in IH by lia.
    rewrite IH. f_equal. unfold groupLabels.
    rewrite length_map, length_seq, app_nth2, Nat.sub_diag by lia.
    reflexivity.
Qed.

Lemma inputLabels_length (wires : list Wire) (groups : IO)
    (inputs : list (option Z)) :
  Z.of_nat (length (inputLabels wires groups inputs)) = IO_Size groups.
Proof. exact (inputLabels_length_from wires inputs groups []). Qed.

(** C6. For every Garbler input bit, over the groups of N1 in declared
    order and in each group in ascending bit position, the Garbler picks
    [Label1] of the bit's wire when that bit of the supplied integer is 1
    and [Label0] otherwise ([inputLabels]), one label per bit, and sends
    them framed, in that order, right after the tables. *)
Theorem Garbler_sends_input_labels {OT : OTSender}
    (Garble : Circuit -> bytes -> Error + Garbled)
    (conn : Conn) (circ : Circuit) (inputs : list (option Z)) (key : bytes)
    (g : Garbled) :
  Garble circ key = inr g ->
  IO_Size (N1 circ) <= Z.of_nat (length (Wires g)) ->
  let labels := inputLabels (Wires g) (N1 circ) inputs in
  let stream := tableStream (Gates g) ++ map SentData labels in
  selectInputs (Wires g) (N1 circ) 0 inputs 0 [] = Ok labels /\
  Z.of_nat (length labels) = IO_Size (N1 circ) /\
  exists p,
    log (snd (Garbler Garble conn circ inputs key)) = log conn ++ p /\
    (prefix stream p \/ prefix p stream) /\
    ((cost stream <= wbudget conn)%nat -> prefix stream p).
Proof.
  intros HG Hw labels stream. subst stream labels.
  assert (HS : selectInputs (Wires g) (N1 circ) 0 inputs 0 [] =
               Ok (inputLabels (Wires g) (N1 circ) inputs))
    by (apply selectInputs_run; assumption).
  split; [assumption|]. split; [apply inputLabels_length|].
  rewrite (Garbler_run _ _ _ _ _ _ HG). cbn [snd].
  destruct (session g circ inputs conn) as [r c'] eqn:E. cbn [snd].
  destruct (session_trace _ _ _ _ _ _ E) as (p & Hlog & HT & _).
  exists p. split; [assumption|].
  split; [eapply sessionTrace_inputs; eassumption|].
  intros Hb. rewrite cost_app in Hb.
  rewrite session_tables in E by lia.
  rewrite afterTables_inputs in E by (cbn [wbudget]; assumption || lia).
  destruct (tame_afterInputs _ _ _ _ _ E) as (_ & _ & [x Hx] & _).
  cbn [log] in Hx. rewrite Hlog, <- !app_assoc in Hx.
  apply app_inv_head in Hx. exists x.
  rewrite <- app_assoc. assumption.
Qed.

Lemma Garbler_sends_input_labels_witness :
  let conn := Demo.fresh Demo.twoRounds 100 in
  let labels := inputLabels Demo.wires (N1 Demo.circ) [Some 2] in
  let stream := tableStream (Gates Demo.garbled) ++ map SentData labels in
  labels = [ [x00; x10]; [x01; x11] ] /\
  selectInputs Demo.wires (N1 Demo.circ) 0 [Some 2] 0 [] = Ok labels /\
  Z.of_nat (length labels) = IO_Size (N1 Demo.circ) /\
  exists p,
    log (snd (@Garbler Demo.ot Demo.garble conn Demo.circ
                [Some 2] [])) = log conn ++ p /\
    (prefix stream p \/ prefix p stream) /\
    ((cost stream <= wbudget conn)%nat -> prefix stream p).
Proof.
  split; [reflexivity|].
  refine (@Garbler_sends_input_labels Demo.ot Demo.garble
            (Demo.fresh Demo.twoRounds 100) Demo.circ [Some 2] []
            Demo.garbled eq_refl _).
  vm_compute. discriminate.
Defined.







(** C3. In every Garbler session the stream is ordered: all gate tables
    first, then the Garbler's input labels, then the RSA public key, then
    the message loop ([sessionTrace]); in the loop every OT round reads
    the opcode and the index, sends [x0] and [x1], then reads [v], and
    only then sends [m0'] and [m1'] ([loopTrace], [roundEvents]).  A
    session that fails leaves a prefix of such a stream; when garbling
    fails nothing is sent. *)
Theorem Garbler_stream_is_ordered {OT : OTSender}
    (Garble : Circuit -> bytes -> Error + Garbled)
    (conn : Conn) (circ : Circuit) (inputs : list (option Z)) (key : bytes) :
  match Garble circ key with
  | inl _ => snd (Garbler Garble conn circ inputs key) = conn
  | inr g =>
      exists p,
        log (snd (Garbler Garble conn circ inputs key)) = log conn ++ p /\
        sessionTrace g circ inputs p
  end.
Proof.
  destruct (Garble circ key) as [e|g] eqn:HG.
  - unfold Garbler. rewrite HG. reflexivity.
  - rewrite (Garbler_run _ _ _ _ _ _ HG). cbn [snd].
    destruct (session g circ inputs conn) as [r c'] eqn:E. cbn [snd].
    destruct (session_trace _ _ _ _ _ _ E) as (p & Hlog & HS & _).
    exists p. split; assumption.
Qed.

(** C1. Whenever the Garbler returns a value, it has received OP_RESULT
    and one label per output wire; label [i] was decoded against wire
    [NumWires - |N3| + i] and gave bit [i] of an integer with no other bit
    set ([decoded]); the bytes of that integer were sent back, and the
    value returned is [N3.Split] of it. *)
Theorem Garbler_returns_split_of_decoded_labels {OT : OTSender}
    (Garble : Circuit -> bytes -> Error + Garbled)
    (conn : Conn) (circ : Circuit) (inputs : list (option Z)) (key : bytes)
    (outputs : list Z) (conn' : Conn) :
  Garbler Garble conn circ inputs key = (Return (Some outputs) None, conn') ->
  exists g pre labels z,
    Garble circ key = inr g /\
    log conn' = log conn ++ pre ++ resultEvents labels (bigBytes z) /\
    decoded g circ labels z /\
    outputs = IO_Split (N3 circ) z.
Proof.
  unfold Garbler. destruct (Garble circ key) as [e|g] eqn:HG;
    [intros H; inversion H|].
  destruct (session g circ inputs conn) as [r c'] eqn:E.
  intros H. inversion H as [[Hr Hc]]. subst c'.
  destruct r as [outs| | |]; try discriminate.
  cbn in Hr. inversion Hr; subst outs.
  destruct (session_trace _ _ _ _ _ _ E) as (p & Hlog & _ & HOk).
  destruct (HOk outputs eq_refl)
    as (s & pre & labels & z & _ & -> & _ & Hd & Ho).
  exists g, (tableStream (Gates g)
               ++ map SentData (inputLabels (Wires g) (N1 circ) inputs)
               ++ keyStream (SenderPublicKey s) ++ pre), labels, z.
  split; [reflexivity|]. split; [|split; assumption].
  rewrite Hlog, <- !app_assoc. reflexivity.
Qed.

Lemma Garbler_returns_split_of_decoded_labels_witness :
  let run := @Garbler Demo.ot Demo.garble
               (Demo.fresh Demo.twoRounds 100) Demo.circ
               [Some 2] [] in
  fst run = Return (Some [1; 0]) None /\
  exists g pre labels z,
    Demo.garble Demo.circ [] = inr g /\
    log (snd run) = [] ++ pre ++ resultEvents labels (bigBytes z) /\
    decoded g Demo.circ labels z /\
    [1; 0] = IO_Split (N3 Demo.circ) z.
Proof.
  split; [vm_compute; reflexivity|].
  refine (@Garbler_returns_split_of_decoded_labels Demo.ot Demo.garble
            (Demo.fresh Demo.twoRounds 100) Demo.circ [Some 2] []
            [1; 0] _ _).
  vm_compute. reflexivity.
Defined.

(** ** Running the loop on a given stream *)

Lemma u32_OP_OT : u32 OP_OT = OP_OT.
Proof. reflexivity. Qed.

Lemma u32_OP_RESULT : u32 OP_RESULT = OP_RESULT.
Proof. reflexivity. Qed.

Lemma messageLoop_step {OT : OTSender} (g : Garbled) (circ : Circuit)
    (f : nat) (s : Sender) (result : Z) (c : Conn) (op : Z) (rest : bytes) :
  rd c = enc_u32 op ++ rest ->
  messageLoop (S f) g circ s result c =
    (if u32 op =? OP_OT then
       sender' <- otRound s ;; messageLoop f g circ sender' result
     else if u32 op =? OP_RESULT then opResult g circ result
     else messageLoop f g circ s result)
      (mkConn rest (wbudget c) (log c ++ [RecvUint32 (u32 op)]) (broken c)).
Proof.
  intros H. cbn [messageLoop]. unfold bind at 1.
  rewrite (receiveUint32_enc _ _ _ H). reflexivity.
Qed.

Lemma map_RecvData_inj (a b : list bytes) :
  map RecvData a = map RecvData b -> a = b.
Proof.
  revert b. induction a as [|x a IH]; destruct b as [|y b]; cbn;
    intros H; try discriminate; [reflexivity|].
  inversion H. f_equal. apply IH. assumption.
Qed.

Lemma opResult_valid (g : Garbled) (circ : Circuit) (labels : list bytes)
    (rest : bytes) (c : Conn) :
  rd c = concat (map frame labels) ++ rest ->
  framable labels ->
  length labels = Z.to_nat (IO_Size (N3 circ)) ->
  validLabels (Wires g) (outputBase circ) labels = true ->
  (1 <= wbudget c)%nat ->
  exists z,
    opResult g circ 0 c =
      (Ok z, mkConn rest (wbudget c - 1)
               (log c ++ map RecvData labels
                  ++ [SentData (bigBytes z); Flushed]) (broken c)) /\
    decoded g circ labels z.
Proof.
  intros Hrd Hf Hlen Hv Hb.
  destruct (decodeResult_valid g circ labels 0 0 c rest Hrd Hf) as [z Hz];
    [rewrite Z.add_0_r; assumption|].
  exists z. split.
  - unfold opResult. rewrite <- Hlen. unfold bind at 1. rewrite Hz.
    unfold bind at 1, sendData at 1. cbn [wbudget].
    destruct (wbudget c) as [|n] eqn:En; [lia|].
    unfold bind, Flush, ret, emit. cbn [rd wbudget log broken].
    rewrite <- !app_assoc. cbn [app].
    replace (S n - 1)%nat with n by lia. reflexivity.
  - apply decodeResult_Ok_inv in Hz; [|lia].
    destruct Hz as (labels' & Hlen' & Hlog & _ & _ & Hbits & Hout).
    cbn [log] in Hlog. apply app_inv_head in Hlog.
    apply map_RecvData_inj in Hlog. subst labels'.
    split; [assumption|]. split.
    + intros j Hj. destruct (Hbits j Hj) as (w & H1 & H2). exists w.
      split; assumption.
    + intros k Hk. rewrite Hout.
      * apply Z.bits_0.
      * rewrite Hlen. pose proof (IO_Size_nonneg (N3 circ)). lia.
Qed.

Lemma messageLoop_result {OT : OTSender} (g : Garbled) (circ : Circuit)
    (f : nat) (s : Sender) (c : Conn) (labels : list bytes) (rest : bytes) :
  rd c = enc_u32 OP_RESULT ++ concat (map frame labels) ++ rest ->
  framable labels ->
  length labels = Z.to_nat (IO_Size (N3 circ)) ->
  validLabels (Wires g) (outputBase circ) labels = true ->
  (1 <= wbudget c)%nat ->
  exists z,
    messageLoop (S f) g circ s 0 c =
      (Ok z, mkConn rest (wbudget c - 1)
               (log c ++ resultEvents labels (bigBytes z)) (broken c)) /\
    decoded g circ labels z.
Proof.
  intros Hrd Hf Hlen Hv Hb.
  rewrite (messageLoop_step _ _ _ _ _ _ _ _ Hrd). rewrite u32_OP_RESULT.
  cbn [Z.eqb OP_RESULT OP_OT Pos.eqb].
  edestruct (opResult_valid g circ labels rest
               (mkConn (concat (map frame labels) ++ rest) (wbudget c)
                  (log c ++ [RecvUint32 OP_RESULT]) (broken c)))
    as (z & Hz & Hd); try eassumption; try reflexivity.
  exists z. split; [|assumption]. rewrite Hz. cbn [rd wbudget log broken].
  unfold resultEvents. rewrite <- !app_assoc. reflexivity.
Qed.

Lemma messageLoop_unknown_label {OT : OTSender} (g : Garbled)
    (circ : Circuit) (f : nat) (s : Sender) (c : Conn)
    (good : list bytes) (bad rest : bytes) (wire : Wire) :
  rd c = enc_u32 OP_RESULT ++ concat (map frame good) ++ frame bad ++ rest ->
  framable (good ++ [bad]) ->
  (length good < Z.to_nat (IO_Size (N3 circ)))%nat ->
  validLabels (Wires g) (outputBase circ) good = true ->
  index (Wires g) (outputBase circ + Z.of_nat (length good)) = Ok wire ->
  bad <> Bytes (Label0 wire) ->
  bad <> Bytes (Label1 wire) ->
  messageLoop (S f) g circ s 0 c =
    (Err (ErrUnknownLabel bad (Z.of_nat (length good))),
     mkConn rest (wbudget c)
       (log c ++ RecvUint32 OP_RESULT :: map RecvData (good ++ [bad]))
       (broken c)).
Proof.
  intros Hrd Hf Hlen Hv Hidx H0 H1.
  rewrite (messageLoop_step _ _ _ _ _ _ _ _ Hrd). rewrite u32_OP_RESULT.
  cbn [Z.eqb OP_RESULT OP_OT Pos.eqb].
  unfold opResult. unfold bind at 1.
  rewrite (decodeResult_unknown g circ good 0 0 _ bad rest _ wire);
    try assumption; try reflexivity.
  - cbn [rd wbudget log broken]. rewrite <- app_assoc. reflexivity.
  - rewrite Z.add_0_r. assumption.
  - rewrite Z.add_0_r. assumption.
Qed.

(** [Garbler] past the public key: its outcome is the outcome of the
    message loop. *)
Lemma Garbler_loop {OT : OTSender}
    (Garble : Circuit -> bytes -> Error + Garbled)
    (conn : Conn) (circ : Circuit) (inputs : list (option Z)) (key : bytes)
    (g : Garbled) (s : Sender) (r : Res Z) (c' : Conn) :
  Garble circ key = inr g ->
  IO_Size (N1 circ) <= Z.of_nat (length (Wires g)) ->
  NewSender 2048 (Wires g) = inr s ->
  (cost (prelude g circ inputs s) <= wbudget conn)%nat ->
  messageLoop (S (length (rd conn))) g circ s 0
    (mkConn (rd conn) (wbudget conn - cost (prelude g circ inputs s))
       (log conn ++ prelude g circ inputs s) (broken conn)) = (r, c') ->
  Garbler Garble conn circ inputs key =
    (match r with
     | Ok z => Return (Some (IO_Split (N3 circ) z)) None
     | Err e => Return None (Some e)
     | Panic => Panics
     | OutOfFuel => Diverges
     end, c').
Proof.
  intros HG Hw Hs Hb Hloop. unfold Garbler. rewrite HG.
  rewrite session_prelude with (s := s) by assumption.
  unfold afterKey, processMessages. unfold bind at 1. cbn [rd].
  rewrite Hloop. destruct r; reflexivity.
Qed.

Lemma concat_frames_app (good : list bytes) (bad : bytes)
    (tail : list bytes) (rest : bytes) :
  concat (map frame (good ++ bad :: tail)) ++ rest =
  concat (map frame good) ++ frame bad ++ concat (map frame tail) ++ rest.
Proof.
  rewrite map_app, concat_app. cbn [map concat].
  rewrite <- !app_assoc. reflexivity.
Qed.

Lemma framable_app (a b : list bytes) :
  framable (a ++ b) <-> framable a /\ framable b.
Proof. unfold framable. apply Forall_app. Qed.

Lemma framable_small (ds : list bytes) :
  forallb (fun d => Z.of_nat (length d) <? 2 ^ 32) ds = true -> framable ds.
Proof.
  intros H. apply Forall_forall. intros d Hd.
  rewrite forallb_forall in H. apply Z.ltb_lt. apply H. assumption.
Qed.

(** C2. On OP_RESULT the Garbler reads the framed labels of the output
    wires.  When each of the [|N3|] labels is [Label0] or [Label1] of its
    wire, it reads exactly these [|N3|] frames, decodes each to bit 0 for
    [Label0] and bit 1 for [Label1] ([decoded]) and goes on to send the
    result; when a label is neither label of its wire, the loop stops
    there with the unknown-label error, and a call of [Garbler] whose loop
    starts in this state returns that error with a nil result. *)
Theorem result_labels_decoded_or_rejected {OT : OTSender}
    (g : Garbled) (circ : Circuit) (f : nat) (s : Sender) (c : Conn)
    (labels : list bytes) (rest : bytes) :
  rd c = enc_u32 OP_RESULT ++ concat (map frame labels) ++ rest ->
  framable labels ->
  (length labels = Z.to_nat (IO_Size (N3 circ)) ->
   validLabels (Wires g) (outputBase circ) labels = true ->
   (1 <= wbudget c)%nat ->
   exists z,
     messageLoop (S f) g circ s 0 c =
       (Ok z, mkConn rest (wbudget c - 1)
                (log c ++ resultEvents labels (bigBytes z)) (broken c)) /\
     decoded g circ labels z)
  /\
  (forall good bad tail wire,
     labels = good ++ bad :: tail ->
     (length good < Z.to_nat (IO_Size (N3 circ)))%nat ->
     validLabels (Wires g) (outputBase circ) good = true ->
     index (Wires g) (outputBase circ + Z.of_nat (length good)) = Ok wire ->
     bad <> Bytes (Label0 wire) ->
     bad <> Bytes (Label1 wire) ->
     let err := ErrUnknownLabel bad (Z.of_nat (length good)) in
     let c' := mkConn (concat (map frame tail) ++ rest) (wbudget c)
                 (log c ++ RecvUint32 OP_RESULT
                    :: map RecvData (good ++ [bad])) (broken c) in
     messageLoop (S f) g circ s 0 c = (Err err, c') /\
     forall Garble conn inputs key,
       Garble circ key = inr g ->
       IO_Size (N1 circ) <= Z.of_nat (length (Wires g)) ->
       NewSender 2048 (Wires g) = inr s ->
       (cost (prelude g circ inputs s) <= wbudget conn)%nat ->
       c = mkConn (rd conn) (wbudget conn - cost (prelude g circ inputs s))
             (log conn ++ prelude g circ inputs s) (broken conn) ->
       Garbler Garble conn circ inputs key = (Return None (Some err), c')).
Proof.
  intros Hrd Hf. split.
  - intros Hlen Hv Hb. apply messageLoop_result; assumption.
  - intros good bad tail wire -> Hlen Hv Hidx H0 H1 err c'.
    rewrite concat_frames_app in Hrd.
    apply framable_app in Hf. destruct Hf as [Hg Hf].
    apply framable_cons in Hf. destruct Hf as [Hbad _].
    assert (Hfr : framable (good ++ [bad])).
    { apply framable_app. split; [assumption|].
      apply framable_cons. split; [assumption | constructor]. }
    assert (Hloop : forall f', messageLoop (S f') g circ s 0 c = (Err err, c')).
    { intros f'.
      apply messageLoop_unknown_label with (wire := wire); assumption. }
    split; [apply Hloop|].
    intros Garble conn inputs key HG Hw Hs Hb Hc.
    rewrite (Garbler_loop Garble conn circ inputs key g s (Err err) c'
               HG Hw Hs Hb); [reflexivity|].
    rewrite <- Hc. apply Hloop.
Qed.

Lemma result_labels_decoded_or_rejected_witness :
  (exists z,
     @messageLoop Demo.ot 1 Demo.garbled Demo.circ Demo.sender0 0
       (Demo.fresh Demo.resultOnly 1) =
       (Ok z, mkConn [] 0
                ([] ++ resultEvents [[x04; x11]; [x05; x10]] (bigBytes z))
                false) /\
     decoded Demo.garbled Demo.circ [[x04; x11]; [x05; x10]] z)
  /\
  @messageLoop Demo.ot 1 Demo.garbled Demo.circ Demo.sender0 0
    (Demo.fresh Demo.badLabel 1) =
    (Err (ErrUnknownLabel [xff; xff] 1),
     mkConn [] 1
       [RecvUint32 OP_RESULT; RecvData [x04; x11]; RecvData [xff; xff]]
       false)
  /\
  fst (@Garbler Demo.ot Demo.garble (Demo.fresh Demo.badLabel 12)
         Demo.circ [Some 2] [])
    = Return None (Some (ErrUnknownLabel [xff; xff] 1)).
Proof.
  split; [|split].
  - refine (proj1 (@result_labels_decoded_or_rejected Demo.ot
                     Demo.garbled Demo.circ 0 Demo.sender0
                     (Demo.fresh Demo.resultOnly 1)
                     [[x04; x11]; [x05; x10]] [] _ _) _ _ _).
    + reflexivity.
    + apply framable_small. reflexivity.
    + reflexivity.
    + reflexivity.
    + cbn. lia.
  - refine (proj1 (proj2 (@result_labels_decoded_or_rejected Demo.ot
                     Demo.garbled Demo.circ 0 Demo.sender0
                     (Demo.fresh Demo.badLabel 1)
                     [[x04; x11]; [xff; xff]] [] _ _)
                     [[x04; x11]] [xff; xff] [] (nth 5 Demo.wires noWire)
                     _ _ _ _ _ _)).
    + reflexivity.
    + apply framable_small. reflexivity.
    + reflexivity.
    + cbn. lia.
    + reflexivity.
    + reflexivity.
    + discriminate.
    + discriminate.
  - vm_compute. reflexivity.
Defined.

(** C10. The message loop accepts OP_RESULT at any point.  Sent as the
    very first opcode, with no OT round before it, it makes [Garbler]
    decode the labels, send the result and return the outputs, whatever
    Evaluator inputs the circuit declares; and in any later state of the
    loop, whatever the sender has served so far, OP_RESULT is answered the
    same way. *)
Theorem result_accepted_before_any_OT {OT : OTSender}
    (Garble : Circuit -> bytes -> Error + Garbled)
    (conn : Conn) (circ : Circuit) (inputs : list (option Z)) (key : bytes)
    (g : Garbled) (s : Sender) (labels : list bytes) (rest : bytes) :
  Garble circ key = inr g ->
  IO_Size (N1 circ) <= Z.of_nat (length (Wires g)) ->
  NewSender 2048 (Wires g) = inr s ->
  (cost (prelude g circ inputs s) + 1 <= wbudget conn)%nat ->
  rd conn = enc_u32 OP_RESULT ++ concat (map frame labels) ++ rest ->
  framable labels ->
  length labels = Z.to_nat (IO_Size (N3 circ)) ->
  validLabels (Wires g) (outputBase circ) labels = true ->
  (exists z,
     Garbler Garble conn circ inputs key =
       (Return (Some (IO_Split (N3 circ) z)) None,
        mkConn rest (wbudget conn - cost (prelude g circ inputs s) - 1)
          (log conn ++ prelude g circ inputs s
             ++ resultEvents labels (bigBytes z)) (broken conn)) /\
     decoded g circ labels z)
  /\
  (forall f s' c,
     rd c = enc_u32 OP_RESULT ++ concat (map frame labels) ++ rest ->
     (1 <= wbudget c)%nat ->
     exists z,
       messageLoop (S f) g circ s' 0 c =
         (Ok z, mkConn rest (wbudget c - 1)
                  (log c ++ resultEvents labels (bigBytes z)) (broken c)) /\
       decoded g circ labels z).
Proof.
  intros HG Hw Hs Hb Hrd Hf Hlen Hv. split.
  - edestruct (messageLoop_result g circ (length (rd conn)) s
                 (mkConn (rd conn)
                    (wbudget conn - cost (prelude g circ inputs s))
                    (log conn ++ prelude g circ inputs s) (broken conn))
                 labels rest) as (z & Hz & Hd); try eassumption.
    + cbn [wbudget]. lia.
    + exists z. split; [|assumption].
      rewrite (Garbler_loop Garble conn circ inputs key g s _ _ HG Hw Hs
                 ltac:(lia) Hz).
      cbn [rd wbudget log broken]. rewrite <- app_assoc. reflexivity.
  - intros f s' c Hrd' Hb'. apply messageLoop_result; assumption.
Qed.

Lemma result_accepted_before_any_OT_witness :
  IO_Size (N2 Demo.circ) = 2 /\
  (exists z,
     @Garbler Demo.ot Demo.garble
       (Demo.fresh Demo.resultOnly 12) Demo.circ [Some 2] [] =
       (Return (Some (IO_Split (N3 Demo.circ) z)) None,
        mkConn [] (12 - cost (@prelude Demo.ot Demo.garbled
                                Demo.circ [Some 2] Demo.sender0) - 1)
          ([] ++ @prelude Demo.ot Demo.garbled Demo.circ [Some 2]
                   Demo.sender0
             ++ resultEvents [[x04; x11]; [x05; x10]] (bigBytes z)) false) /\
     decoded Demo.garbled Demo.circ [[x04; x11]; [x05; x10]] z)
  /\
  (forall f s' c,
     rd c = enc_u32 OP_RESULT
              ++ concat (map frame [[x04; x11]; [x05; x10]]) ++ [] ->
     (1 <= wbudget c)%nat ->
     exists z,
       @messageLoop Demo.ot (S f) Demo.garbled Demo.circ s' 0 c =
         (Ok z, mkConn [] (wbudget c - 1)
                  (log c ++ resultEvents [[x04; x11]; [x05; x10]]
                              (bigBytes z)) (broken c)) /\
       decoded Demo.garbled Demo.circ [[x04; x11]; [x05; x10]] z).
Proof.
  split; [reflexivity|].
  refine (@result_accepted_before_any_OT Demo.ot Demo.garble
            (Demo.fresh Demo.resultOnly 12) Demo.circ [Some 2] []
            Demo.garbled Demo.sender0 [[x04; x11]; [x05; x10]] []
            _ _ _ _ _ _ _ _).
  - reflexivity.
  - vm_compute. discriminate.
  - reflexivity.
  - vm_compute. lia.
  - reflexivity.
  - apply framable_small. reflexivity.
  - reflexivity.
  - reflexivity.
Defined.

(** Fuel beyond the bytes left on the stream makes no difference. *)
Lemma messageLoop_fuel_irrel {OT : OTSender} (g : Garbled) (circ : Circuit)
    (f1 : nat) :
  forall f2 s result c,
    (length (rd c) < f1)%nat -> (length (rd c) < f2)%nat ->
    messageLoop f1 g circ s result c = messageLoop f2 g circ s result c.
Proof.
  induction f1 as [|f1 IH]; intros f2 s result c H1 H2; [lia|].
  destruct f2 as [|f2]; [lia|].
  cbn [messageLoop]. unfold bind.
  destruct (receiveUint32 c) as [r1 c1] eqn:E1.
  apply receiveUint32_inv in E1.
  destruct E1 as [(v & -> & _ & Hrd & _) | [-> ->]]; [|reflexivity].
  destruct (v =? OP_OT).
  - destruct (otRound s c1) as [r2 c2] eqn:E2.
    destruct (tame_otRound _ _ _ _ E2) as (_ & L2 & _).
    destruct r2; try reflexivity. apply IH; lia.
  - destruct (v =? OP_RESULT); [reflexivity|]. apply IH; lia.
Qed.

(** C7, as the code has it.  An opcode that is neither OP_OT nor
    OP_RESULT is read and dropped: the loop goes on with the next opcode,
    and the session ends as it would have ended without it. *)
Theorem unknown_opcode_is_skipped {OT : OTSender}
    (g : Garbled) (circ : Circuit) (s : Sender) (c : Conn)
    (op : Z) (rest : bytes) :
  rd c = enc_u32 op ++ rest ->
  u32 op <> OP_OT ->
  u32 op <> OP_RESULT ->
  processMessages g circ s c =
    processMessages g circ s
      (mkConn rest (wbudget c) (log c ++ [RecvUint32 (u32 op)]) (broken c)).
Proof.
  intros Hrd Hot Hres. unfold processMessages.
  rewrite (messageLoop_step _ _ _ _ _ _ _ _ Hrd).
  apply Z.eqb_neq in Hot, Hres. rewrite Hot, Hres. cbn [rd].
  apply messageLoop_fuel_irrel; cbn [rd].
  - rewrite Hrd, length_app. cbn. lia.
  - lia.
Qed.

Lemma unknown_opcode_is_skipped_witness :
  @processMessages Demo.ot Demo.garbled Demo.circ Demo.sender0
    (Demo.fresh Demo.strayOpcode 1) =
  @processMessages Demo.ot Demo.garbled Demo.circ Demo.sender0
    (mkConn Demo.resultOnly 1 ([] ++ [RecvUint32 (u32 7)]) false).
Proof.
  refine (@unknown_opcode_is_skipped Demo.ot Demo.garbled Demo.circ
            Demo.sender0 (Demo.fresh Demo.strayOpcode 1) 7
            Demo.resultOnly _ _ _).
  - reflexivity.
  - vm_compute. discriminate.
  - vm_compute. discriminate.
Defined.

(** C7, as the claim has it, fails: here the peer sends opcode 7, which is
    neither OP_OT nor OP_RESULT, and then OP_RESULT with the output
    labels; the session does not fail, the Garbler returns the outputs. *)
Lemma unknown_opcode_session_succeeds :
  let run := @Garbler Demo.ot Demo.garble
               (Demo.fresh Demo.strayOpcode 12) Demo.circ
               [Some 2] [] in
  7 <> OP_OT /\ 7 <> OP_RESULT /\
  fst run = Return (Some [1; 0]) None /\
  log (snd run) =
    @prelude Demo.ot Demo.garbled Demo.circ [Some 2] Demo.sender0
      ++ RecvUint32 7
      :: resultEvents [[x04; x11]; [x05; x10]] (bigBytes 1).
Proof.
  cbv zeta. split; [discriminate|]. split; [discriminate|].
  split; vm_compute; reflexivity.
Qed.

(** ** Failures of the OT package *)




Lemma otRound_run {OT : OTSender} (s s' : Sender) (c : Conn)
    (bit : Z) (v rest x0 x1 m0p m1p : bytes) (xfer xfer' : SenderXfer) :
  rd c = enc_u32 bit ++ frame v ++ rest ->
  Z.of_nat (length v) < 2 ^ 32 ->
  (4 <= wbudget c)%nat ->
  NewTransfer s (u32 bit) = inr (xfer, s') ->
  RandomMessages xfer = (x0, x1, xfer') ->
  Messages (ReceiveV xfer' v) = inr (m0p, m1p) ->
  otRound s c =
    (Ok s',
     mkConn rest (wbudget c - 4)
       (log c ++ tl (roundEvents (u32 bit) x0 x1 v m0p m1p)) (broken c)).
Proof.
  intros Hrd Hv Hb Hnt Hrm Hm. unfold otRound. unfold bind at 1.
  rewrite (receiveUint32_enc _ _ _ Hrd).
  unfold bind at 1, liftE at 1. rewrite Hnt, Hrm.
  destruct (wbudget c) as [|[|[|[|n]]]] eqn:En; try lia.
  unfold bind at 1, sendData at 1. cbn [wbudget rd log broken].
  unfold bind at 1, sendData at 1. cbn [wbudget rd log broken].
  unfold bind at 1, Flush at 1, emit. cbn [wbudget rd log broken].
  unfold bind at 1.
  erewrite receiveData_frame; [|cbn [rd]; reflexivity | assumption].
  cbn [wbudget rd log broken].
  unfold bind at 1, liftE at 1. rewrite Hm.
  unfold bind at 1, sendData at 1. cbn [wbudget rd log broken].
  unfold bind at 1, sendData at 1. cbn [wbudget rd log broken].
  unfold bind at 1, Flush at 1, emit, ret. cbn [wbudget rd log broken].
  rewrite <- !app_assoc. cbn [app roundEvents tl].
  replace (S (S (S (S n))) - 4)%nat with n by lia. reflexivity.
Qed.

Lemma messageLoop_OT {OT : OTSender} (g : Garbled) (circ : Circuit)
    (f : nat) (s : Sender) (c : Conn) (rest : bytes) :
  rd c = enc_u32 OP_OT ++ rest ->
  messageLoop (S f) g circ s 0 c =
    (sender' <- otRound s ;; messageLoop f g circ sender' 0)
      (mkConn rest (wbudget c) (log c ++ [RecvUint32 OP_OT]) (broken c)).
Proof.
  intros Hrd. rewrite (messageLoop_step _ _ _ _ _ _ _ _ Hrd).
  rewrite u32_OP_OT. reflexivity.
Qed.


(** ** The positional sender of the specification *)

Lemma nth_error_wireAt (ws : list Wire) (n : Z) (i : nat) :
  0 <= n -> n + Z.of_nat i < Z.of_nat (length ws) ->
  nth_error ws (Z.to_nat n + i) = Some (wireAt ws (n + Z.of_nat i)).
Proof.
  intros Hn Hlt. unfold wireAt.
  replace (Z.to_nat (n + Z.of_nat i)) with (Z.to_nat n + i)%nat by lia.
  apply nth_error_nth'. lia.
Qed.

Lemma SpecOT_newTransfer (circ : Circuit) (random : nat -> Z)
    (k : SpecOT.KeyPair) (ws : list Wire) (i : nat) (bit : Z) :
  Z.of_nat i < IO_Size (N2 circ) ->
  IO_Size (N1 circ) + Z.of_nat i < Z.of_nat (length ws) ->
  SpecOT.newTransfer circ random (SpecOT.mkSender k ws i) bit =
    inr (Rounds.roundXfer circ random k ws i, SpecOT.mkSender k ws (S i)).
Proof.
  intros Hi Hw. unfold SpecOT.newTransfer. cbn [SpecOT.round SpecOT.wires].
  apply Z.ltb_lt in Hi. rewrite Hi.
  rewrite nth_error_wireAt by (try apply IO_Size_nonneg; assumption).
  reflexivity.
Qed.

Lemma SpecOT_round (circ : Circuit)
    (keygen : Z -> Error + SpecOT.KeyPair) (random : nat -> Z)
    (g : Garbled) (k : SpecOT.KeyPair) (ws : list Wire) (i f : nat)
    (c : Conn) (bit : Z) (v rest : bytes) :
  rd c = Rounds.request bit v ++ rest ->
  Z.of_nat (length v) < 2 ^ 32 ->
  (4 <= wbudget c)%nat ->
  Z.of_nat i < IO_Size (N2 circ) ->
  IO_Size (N1 circ) + Z.of_nat i < Z.of_nat (length ws) ->
  0 < SpecOT.keyN k ->
  @messageLoop (SpecOT.instance circ keygen random) (S f) g circ
    (SpecOT.mkSender k ws i) 0 c =
  @messageLoop (SpecOT.instance circ keygen random) f g circ
    (SpecOT.mkSender k ws (S i)) 0
    (mkConn rest (wbudget c - 4)
       (log c ++ Rounds.served circ random k ws i bit v) (broken c)).
Proof.
  intros Hrd Hv Hb Hi Hw Hk. unfold Rounds.request in Hrd.
  rewrite <- !app_assoc in Hrd.
  rewrite (messageLoop_OT _ _ _ _ _ _ Hrd). unfold bind at 1.
  erewrite (@otRound_run (SpecOT.instance circ keygen random));
    [ | cbn [rd]; reflexivity | assumption | cbn [wbudget]; assumption
      | apply SpecOT_newTransfer; assumption | reflexivity | ].
  - cbn [rd wbudget log broken]. rewrite <- app_assoc. reflexivity.
  - cbn [Messages ReceiveV SpecOT.instance]. unfold SpecOT.messages.
    assert (E : (SpecOT.keyN
                   (SpecOT.xkey
                      (SpecOT.receiveV (Rounds.roundXfer circ random k ws i) v))
                 <=? 0) = false) by (apply Z.leb_gt; assumption).
    rewrite E. reflexivity.
Qed.

Lemma SpecOT_rounds (circ : Circuit)
    (keygen : Z -> Error + SpecOT.KeyPair) (random : nat -> Z)
    (g : Garbled) (k : SpecOT.KeyPair) (ws : list Wire)
    (reqs : list (Z * bytes)) :
  forall (i f : nat) (c : Conn) (rest : bytes),
    rd c = Rounds.requests reqs ++ rest ->
    framable (map snd reqs) ->
    (4 * length reqs <= wbudget c)%nat ->
    Z.of_nat (i + length reqs) <= IO_Size (N2 circ) ->
    IO_Size (N1 circ) + IO_Size (N2 circ) <= Z.of_nat (length ws) ->
    0 < SpecOT.keyN k ->
    @messageLoop (SpecOT.instance circ keygen random) (length reqs + f)
      g circ (SpecOT.mkSender k ws i) 0 c =
    @messageLoop (SpecOT.instance circ keygen random) f g circ
      (SpecOT.mkSender k ws (i + length reqs)) 0
      (mkConn rest (wbudget c - 4 * length reqs)
         (log c ++ Rounds.servedFrom circ random k ws i reqs) (broken c)).
Proof.
  induction reqs as [|[bit v] reqs IH]; intros i f c rest Hrd Hf Hb Hi Hw Hk.
  - cbn [length Rounds.servedFrom Nat.add] in *. rewrite Nat.add_0_r.
    cbn in Hrd. rewrite app_nil_r, Nat.sub_0_r.
    destruct c; cbn in *; subst; reflexivity.
  - cbn [length map snd] in *. apply framable_cons in Hf.
    destruct Hf as [Hv Hf].
    unfold Rounds.requests in Hrd. cbn [map concat fst snd] in Hrd.
    rewrite <- app_assoc in Hrd. cbn [Nat.add].
    rewrite (SpecOT_round circ keygen random g k ws i _ c bit v _ Hrd)
      by (assumption || lia).
    rewrite (IH (S i) f _ rest); cbn [rd wbudget log broken];
      try assumption; try reflexivity; try lia.
    cbn [Rounds.servedFrom fst snd]. rewrite <- app_assoc.
    replace (S i + length reqs)%nat with (i + S (length reqs))%nat by lia.
    f_equal. f_equal. lia.
Qed.

Lemma requests_length (reqs : list (Z * bytes)) :
  (length reqs <= length (Rounds.requests reqs))%nat.
Proof.
  induction reqs as [|[bit v] reqs IH]; [cbn; lia|].
  unfold Rounds.requests in *. cbn [map concat length fst snd].
  rewrite length_app. unfold Rounds.request at 1. rewrite !length_app.
  cbn [length enc_u32]. lia.
Qed.

Lemma Garbler_finish {OT : OTSender}
    (Garble : Circuit -> bytes -> Error + Garbled)
    (conn : Conn) (circ : Circuit) (inputs : list (option Z)) (key : bytes)
    (g : Garbled) (s : Sender) :
  Garble circ key = inr g ->
  IO_Size (N1 circ) <= Z.of_nat (length (Wires g)) ->
  NewSender 2048 (Wires g) = inr s ->
  (cost (prelude g circ inputs s) <= wbudget conn)%nat ->
  Garbler Garble conn circ inputs key =
    finish circ
      (processMessages g circ s
         (mkConn (rd conn) (wbudget conn - cost (prelude g circ inputs s))
            (log conn ++ prelude g circ inputs s) (broken conn))).
Proof.
  intros HG Hw Hs Hb. unfold processMessages. cbn [rd].
  destruct (messageLoop (S (length (rd conn))) g circ s 0
              (mkConn (rd conn) (wbudget conn - cost (prelude g circ inputs s))
                 (log conn ++ prelude g circ inputs s) (broken conn)))
    as [r c'] eqn:E.
  rewrite (Garbler_loop Garble conn circ inputs key g s r c' HG Hw Hs Hb E).
  reflexivity.
Qed.

(** C4 (against the sender of the specification).  The requests of the
    peer are served by position: whatever index each request carries, the
    Garbler answers the [i]-th OP_OT request with the transfer of the
    [i]-th Evaluator input wire, wire [|N1| + i] ([Rounds.served],
    [Rounds.roundXfer]), and goes on as the sender that has served that
    many rounds; the messages it sends do not depend on the indices. *)
Theorem OT_requests_served_by_position
    (Garble : Circuit -> bytes -> Error + Garbled)
    (keygen : Z -> Error + SpecOT.KeyPair) (random : nat -> Z)
    (conn : Conn) (circ : Circuit) (inputs : list (option Z)) (key : bytes)
    (g : Garbled) (k : SpecOT.KeyPair) (reqs : list (Z * bytes))
    (rest : bytes) :
  let OT := SpecOT.instance circ keygen random in
  let s0 := SpecOT.mkSender k (Wires g) 0 in
  Garble circ key = inr g ->
  keygen 2048 = inr k ->
  0 < SpecOT.keyN k ->
  IO_Size (N1 circ) + IO_Size (N2 circ) <= Z.of_nat (length (Wires g)) ->
  rd conn = Rounds.requests reqs ++ rest ->
  framable (map snd reqs) ->
  Z.of_nat (length reqs) <= IO_Size (N2 circ) ->
  (cost (@prelude OT g circ inputs s0) + 4 * length reqs
     <= wbudget conn)%nat ->
  @Garbler OT Garble conn circ inputs key =
    finish circ
      (@processMessages OT g circ
         (SpecOT.mkSender k (Wires g) (length reqs))
         (mkConn rest
            (wbudget conn - cost (@prelude OT g circ inputs s0)
             - 4 * length reqs)
            (log conn ++ @prelude OT g circ inputs s0
               ++ Rounds.servedFrom circ random k (Wires g) 0 reqs)
            (broken conn)))
  /\
  (forall i bit data,
     let x := SpecOT.receiveV (Rounds.roundXfer circ random k (Wires g) i)
                data in
     let w := wireAt (Wires g) (IO_Size (N1 circ) + Z.of_nat i) in
     SpecOT.m0 x = Bytes (Label0 w) /\
     SpecOT.m1 x = Bytes (Label1 w) /\
     Rounds.served circ random k (Wires g) i bit data =
       roundEvents (u32 bit)
         (bigBytes (SpecOT.x0 x)) (bigBytes (SpecOT.x1 x)) data
         (SpecOT.blind x (SpecOT.x0 x) (SpecOT.m0 x))
         (SpecOT.blind x (SpecOT.x1 x) (SpecOT.m1 x)))
  /\
  (forall i bit bit' data,
     filter isSend (Rounds.served circ random k (Wires g) i bit data) =
     filter isSend (Rounds.served circ random k (Wires g) i bit' data)).
Proof.
  intros OT s0 HG Hkg Hk Hw Hrd Hf Hn Hb.
  split; [|split; [intros; repeat split | intros; reflexivity]].
  pose proof (IO_Size_nonneg (N2 circ)) as H2.
  assert (Hs : @NewSender OT 2048 (Wires g) = inr s0)
    by (cbn [NewSender OT SpecOT.instance]; unfold SpecOT.newSender;
        rewrite Hkg; reflexivity).
  rewrite (@Garbler_finish OT Garble conn circ inputs key g s0 HG)
    by (assumption || lia).
  f_equal. unfold processMessages. cbn [rd].
  pose proof (requests_length reqs) as Hlen.
  assert (Hl : length (rd conn) = (length (Rounds.requests reqs)
                                   + length rest)%nat)
    by (rewrite Hrd, length_app; reflexivity).
  replace (S (length (rd conn)))
    with (length reqs + (S (length (rd conn)) - length reqs))%nat by lia.
  rewrite (SpecOT_rounds circ keygen random g k (Wires g) reqs 0 _ _ rest);
    cbn [rd wbudget log broken]; try assumption; try lia.
  - cbn [Nat.add]. rewrite <- app_assoc.
    apply messageLoop_fuel_irrel; cbn [rd]; lia.
Qed.

Lemma OT_requests_served_by_position_witness :
  let reqs := [(9, [x09]); (0, [x0a])] in
  let conn := Demo.fresh Demo.twoRounds 100 in
  fst (@Garbler Demo.ot Demo.garble conn Demo.circ [Some 2] [])
    = Return (Some [1; 0]) None /\
  map (fun i => SpecOT.m0 (Rounds.roundXfer Demo.circ
                             (fun i => Z.of_nat i + 5) Demo.keys
                             Demo.wires i)) [0; 1]%nat
    = [[x02; x10]; [x03; x10]] /\
  @Garbler Demo.ot Demo.garble conn Demo.circ [Some 2] [] =
    finish Demo.circ
      (@processMessages Demo.ot Demo.garbled Demo.circ
         (SpecOT.mkSender Demo.keys Demo.wires (length reqs))
         (mkConn Demo.resultOnly
            (wbudget conn
             - cost (@prelude Demo.ot Demo.garbled Demo.circ
                       [Some 2] Demo.sender0)
             - 4 * length reqs)
            (log conn
               ++ @prelude Demo.ot Demo.garbled Demo.circ
                    [Some 2] Demo.sender0
               ++ Rounds.servedFrom Demo.circ (fun i => Z.of_nat i + 5)
                    Demo.keys Demo.wires 0 reqs)
            (broken conn))).
Proof.
  cbv zeta. split; [vm_compute; reflexivity|].
  split; [vm_compute; reflexivity|].
  refine (proj1 (OT_requests_served_by_position Demo.garble
                   (fun _ => inr Demo.keys) (fun i => Z.of_nat i + 5)
                   (Demo.fresh Demo.twoRounds 100) Demo.circ
                   [Some 2] [] Demo.garbled Demo.keys
                   [(9, [x09]); (0, [x0a])] Demo.resultOnly
                   _ _ _ _ _ _ _ _)).
  - reflexivity.
  - reflexivity.
  - reflexivity.
  - vm_compute. discriminate.
  - reflexivity.
  - apply framable_small. reflexivity.
  - vm_compute. discriminate.
  - vm_compute. lia.
Defined.


(** * Further properties of garbler.go *)

(** ** No receive while output waits in the buffer *)












Example flushedReads_rejects_unflushed_read :
  flushedReads false [SentData [x01]; RecvUint32 1] = false /\
  flushedReads false [SentData [x01]; Flushed; RecvUint32 1] = true.
Proof. split; reflexivity. Qed.


(** ** The inputs are read at the declared width *)

Lemma selectBits_ext_range (wires : list Wire) (a b : option Z)
    (left : nat) :
  forall i w n1,
    (forall j, (i <= j < i + left)%nat -> inputBit a j = inputBit b j) ->
    selectBits wires a left i w n1 = selectBits wires b left i w n1.
Proof.
  induction left as [|left IH]; intros i w n1 H; [reflexivity|].
  cbn [selectBits]. destruct (index wires w); try reflexivity.
  rewrite (H i) by lia. apply IH. intros j Hj. apply H. lia.
Qed.

Lemma selectInputs_ext (wires : list Wire) (a b : list (option Z))
    (groups : IO) :
  forall idx w n1,
    (forall k j, (k < length groups)%nat ->
       (j < Size (nth k groups (mkIOArg 0)))%nat ->
       inputBit (inputAt a (idx + k)) j = inputBit (inputAt b (idx + k)) j) ->
    selectInputs wires groups idx a w n1 =
    selectInputs wires groups idx b w n1.
Proof.
  induction groups as [|io groups IH]; intros idx w n1 H; [reflexivity|].
  cbn [selectInputs].
  rewrite (selectBits_ext_range wires (inputAt a idx) (inputAt b idx)).
  - destruct (selectBits wires (inputAt b idx) (Size io) 0 w n1)
      as [[w' n1']| | |]; try reflexivity.
    apply IH. intros k j Hk Hj.
    replace (S idx + k)%nat with (idx + S k)%nat by lia.
    apply H; cbn [length nth]; [lia | assumption].
  - intros j Hj. specialize (H 0%nat j). rewrite Nat.add_0_r in H.
    apply H; cbn [length nth]; lia.
Qed.

Lemma inputBit_inputValue (inputs : list (option Z)) (idx j : nat) :
  inputBit (inputAt inputs idx) j =
  Z.testbit (inputValue inputs idx) (Z.of_nat j).
Proof.
  unfold inputValue. destruct (inputAt inputs idx); cbn [inputBit];
    [reflexivity | symmetry; apply Z.bits_0].
Qed.

Lemma inputAt_truncatedInputs (groups : IO) (inputs : list (option Z))
    (idx : nat) :
  (idx < length groups)%nat ->
  inputAt (truncatedInputs groups inputs) idx =
    Some (inputValue inputs idx
          mod 2 ^ Z.of_nat (Size (nth idx groups (mkIOArg 0)))).
Proof.
  intros H. unfold inputAt, truncatedInputs.
  rewrite length_map, length_seq.
  assert (E : (idx <? length groups)%nat = true) by (apply Nat.ltb_lt; lia).
  rewrite E.
  rewrite (nth_indep _ None
             (Some (inputValue inputs 0
                    mod 2 ^ Z.of_nat (Size (nth 0 groups (mkIOArg 0))))))
    by (rewrite length_map, length_seq; assumption).
  rewrite (map_nth (fun idx =>
             Some (inputValue inputs idx
                   mod 2 ^ Z.of_nat (Size (nth idx groups (mkIOArg 0)))))).
  rewrite seq_nth by assumption. reflexivity.
Qed.

(** X2. [Garbler] reads each input integer only at the bit positions of
    its group: the bits at and above the declared width are ignored (a
    negative integer counts by its two's-complement bits), integers
    beyond the last group of N1 are ignored, and a nil or missing one is
    0.  So a call behaves as the call with every input cut to its width
    ([truncatedInputs]). *)
Theorem Garbler_reads_inputs_at_declared_width {OT : OTSender}
    (Garble : Circuit -> bytes -> Error + Garbled)
    (conn : Conn) (circ : Circuit) (inputs : list (option Z)) (key : bytes) :
  Garbler Garble conn circ inputs key =
  Garbler Garble conn circ (truncatedInputs (N1 circ) inputs) key.
Proof.
  unfold Garbler. destruct (Garble circ key) as [e|g]; [reflexivity|].
  unfold session.
  rewrite (selectInputs_ext (Wires g) inputs
             (truncatedInputs (N1 circ) inputs)); [reflexivity|].
  intros k j Hk Hj. cbn [Nat.add].
  rewrite inputAt_truncatedInputs by assumption.
  rewrite inputBit_inputValue. cbn [inputBit].
  rewrite Z.mod_pow2_bits_low by lia. reflexivity.
Qed.

Example truncatedInputs_demo :
  truncatedInputs [mkIOArg 2; mkIOArg 3] [Some 14; None; Some 9] =
    [Some 2; Some 0] /\
  truncatedInputs [mkIOArg 2] [Some (-1)] = [Some 3].
Proof. split; reflexivity. Qed.

(** ** Slice accesses: when the function panics and when it cannot *)

Lemma selectInputs_short (wires : list Wire) (inputs : list (option Z))
    (groups : IO) :
  Z.of_nat (length wires) < IO_Size groups ->
  selectInputs wires groups 0 inputs 0 [] = Panic.
Proof.
  intros H.
  destruct (selectInputs_not_Err wires inputs groups 0%nat 0 []) as [HF HE].
  destruct (selectInputs wires groups 0 inputs 0 []) as [n1|e| |] eqn:E.
  - apply selectInputs_Ok_bound in E; lia.
  - destruct (HE e); reflexivity.
  - reflexivity.
  - destruct HF; reflexivity.
Qed.

(** X3. A garbled circuit with fewer wires than the circuit has Garbler
    input bits makes [Garbler] panic (index out of range in the input
    selection): once all the tables are sent, and before any input label
    or the key is sent. *)
Theorem Garbler_panics_without_input_wires {OT : OTSender}
    (Garble : Circuit -> bytes -> Error + Garbled)
    (conn : Conn) (circ : Circuit) (inputs : list (option Z)) (key : bytes)
    (g : Garbled) :
  Garble circ key = inr g ->
  Z.of_nat (length (Wires g)) < IO_Size (N1 circ) ->
  (cost (tableStream (Gates g)) <= wbudget conn)%nat ->
  Garbler Garble conn circ inputs key =
    (Panics,
     mkConn (rd conn) (wbudget conn - cost (tableStream (Gates g)))
       (log conn ++ tableStream (Gates g)) (broken conn)).
Proof.
  intros HG Hw Hb. rewrite (Garbler_run _ _ _ _ _ _ HG).
  rewrite (session_tables _ _ _ _ Hb). unfold afterTables.
  rewrite (selectInputs_short _ _ _ Hw). reflexivity.
Qed.

Lemma Garbler_panics_without_input_wires_witness :
  let g := mkGarbled [mkWire (Demo.lbl x00 x10) (Demo.lbl x00 x11)] [[[xaa]]; []] in
  let conn := Demo.fresh Demo.resultOnly 100 in
  @Garbler Demo.ot (fun _ _ => inr g) conn Demo.circ [Some 3] [] =
    (Panics,
     mkConn (rd conn) (wbudget conn - cost (tableStream (Gates g)))
       (log conn ++ tableStream (Gates g)) (broken conn)).
Proof.
  intros g conn.
  apply (@Garbler_panics_without_input_wires Demo.ot (fun _ _ => inr g)
           conn Demo.circ [Some 3] [] g).
  - reflexivity.
  - vm_compute. reflexivity.
  - vm_compute. lia.
Defined.

Lemma nopanic_ret {A} (a : A) : nopanic (ret a).
Proof. intros c. discriminate. Qed.

Lemma nopanic_bind {A B} (m : M A) (k : A -> M B) :
  nopanic m -> (forall a, nopanic (k a)) -> nopanic (bind m k).
Proof.
  intros Hm Hk c. unfold bind. specialize (Hm c).
  destruct (m c) as [[a|e| |] c1]; cbn [fst] in *;
    [apply Hk | discriminate | congruence | discriminate].
Qed.

Lemma nopanic_liftE {A} (r : Error + A) : nopanic (liftE r).
Proof. intros c. unfold liftE. destruct r; discriminate. Qed.

Lemma nopanic_liftR {A} (r : Res A) : r <> Panic -> nopanic (liftR r).
Proof. intros H c. exact H. Qed.

Lemma nopanic_sendData (d : bytes) : nopanic (sendData d).
Proof. intros c. unfold sendData. destruct (wbudget c); discriminate. Qed.

Lemma nopanic_sendUint32 (v : Z) : nopanic (sendUint32 v).
Proof. intros c. unfold sendUint32. destruct (wbudget c); discriminate. Qed.

Lemma nopanic_Flush : nopanic Flush.
Proof. intros c. discriminate. Qed.

Lemma nopanic_receiveUint32 : nopanic receiveUint32.
Proof.
  intros c. unfold receiveUint32.
  destruct (rd c) as [|b0 [|b1 [|b2 [|b3 rest]]]]; discriminate.
Qed.

Lemma nopanic_receiveData : nopanic receiveData.
Proof.
  intros c. unfold receiveData.
  destruct (rd c) as [|b0 [|b1 [|b2 [|b3 rest]]]]; try discriminate.
  cbv zeta. destruct (_ <=? _)%nat; discriminate.
Qed.

Create HintDb nopanic.

#[local] Hint Resolve nopanic_ret nopanic_liftE nopanic_sendData
  nopanic_sendUint32 nopanic_Flush nopanic_receiveUint32
  nopanic_receiveData : nopanic.

Ltac nopanic_step :=
  repeat first
    [ apply nopanic_bind; [|intros ?]
    | progress auto with nopanic
    | match goal with |- nopanic (let '(_, _) := ?p in _) =>
        destruct p end ].

Lemma nopanic_sendRows (data : list bytes) : nopanic (sendRows data).
Proof. induction data; cbn [sendRows]; nopanic_step. Qed.

Lemma nopanic_sendInputs (n1 : list bytes) : nopanic (sendInputs n1).
Proof. induction n1; cbn [sendInputs]; nopanic_step. Qed.

Lemma nopanic_sendTables (gates : list (list bytes)) :
  forall id, nopanic (sendTables id gates).
Proof.
  induction gates; intros id; cbn [sendTables]; nopanic_step.
  apply nopanic_sendRows.
Qed.

Lemma nopanic_otRound {OT : OTSender} (s : Sender) : nopanic (otRound s).
Proof. unfold otRound. nopanic_step. Qed.

Lemma decodeLabel_nopanic (label : bytes) (wire : Wire) (i : Z) :
  decodeLabel label wire i <> Panic.
Proof.
  unfold decodeLabel.
  destruct (bytes_eqb label (Bytes (Label0 wire))); [discriminate|].
  destruct (bytes_eqb label (Bytes (Label1 wire))); discriminate.
Qed.

Lemma index_in_range {A} (xs : list A) (i : Z) :
  0 <= i < Z.of_nat (length xs) -> index xs i <> Panic.
Proof.
  intros H. unfold index. destruct (i <? 0) eqn:E; [lia|].
  destruct (nth_error xs (Z.to_nat i)) eqn:N; [discriminate|].
  apply nth_error_None in N. lia.
Qed.

Lemma nopanic_decodeResult (g : Garbled) (circ : Circuit) (left : nat) :
  forall i result,
    0 <= outputBase circ + i ->
    outputBase circ + i + Z.of_nat left <= Z.of_nat (length (Wires g)) ->
    nopanic (decodeResult g circ left i result).
Proof.
  unfold outputBase.
  induction left as [|left IH]; intros i result H0 H1; cbn [decodeResult];
    nopanic_step.
  - apply nopanic_liftR, index_in_range. lia.
  - apply nopanic_liftR, decodeLabel_nopanic.
  - apply IH; lia.
Qed.

Lemma nopanic_opResult (g : Garbled) (circ : Circuit) (result : Z) :
  0 <= outputBase circ ->
  NumWires circ <= Z.of_nat (length (Wires g)) ->
  nopanic (opResult g circ result).
Proof.
  intros H0 H1. unfold opResult. nopanic_step.
  apply nopanic_decodeResult; [lia|].
  pose proof (IO_Size_nonneg (N3 circ)). unfold outputBase in *. lia.
Qed.

Lemma nopanic_messageLoop {OT : OTSender} (g : Garbled) (circ : Circuit)
    (fuel : nat) :
  0 <= outputBase circ ->
  NumWires circ <= Z.of_nat (length (Wires g)) ->
  forall s result, nopanic (messageLoop fuel g circ s result).
Proof.
  intros H0 H1.
  induction fuel as [|fuel IH]; intros s result; cbn [messageLoop].
  - intros c. discriminate.
  - apply nopanic_bind; [apply nopanic_receiveUint32 | intros op].
    destruct (op =? OP_OT).
    + apply nopanic_bind; [apply nopanic_otRound | intros s'; apply IH].
    + destruct (op =? OP_RESULT);
        [apply nopanic_opResult; assumption | apply IH].
Qed.

Lemma nopanic_session {OT : OTSender} (g : Garbled) (circ : Circuit)
    (inputs : list (option Z)) :
  IO_Size (N1 circ) <= Z.of_nat (length (Wires g)) ->
  0 <= outputBase circ ->
  NumWires circ <= Z.of_nat (length (Wires g)) ->
  nopanic (session g circ inputs).
Proof.
  intros HN1 H0 H1. unfold session.
  apply nopanic_bind; [apply nopanic_sendTables | intros _].
  apply nopanic_bind.
  { apply nopanic_liftR. rewrite (selectInputs_run _ _ _ HN1). discriminate. }
  intros n1.
  apply nopanic_bind; [apply nopanic_sendInputs | intros _].
  apply nopanic_bind; [apply nopanic_liftE | intros s].
  apply nopanic_bind; [unfold sendPublicKey; nopanic_step | intros _].
  apply nopanic_bind; [|intros z; apply nopanic_ret].
  intros c. unfold processMessages. apply nopanic_messageLoop; assumption.
Qed.

(** X4. When the garbled circuit has a wire for every Garbler input bit
    and the output wires [NumWires - |N3| .. NumWires - 1] of the circuit
    are wires of the garbled circuit, no slice access of [Garbler] is out
    of range: whatever the peer sends and whatever the OT sender answers,
    the call does not panic. *)
Theorem Garbler_indexes_in_range {OT : OTSender}
    (Garble : Circuit -> bytes -> Error + Garbled)
    (conn : Conn) (circ : Circuit) (inputs : list (option Z)) (key : bytes)
    (g : Garbled) :
  Garble circ key = inr g ->
  IO_Size (N1 circ) <= Z.of_nat (length (Wires g)) ->
  IO_Size (N3 circ) <= NumWires circ ->
  NumWires circ <= Z.of_nat (length (Wires g)) ->
  fst (Garbler Garble conn circ inputs key) <> Panics.
Proof.
  intros HG HN1 H0 H1. rewrite (Garbler_run _ _ _ _ _ _ HG). cbn [fst].
  assert (HP : fst (session g circ inputs conn) <> Panic).
  { apply nopanic_session; [assumption | unfold outputBase; lia | assumption]. }
  destruct (fst (session g circ inputs conn)); cbn [goReturn];
    [discriminate | discriminate | congruence | discriminate].
Qed.

Lemma Garbler_indexes_in_range_witness :
  fst (@Garbler Demo.ot Demo.garble (Demo.fresh Demo.badLabel 100)
         Demo.circ [Some 2] []) <> Panics.
Proof.
  apply (@Garbler_indexes_in_range Demo.ot Demo.garble
           (Demo.fresh Demo.badLabel 100) Demo.circ [Some 2] []
           Demo.garbled).
  - reflexivity.
  - vm_compute. discriminate.
  - vm_compute. discriminate.
  - vm_compute. discriminate.
Defined.

Lemma index_out_of_range {A} (xs : list A) (i : Z) :
  i < 0 \/ Z.of_nat (length xs) <= i -> index xs i = Panic.
Proof.
  intros H. unfold index. destruct (i <? 0) eqn:E; [reflexivity|].
  destruct (nth_error xs (Z.to_nat i)) eqn:N; [|reflexivity].
  assert (Hn : nth_error xs (Z.to_nat i) <> None) by congruence.
  apply nth_error_Some in Hn. lia.
Qed.

(** X5. The output wires are looked up at [NumWires - |N3| + i] without a
    check: when the first of them is not a wire of the garbled circuit,
    the result exchange panics, after the whole prelude and once the
    first label has been read, and nothing is sent back. *)
Theorem Garbler_panics_without_output_wire {OT : OTSender}
    (Garble : Circuit -> bytes -> Error + Garbled)
    (conn : Conn) (circ : Circuit) (inputs : list (option Z)) (key : bytes)
    (g : Garbled) (s : Sender) (label rest : bytes) :
  Garble circ key = inr g ->
  IO_Size (N1 circ) <= Z.of_nat (length (Wires g)) ->
  NewSender 2048 (Wires g) = inr s ->
  (cost (prelude g circ inputs s) <= wbudget conn)%nat ->
  rd conn = enc_u32 OP_RESULT ++ frame label ++ rest ->
  Z.of_nat (length label) < 2 ^ 32 ->
  0 < IO_Size (N3 circ) ->
  outputBase circ < 0 \/ Z.of_nat (length (Wires g)) <= outputBase circ ->
  Garbler Garble conn circ inputs key =
    (Panics,
     mkConn rest (wbudget conn - cost (prelude g circ inputs s))
       (log conn ++ prelude g circ inputs s
          ++ [RecvUint32 OP_RESULT; RecvData label])
       (broken conn)).
Proof.
  intros HG HN1 Hs Hb Hrd Hlen HN3 Hout.
  apply (Garbler_loop Garble conn circ inputs key g s Panic _ HG HN1 Hs Hb).
  rewrite (messageLoop_step g circ _ s 0 _ OP_RESULT (frame label ++ rest))
    by exact Hrd.
  rewrite u32_OP_RESULT. cbn [Z.eqb OP_RESULT OP_OT Pos.eqb].
  unfold opResult.
  destruct (Z.to_nat (IO_Size (N3 circ))) as [|left] eqn:EN; [lia|].
  cbn [decodeResult]. unfold bind at 1. unfold bind at 1.
  rewrite (receiveData_frame label rest) by (reflexivity || assumption).
  unfold bind at 1. unfold liftR at 1.
  rewrite Z.add_0_r. fold (outputBase circ).
  rewrite (index_out_of_range _ _ Hout). cbn [wbudget log broken].
  rewrite <- !app_assoc. reflexivity.
Qed.

Lemma Garbler_panics_without_output_wire_witness :
  let circ := mkCircuit 8 [mkIOArg 2] [mkIOArg 2] [mkIOArg 1; mkIOArg 1] in
  let conn := Demo.fresh Demo.resultOnly 100 in
  @Garbler Demo.ot Demo.garble conn circ [Some 2] [] =
    (Panics,
     mkConn [x00; x00; x00; x02; x05; x10]
       (wbudget conn - cost (@prelude Demo.ot Demo.garbled circ [Some 2]
                               Demo.sender0))
       (log conn ++ @prelude Demo.ot Demo.garbled circ [Some 2] Demo.sender0
          ++ [RecvUint32 OP_RESULT; RecvData [x04; x11]])
       (broken conn)).
Proof.
  intros circ conn.
  apply (@Garbler_panics_without_output_wire Demo.ot Demo.garble conn circ
           [Some 2] [] Demo.garbled Demo.sender0 [x04; x11]
           [x00; x00; x00; x02; x05; x10]).
  - reflexivity.
  - vm_compute. discriminate.
  - reflexivity.
  - vm_compute. lia.
  - reflexivity.
  - reflexivity.
  - reflexivity.
  - right. vm_compute. discriminate.
Defined.

(** ** The result frame *)

Lemma Z_of_bytes_acc_app (x y : bytes) :
  forall a,
    SpecOT.Z_of_bytes_acc a (x ++ y) =
    SpecOT.Z_of_bytes_acc (SpecOT.Z_of_bytes_acc a x) y.
Proof.
  induction x as [|b x IH]; intros a; cbn [app SpecOT.Z_of_bytes_acc];
    [reflexivity | apply IH].
Qed.

Lemma be_bytes_acc (fuel : nat) :
  forall n acc, be_bytes fuel n acc = be_bytes fuel n [] ++ acc.
Proof.
  induction fuel as [|fuel IH]; intros n acc; cbn [be_bytes];
    [reflexivity|].
  destruct (n =? 0); [reflexivity|].
  rewrite (IH _ (byte_of_Z n :: acc)), (IH _ [byte_of_Z n]).
  rewrite <- app_assoc. reflexivity.
Qed.

Lemma be_bytes_value (fuel : nat) :
  forall n,
    0 <= n < 256 ^ Z.of_nat fuel ->
    SpecOT.Z_of_bytes (be_bytes fuel n []) = n.
Proof.
  unfold SpecOT.Z_of_bytes.
  induction fuel as [|fuel IH]; intros n Hn; cbn [be_bytes].
  - cbn [SpecOT.Z_of_bytes_acc]. change (256 ^ Z.of_nat 0) with 1 in Hn. lia.
  - destruct (n =? 0) eqn:E; [cbn [SpecOT.Z_of_bytes_acc]; lia|].
    rewrite be_bytes_acc, Z_of_bytes_acc_app, IH.
    + cbn [SpecOT.Z_of_bytes_acc]. rewrite Z_of_byte_of_Z.
      Z.div_mod_to_equations. lia.
    + rewrite Nat2Z.inj_succ, Z.pow_succ_r in Hn by lia.
      Z.div_mod_to_equations. nia.
Qed.

Lemma be_bytes_length (fuel : nat) :
  forall n bits,
    0 <= bits -> 0 <= n < 2 ^ bits ->
    Z.of_nat (length (be_bytes fuel n [])) * 8 < bits + 8.
Proof.
  induction fuel as [|fuel IH]; intros n bits Hb Hn; cbn [be_bytes].
  - cbn [length]. lia.
  - destruct (n =? 0) eqn:E; [cbn [length]; lia|].
    apply Z.eqb_neq in E.
    rewrite be_bytes_acc, length_app. cbn [length].
    destruct (Z_lt_le_dec bits 8) as [Hs|Hl].
    + assert (Hq : n / 256 = 0).
      { apply Z.div_small. split; [lia|].
        apply Z.lt_le_trans with (2 ^ bits); [lia|].
        change 256 with (2 ^ 8). apply Z.pow_le_mono_r; lia. }
      rewrite Hq.
      assert (H0 : be_bytes fuel 0 [] = []) by (destruct fuel; reflexivity).
      rewrite H0. cbn [length].
      assert (bits <> 0) by (intros ->; change (2 ^ 0) with 1 in Hn; lia).
      lia.
    + assert (Hq : 0 <= n / 256 < 2 ^ (bits - 8)).
      { split; [apply Z.div_pos; lia|].
        apply Z.div_lt_upper_bound; [lia|].
        change 256 with (2 ^ 8). rewrite <- Z.pow_add_r by lia.
        replace (8 + (bits - 8)) with bits by lia. lia. }
      specialize (IH (n / 256) (bits - 8) ltac:(lia) Hq). lia.
Qed.

Lemma bigBytes_fuel (z : Z) :
  0 <= z -> 0 <= z < 256 ^ Z.of_nat (S (Z.to_nat (Z.log2 z))).
Proof.
  intros Hz. split; [assumption|].
  destruct (Z.eq_dec z 0) as [->|Hnz]; [reflexivity|].
  pose proof (Z.log2_nonneg z) as Hl.
  rewrite Nat2Z.inj_succ, Z2Nat.id by assumption.
  apply Z.lt_le_trans with (2 ^ Z.succ (Z.log2 z)).
  - apply Z.log2_spec. lia.
  - apply Z.pow_le_mono_l. lia.
Qed.

Lemma bigBytes_value (z : Z) :
  0 <= z -> SpecOT.Z_of_bytes (bigBytes z) = z.
Proof.
  intros Hz. unfold bigBytes. rewrite Z.abs_eq by assumption.
  apply be_bytes_value, bigBytes_fuel, Hz.
Qed.

Lemma bigBytes_length (z bits : Z) :
  0 <= bits -> 0 <= z < 2 ^ bits ->
  Z.of_nat (length (bigBytes z)) * 8 < bits + 8.
Proof.
  intros Hb Hz. unfold bigBytes. rewrite Z.abs_eq by lia.
  apply be_bytes_length; assumption.
Qed.

Lemma bits_bound (z bits : Z) :
  0 <= bits ->
  (forall k, k < 0 \/ bits <= k -> Z.testbit z k = false) ->
  0 <= z < 2 ^ bits.
Proof.
  intros Hb H.
  assert (Hz : 0 <= z).
  { apply Z.bits_iff_nonneg_ex. exists bits. intros m Hm. apply H. lia. }
  split; [assumption|].
  destruct (Z.eq_dec z 0) as [->|Hnz]; [apply Z.pow_pos_nonneg; lia|].
  apply Z.log2_lt_pow2; [lia|].
  destruct (Z_lt_le_dec (Z.log2 z) bits) as [Hl|Hl]; [assumption|].
  assert (Ht : Z.testbit z (Z.log2 z) = true) by (apply Z.bit_log2; lia).
  rewrite H in Ht by lia. discriminate.
Qed.

(** X6. When [Garbler] returns outputs, the last frame it has sent
    carries the result integer [z] whose split is returned: [z] lies in
    [0 .. 2^|N3| - 1], the frame is at most |N3|/8 bytes, rounded up
    (none for [z = 0]), and read back big-endian it gives [z]. *)
Theorem Garbler_result_frame_carries_the_result {OT : OTSender}
    (Garble : Circuit -> bytes -> Error + Garbled)
    (conn : Conn) (circ : Circuit) (inputs : list (option Z)) (key : bytes)
    (outputs : list Z) :
  fst (Garbler Garble conn circ inputs key) = Return (Some outputs) None ->
  exists z p,
    outputs = IO_Split (N3 circ) z /\
    log (snd (Garbler Garble conn circ inputs key)) =
      p ++ [SentData (bigBytes z); Flushed] /\
    0 <= z < 2 ^ IO_Size (N3 circ) /\
    SpecOT.Z_of_bytes (bigBytes z) = z /\
    Z.of_nat (length (bigBytes z)) * 8 < IO_Size (N3 circ) + 8.
Proof.
  unfold Garbler. destruct (Garble circ key) as [e|g] eqn:HG;
    [intros H; discriminate|].
  destruct (session g circ inputs conn) as [r c'] eqn:E. cbn [fst snd].
  destruct r as [outs| | |]; try discriminate.
  intros H. inversion H; subst outs.
  destruct (session_trace _ _ _ _ _ _ E) as (p & Hlog & _ & HOk).
  destruct (HOk outputs eq_refl)
    as (s & pre & labels & z & _ & -> & _ & Hd & Ho).
  destruct Hd as (_ & _ & Hbits).
  pose proof (IO_Size_nonneg (N3 circ)) as HN.
  pose proof (bits_bound z _ HN Hbits) as Hz.
  exists z, (log conn ++ tableStream (Gates g)
               ++ map SentData (inputLabels (Wires g) (N1 circ) inputs)
               ++ keyStream (SenderPublicKey s) ++ pre
               ++ RecvUint32 OP_RESULT :: map RecvData labels).
  split; [assumption|]. split.
  { rewrite Hlog. unfold resultEvents. rewrite <- !app_assoc.
    cbn [app]. rewrite <- ?app_assoc. reflexivity. }
  split; [assumption|]. split.
  - apply bigBytes_value. lia.
  - apply bigBytes_length; assumption.
Qed.

Lemma Garbler_result_frame_carries_the_result_witness :
  let run := @Garbler Demo.ot Demo.garble
               (Demo.fresh Demo.twoRounds 100) Demo.circ [Some 2] [] in
  exists z p,
    [1; 0] = IO_Split (N3 Demo.circ) z /\
    log (snd run) = p ++ [SentData (bigBytes z); Flushed] /\
    0 <= z < 2 ^ IO_Size (N3 Demo.circ) /\
    SpecOT.Z_of_bytes (bigBytes z) = z /\
    Z.of_nat (length (bigBytes z)) * 8 < IO_Size (N3 Demo.circ) + 8.
Proof.
  refine (@Garbler_result_frame_carries_the_result Demo.ot Demo.garble
            (Demo.fresh Demo.twoRounds 100) Demo.circ [Some 2] []
            [1; 0] _).
  vm_compute. reflexivity.
Defined.

(** ** The size of the transfer *)

Ltac u64_solve :=
  unfold u64 in *; change (2 ^ 64) with 18446744073709551616 in *;
  Z.div_mod_to_equations; lia.

Lemma u64_u64 (v : Z) : u64 (u64 v) = u64 v.
Proof. unfold u64. apply Z.mod_mod. lia. Qed.

Lemma wireLength_nil : wireLength [] = 0.
Proof. reflexivity. Qed.

Lemma wireLength_app (a b : list Event) :
  wireLength (a ++ b) = wireLength a + wireLength b.
Proof.
  unfold wireLength, sentBytes. rewrite flat_map_app, length_app. lia.
Qed.

Lemma wireLength_SentData (d : bytes) (evs : list Event) :
  wireLength (SentData d :: evs) = 4 + Z.of_nat (length d) + wireLength evs.
Proof.
  unfold wireLength, sentBytes. cbn [flat_map wireBytes].
  unfold frame, enc_u32. rewrite !length_app. cbn [length]. lia.
Qed.

Lemma wireLength_SentUint32 (v : Z) (evs : list Event) :
  wireLength (SentUint32 v :: evs) = 4 + wireLength evs.
Proof.
  unfold wireLength, sentBytes. cbn [flat_map wireBytes].
  unfold enc_u32. rewrite length_app. cbn [length]. lia.
Qed.

Lemma wireLength_Flushed (evs : list Event) :
  wireLength (Flushed :: evs) = wireLength evs.
Proof. reflexivity. Qed.

Lemma sizedAs_ret (size : Z) : sizedAs (ret size) (ret tt) size 0.
Proof.
  intros c. cbn. exists size.
  split; [reflexivity | split; [f_equal; lia | auto]].
Qed.

Lemma sizedAs_seq (s : M unit) (m : M Z) (u : M unit) (size1 n1 size n : Z) :
  sizedAs m u size1 n1 ->
  u64 size1 = size1 ->
  u64 (size1 + n1) = u64 (size + n) ->
  sizedAs (s ;; m) (s ;; u) size n.
Proof.
  intros H H1 Hn c. unfold bind.
  destruct (s c) as [[[]|e| |] c1]; try reflexivity.
  specialize (H c1). destruct (u c1) as [[[]|e| |] c2]; try assumption.
  destruct H as (size' & E & Hs & Hr). exists size'.
  split; [assumption | split; [congruence | auto]].
Qed.

Lemma sizedAs_bind (m1 : M Z) (u1 : M unit) (k : Z -> M Z) (u2 : M unit)
    (size n1 n2 : Z) :
  sizedAs m1 u1 size n1 ->
  (forall size1, sizedAs (k size1) u2 size1 n2) ->
  sizedAs (bind m1 k) (u1 ;; u2) size (n1 + n2).
Proof.
  intros H1 H2 c. unfold bind. specialize (H1 c).
  destruct (u1 c) as [[[]|e| |] c1]; try (rewrite H1; reflexivity).
  destruct H1 as (size1 & E1 & Hs1 & Hr1). rewrite E1.
  specialize (H2 size1 c1).
  destruct (u2 c1) as [[[]|e| |] c2]; try assumption.
  destruct H2 as (size2 & E2 & Hs2 & Hr2). exists size2.
  split; [assumption | split; [|auto]].
  rewrite Hs2. clear - Hs1. u64_solve.
Qed.

Lemma sizedAs_sendRows (data : list bytes) :
  forall size,
    sizedAs (sendRowsSized size data) (sendRows data) size
      (wireLength (map SentData data)).
Proof.
  induction data as [|d data IH]; intros size;
    cbn [sendRowsSized sendRows map].
  - apply sizedAs_ret.
  - eapply sizedAs_seq; [apply IH | apply u64_u64|].
    rewrite wireLength_SentData. u64_solve.
Qed.

Lemma sizedAs_sendInputs (n1 : list bytes) :
  forall size,
    sizedAs (sendInputsSized size n1) (sendInputs n1) size
      (wireLength (map SentData n1)).
Proof.
  induction n1 as [|d n1 IH]; intros size;
    cbn [sendInputsSized sendInputs map].
  - apply sizedAs_ret.
  - eapply sizedAs_seq; [apply IH | apply u64_u64|].
    rewrite wireLength_SentData. u64_solve.
Qed.

Lemma tableFrom_cons (id : nat) (data : list bytes)
    (gates : list (list bytes)) :
  tableFrom id (data :: gates) = gateRecord id data ++ tableFrom (S id) gates.
Proof. reflexivity. Qed.

Lemma sizedAs_sendTables (gates : list (list bytes)) :
  forall id k size,
    sizedAs (sendTablesSized id size gates) (sendTables id gates) size
      (wireLength (tableFrom k gates)).
Proof.
  induction gates as [|data gates IH]; intros id k size;
    cbn [sendTablesSized sendTables].
  - apply sizedAs_ret.
  - rewrite tableFrom_cons, wireLength_app. unfold gateRecord.
    rewrite !wireLength_SentUint32.
    apply (sizedAs_seq _ _ _ (u64 (u64 (size + 4) + 4))
             (wireLength (map SentData data)
              + wireLength (tableFrom (S k) gates)));
      [|apply u64_u64 | u64_solve].
    eapply sizedAs_seq; [|apply u64_u64 | reflexivity].
    apply sizedAs_bind; [apply sizedAs_sendRows|].
    intros size1. apply IH.
Qed.

Lemma sizedAs_Flush_ret (size : Z) :
  sizedAs (Flush ;; ret size) Flush size 0.
Proof.
  intros c. cbn. exists size.
  split; [reflexivity | split; [f_equal; lia | auto]].
Qed.

Lemma sizedAs_sendPublicKey {OT : OTSender} (s : Sender) (size : Z) :
  sizedAs (sendPublicKeySized size s) (sendPublicKey s) size
    (wireLength (keyStream (SenderPublicKey s))).
Proof.
  unfold sendPublicKeySized, sendPublicKey, keyStream.
  rewrite wireLength_SentData, wireLength_SentUint32, wireLength_Flushed,
    wireLength_nil.
  set (len := Z.of_nat (length (bigBytes (pkN (SenderPublicKey s))))).
  apply (sizedAs_seq _ _ _ (u64 (u64 (size + u64 (4 + len)) + 4)) 0);
    [|apply u64_u64 | u64_solve].
  apply (sizedAs_seq _ _ _ (u64 (u64 (size + u64 (4 + len)) + 4)) 0);
    [|apply u64_u64 | reflexivity].
  apply sizedAs_Flush_ret.
Qed.

(** [transfer] is the beginning of [session]: the sends and the failures
    are the same, with the size carried along. *)
Lemma session_transfer {OT : OTSender} (g : Garbled) (circ : Circuit)
    (inputs : list (option Z)) (c : Conn) :
  session g circ inputs c =
    (x <- transfer g circ inputs ;; afterKey g circ (fst x)) c.
Proof.
  unfold session, transfer, afterKey, bind.
  pose proof (sizedAs_sendTables (Gates g) 0 0%nat 0 c) as H1.
  destruct (sendTables 0 (Gates g) c) as [[[]|e| |] c1];
    [destruct H1 as (size1 & -> & _ & _) | rewrite H1; reflexivity ..].
  unfold liftR.
  destruct (selectInputs (Wires g) (N1 circ) 0 inputs 0 []) as [n1|e| |];
    try reflexivity.
  pose proof (sizedAs_sendInputs n1 size1 c1) as H2.
  destruct (sendInputs n1 c1) as [[[]|e| |] c2];
    [destruct H2 as (size2 & -> & _ & _) | rewrite H2; reflexivity ..].
  unfold liftE.
  destruct (NewSender 2048 (Wires g)) as [e|s]; [reflexivity|].
  pose proof (sizedAs_sendPublicKey s size2 c2) as H3.
  destruct (sendPublicKey s c2) as [[[]|e| |] c3];
    [destruct H3 as (size3 & -> & _ & _) | rewrite H3; reflexivity ..].
  reflexivity.
Qed.

(** X7. The size that [Garbler] has counted when the key is out (the
    one it prints in verbose mode) is the number of bytes it has put on
    the connection up to there: for every gate 8 bytes and its framed
    rows, then the framed input labels, the framed modulus and 4 bytes
    of exponent; counted modulo 2^64. *)
Theorem transfer_size_counts_bytes_sent {OT : OTSender}
    (g : Garbled) (circ : Circuit) (inputs : list (option Z)) (s : Sender)
    (c : Conn) :
  IO_Size (N1 circ) <= Z.of_nat (length (Wires g)) ->
  NewSender 2048 (Wires g) = inr s ->
  (cost (prelude g circ inputs s) <= wbudget c)%nat ->
  transfer g circ inputs c =
    (Ok (s, u64 (Z.of_nat (length (sentBytes (prelude g circ inputs s))))),
     mkConn (rd c) (wbudget c - cost (prelude g circ inputs s))
       (log c ++ prelude g circ inputs s) (broken c)).
Proof.
  unfold prelude. intros Hw Hs Hb. rewrite !cost_app in Hb.
  set (T := tableStream (Gates g)) in *.
  set (I := map SentData (inputLabels (Wires g) (N1 circ) inputs)) in *.
  set (K := keyStream (SenderPublicKey s)) in *.
  unfold transfer. unfold bind at 1.
  pose proof (sizedAs_sendTables (Gates g) 0 0%nat 0 c) as H1.
  rewrite (emits_run _ _ c (emits_sendTables _)) in H1 by (fold T; lia).
  destruct H1 as (size1 & -> & Hs1 & Hr1). fold T. fold T in Hs1.
  unfold bind at 1. unfold liftR at 1.
  rewrite (selectInputs_run _ _ _ Hw).
  unfold bind at 1.
  set (c1 := mkConn (rd c) (wbudget c - cost T) (log c ++ T) (broken c)).
  pose proof (sizedAs_sendInputs
                (inputLabels (Wires g) (N1 circ) inputs) size1 c1) as H2.
  rewrite (emits_run _ _ c1 (emits_sendInputs _)) in H2
    by (fold I; cbn [c1 wbudget]; lia).
  destruct H2 as (size2 & -> & Hs2 & Hr2). fold I. fold I in Hs2.
  unfold bind at 1. unfold liftE at 1. rewrite Hs.
  unfold bind at 1.
  set (c2 := mkConn (rd c1) (wbudget c1 - cost I) (log c1 ++ I) (broken c1)).
  pose proof (sizedAs_sendPublicKey s size2 c2) as H3.
  rewrite (emits_run _ _ c2 (emits_sendPublicKey s)) in H3
    by (fold K; cbn [c2 c1 wbudget]; lia).
  destruct H3 as (size3 & -> & Hs3 & Hr3). fold K. fold K in Hs3.
  unfold ret. cbn [c2 c1 rd wbudget log broken].
  assert (Hsize : size3 =
            u64 (Z.of_nat (length (sentBytes (T ++ I ++ K))))).
  { fold (wireLength (T ++ I ++ K)). rewrite !wireLength_app.
    assert (R1 : u64 size1 = size1) by (apply Hr1; reflexivity).
    assert (R3 : u64 size3 = size3) by auto.
    rewrite <- R3. clear - Hs1 Hs2 Hs3.
    change (wireLength (tableFrom 0 (Gates g))) with (wireLength T) in Hs1.
    u64_solve. }
  rewrite Hsize, !cost_app, <- !app_assoc. f_equal. f_equal. lia.
Qed.

Lemma transfer_size_counts_bytes_sent_witness :
  let c := Demo.fresh Demo.resultOnly 100 in
  @transfer Demo.ot Demo.garbled Demo.circ [Some 2] c =
    (Ok (Demo.sender0,
         u64 (Z.of_nat (length (sentBytes (@prelude Demo.ot Demo.garbled
                                             Demo.circ [Some 2]
                                             Demo.sender0))))),
     mkConn (rd c)
       (wbudget c - cost (@prelude Demo.ot Demo.garbled Demo.circ [Some 2]
                            Demo.sender0))
       (log c ++ @prelude Demo.ot Demo.garbled Demo.circ [Some 2]
                   Demo.sender0)
       (broken c)).
Proof.
  intros c.
  apply (@transfer_size_counts_bytes_sent Demo.ot Demo.garbled Demo.circ
           [Some 2] Demo.sender0 c).
  - vm_compute. discriminate.
  - reflexivity.
  - vm_compute. lia.
Defined.

Example transfer_size_demo :
  fst (@transfer Demo.ot Demo.garbled Demo.circ [Some 2]
         (Demo.fresh Demo.resultOnly 100)) = Ok (Demo.sender0, 52).
Proof. vm_compute. reflexivity. Qed.

(** ** Printing a size *)

Example FileSize_String_edges :
  FileSize_String 0 = "0 B"%string /\
  FileSize_String 1000 = "1000 B"%string /\
  FileSize_String 1001 = "1 kB"%string /\
  FileSize_String 1999 = "1 kB"%string /\
  FileSize_String 1000000 = "1000 kB"%string /\
  FileSize_String 1000001 = "1 MB"%string /\
  FileSize_String (2 ^ 64 - 1) = "18446744 TB"%string.
Proof. repeat split; reflexivity. Qed.

(** X8. [FileSize.String] prints a whole number of one of the units B,
    kB, MB, GB, TB (powers of 1000), rounded down.  The thresholds are
    strict, so that the number is at least 1 in every unit but B and at
    most 1000 in every unit but TB: exactly 1000 bytes print as
    [1000 B], not as [1 kB]. *)
Theorem FileSize_String_rounds_down (s : Z) :
  0 <= s < 2 ^ 64 ->
  exists q unit suffix,
    In (unit, suffix) sizeUnits /\
    FileSize_String s = String.append (formatUint q) suffix /\
    q * unit <= s < (q + 1) * unit /\
    (1 < unit -> 1 <= q) /\
    (unit < 1000000000000 -> q <= 1000).
Proof.
  intros Hs. unfold FileSize_String, sizeUnits.
  change (1000 * 1000 * 1000 * 1000) with 1000000000000.
  change (1000 * 1000 * 1000) with 1000000000.
  change (1000 * 1000) with 1000000.
  destruct (s >? 1000000000000) eqn:E4;
    [|destruct (s >? 1000000000) eqn:E3;
      [|destruct (s >? 1000000) eqn:E2;
        [|destruct (s >? 1000) eqn:E1]]];
    rewrite ?Z.gtb_ltb, ?Z.ltb_lt, ?Z.ltb_ge in *.
  - exists (s / 1000000000000), 1000000000000, " TB"%string.
    split; [cbn; tauto|]. split; [reflexivity|].
    Z.div_mod_to_equations. lia.
  - exists (s / 1000000000), 1000000000, " GB"%string.
    split; [cbn; tauto|]. split; [reflexivity|].
    Z.div_mod_to_equations. lia.
  - exists (s / 1000000), 1000000, " MB"%string.
    split; [cbn; tauto|]. split; [reflexivity|].
    Z.div_mod_to_equations. lia.
  - exists (s / 1000), 1000, " kB"%string.
    split; [cbn; tauto|]. split; [reflexivity|].
    Z.div_mod_to_equations. lia.
  - exists s, 1, " B"%string.
    split; [cbn; tauto|]. split; [reflexivity|]. lia.
Qed.

Lemma FileSize_String_rounds_down_witness :
  exists q unit suffix,
    In (unit, suffix) sizeUnits /\
    FileSize_String 1000000 = String.append (formatUint q) suffix /\
    q * unit <= 1000000 < (q + 1) * unit /\
    (1 < unit -> 1 <= q) /\
    (unit < 1000000000000 -> q <= 1000).
Proof.
  apply (FileSize_String_rounds_down 1000000). vm_compute.
  split; [discriminate | reflexivity].
Defined.

(** * Properties of the variable bindings (compiler/ssa/block.go) *)

Lemma empty_name (s : String.string) :
  (String.length s =? 0)%nat = true <-> s = String.EmptyString.
Proof. destruct s; cbn; split; (reflexivity || discriminate). Qed.

Lemma nonempty_name (s : String.string) :
  (String.length s =? 0)%nat = false <-> s <> String.EmptyString.
Proof. destruct s; cbn; split; (congruence || discriminate). Qed.

Lemma Get_loop_empty {V : Ssa.Variables} (bs : Ssa.Bindings) :
  forall ret,
    Ssa.Name ret = String.EmptyString ->
    Ssa.Name (Ssa.Get_loop bs String.EmptyString ret) = String.EmptyString.
Proof.
  induction bs as [|b bs IH]; intros ret H; cbn [Ssa.Get_loop];
    [assumption|].
  apply IH.
  destruct (String.eqb (Ssa.Name b) String.EmptyString) eqn:E;
    [|assumption].
  apply String.eqb_eq in E.
  destruct ((String.length (Ssa.Name ret) =? 0)%nat
            || (Ssa.Scope b >? Ssa.Scope ret)); assumption.
Qed.

Lemma Get_loop_stable {V : Ssa.Variables} (name : String.string)
    (bs : Ssa.Bindings) (ret : Ssa.Binding) :
  Ssa.Name ret <> String.EmptyString ->
  (forall b, In b bs -> Ssa.Name b = name ->
     Ssa.Scope b <= Ssa.Scope ret) ->
  Ssa.Get_loop bs name ret = ret.
Proof.
  intros Hn. induction bs as [|b bs IH]; intros H; cbn [Ssa.Get_loop];
    [reflexivity|].
  destruct (String.eqb (Ssa.Name b) name) eqn:E.
  - apply String.eqb_eq in E.
    apply nonempty_name in Hn. rewrite Hn. cbn [orb].
    assert (Hs : Ssa.Scope b <= Ssa.Scope ret)
      by (apply H; [left; reflexivity | assumption]).
    assert (G : (Ssa.Scope b >? Ssa.Scope ret) = false)
      by (rewrite Z.gtb_ltb; apply Z.ltb_ge; assumption).
    rewrite G. apply IH. intros b' Hb'. apply H. right. assumption.
  - apply IH. intros b' Hb'. apply H. right. assumption.
Qed.

Lemma Get_loop_spec {V : Ssa.Variables} (name : String.string)
    (bs : Ssa.Bindings) :
  name <> String.EmptyString ->
  forall ret,
    Ssa.Name ret = String.EmptyString \/ Ssa.Name ret = name ->
    let r := Ssa.Get_loop bs name ret in
    (Ssa.Name r = String.EmptyString \/ Ssa.Name r = name) /\
    (r = ret \/ In r bs) /\
    (forall b, In b bs -> Ssa.Name b = name ->
       Ssa.Name r = name /\ Ssa.Scope b <= Ssa.Scope r) /\
    (Ssa.Name ret = name ->
       Ssa.Name r = name /\ Ssa.Scope ret <= Ssa.Scope r).
Proof.
  intros Hne. induction bs as [|b bs IH]; intros ret Hret;
    cbn [Ssa.Get_loop].
  - cbv zeta. split; [assumption|]. split; [left; reflexivity|].
    split; [intros b []|]. intros H. split; [assumption | lia].
  - cbv zeta.
    destruct (String.eqb (Ssa.Name b) name) eqn:E.
    + apply String.eqb_eq in E.
      destruct ((String.length (Ssa.Name ret) =? 0)%nat
                || (Ssa.Scope b >? Ssa.Scope ret)) eqn:C.
      * destruct (IH b (or_intror E)) as (I1 & I2 & I3 & I4).
        destruct (I4 E) as [N4 S4].
        split; [assumption|]. split.
        { right. destruct I2 as [->|I2]; [left; reflexivity | right; exact I2]. }
        split.
        { intros b' [<-|Hb'] Hn; [split; [assumption | assumption]|].
          apply I3; assumption. }
        intros Hr. split; [assumption|].
        apply orb_true_iff in C. destruct C as [C|C].
        { apply empty_name in C. congruence. }
        rewrite Z.gtb_ltb in C. apply Z.ltb_lt in C. lia.
      * apply orb_false_iff in C. destruct C as [C1 C2].
        apply nonempty_name in C1.
        rewrite Z.gtb_ltb in C2. apply Z.ltb_ge in C2.
        assert (Hr : Ssa.Name ret = name) by (destruct Hret; congruence).
        destruct (IH ret Hret) as (I1 & I2 & I3 & I4).
        destruct (I4 Hr) as [N4 S4].
        split; [assumption|]. split.
        { destruct I2 as [I2|I2]; [left; exact I2 | right; right; exact I2]. }
        split.
        { intros b' [<-|Hb'] Hn; [split; [assumption | lia]|].
          apply I3; assumption. }
        intros _. split; assumption.
    + apply String.eqb_neq in E.
      destruct (IH ret Hret) as (I1 & I2 & I3 & I4).
      split; [assumption|]. split.
      { destruct I2 as [I2|I2]; [left; exact I2 | right; right; exact I2]. }
      split; [|assumption].
      intros b' [<-|Hb'] Hn; [congruence|]. apply I3; assumption.
Qed.

(** X9. [Get] reports a binding exactly when the name is not the empty
    string and some binding of the slice carries it: a name that was
    never bound gives [ok = false], and so does the empty name even when
    a binding carries it (the empty name of the zero [Binding] is what
    marks "nothing found"). *)
Theorem Bindings_Get_ok_iff_bound {V : Ssa.Variables} (bs : Ssa.Bindings)
    (name : String.string) :
  snd (Ssa.Bindings_Get bs name) = true <->
  name <> String.EmptyString /\
  exists b, In b bs /\ Ssa.Name b = name.
Proof.
  unfold Ssa.Bindings_Get. cbv zeta.
  destruct (String.string_dec name String.EmptyString) as [->|Hne].
  - pose proof (Get_loop_empty bs Ssa.zeroBinding eq_refl) as H.
    apply empty_name in H. rewrite H. cbn [snd].
    split; [discriminate | intros [N _]; congruence].
  - destruct (Get_loop_spec name bs Hne Ssa.zeroBinding (or_introl eq_refl))
      as (I1 & I2 & I3 & _).
    destruct (String.length (Ssa.Name (Ssa.Get_loop bs name Ssa.zeroBinding))
              =? 0)%nat eqn:E; cbn [snd].
    + apply empty_name in E. split; [discriminate|].
      intros [_ (b & Hb & Hn)]. destruct (I3 b Hb Hn) as [N _]. congruence.
    + apply nonempty_name in E. split; [|reflexivity]. intros _.
      split; [assumption|].
      exists (Ssa.Get_loop bs name Ssa.zeroBinding).
      destruct I1 as [I1|I1]; [congruence|].
      split; [|assumption].
      destruct I2 as [I2|I2]; [|assumption].
      rewrite I2 in E. cbn in E. congruence.
Qed.

(** X10. The binding that [Get] returns is one of the slice, carries the
    name asked for, and no binding of that name has a higher scope: the
    innermost binding wins. *)
Theorem Bindings_Get_returns_innermost {V : Ssa.Variables}
    (bs : Ssa.Bindings) (name : String.string) (b : Ssa.Binding) :
  Ssa.Bindings_Get bs name = (b, true) ->
  In b bs /\ Ssa.Name b = name /\
  forall b', In b' bs -> Ssa.Name b' = name -> Ssa.Scope b' <= Ssa.Scope b.
Proof.
  intros H. unfold Ssa.Bindings_Get in H. cbv zeta in H.
  assert (Hne : name <> String.EmptyString).
  { intros ->.
    pose proof (Get_loop_empty bs Ssa.zeroBinding eq_refl) as N.
    apply empty_name in N. rewrite N in H. discriminate. }
  destruct (Get_loop_spec name bs Hne Ssa.zeroBinding (or_introl eq_refl))
    as (I1 & I2 & I3 & _).
  destruct (String.length (Ssa.Name (Ssa.Get_loop bs name Ssa.zeroBinding))
            =? 0)%nat eqn:E; [discriminate|].
  inversion H; subst b. apply nonempty_name in E.
  destruct I1 as [I1|I1]; [congruence|].
  split.
  - destruct I2 as [I2|I2]; [|assumption].
    rewrite I2 in E. cbn in E. congruence.
  - split; [assumption|]. intros b' Hb' Hn. apply (I3 b' Hb' Hn).
Qed.

Lemma Bindings_Get_returns_innermost_witness :
  let bs := [ @Ssa.mkBinding Ssa.plainVariables "x"%string 0 8%nat None;
              @Ssa.mkBinding Ssa.plainVariables "y"%string 1 8%nat None;
              @Ssa.mkBinding Ssa.plainVariables "x"%string 2 16%nat None;
              @Ssa.mkBinding Ssa.plainVariables "x"%string 1 32%nat None ] in
  let b := @Ssa.mkBinding Ssa.plainVariables "x"%string 2 16%nat None in
  In b bs /\ Ssa.Name b = "x"%string /\
  forall b', In b' bs -> Ssa.Name b' = "x"%string ->
    Ssa.Scope b' <= Ssa.Scope b.
Proof.
  intros bs b.
  apply (@Bindings_Get_returns_innermost Ssa.plainVariables bs "x"%string b).
  reflexivity.
Defined.

(** ** [Set] and then [Get] *)

Lemma Set_Get_loop {V : Ssa.Variables} (v : Ssa.Var) (val : option Ssa.Var)
    (bs : Ssa.Bindings) :
  Ssa.VarName v <> String.EmptyString ->
  (forall b, In b bs -> Ssa.Name b = Ssa.VarName v ->
     Ssa.Scope b <= Ssa.VarScope v) ->
  forall ret,
    Ssa.Name ret = String.EmptyString
    \/ (Ssa.Name ret = Ssa.VarName v /\ Ssa.Scope ret < Ssa.VarScope v) ->
    Ssa.Get_loop (Ssa.Bindings_Set bs v val) (Ssa.VarName v) ret =
      Ssa.mkBinding (Ssa.VarName v) (Ssa.VarScope v) (Ssa.VarType v)
        (Ssa.boundTo v val).
Proof.
  intros Hne.
  set (new := Ssa.mkBinding (Ssa.VarName v) (Ssa.VarScope v) (Ssa.VarType v)
                (Ssa.boundTo v val)).
  assert (Hnew : forall ret,
            Ssa.Name ret = String.EmptyString
            \/ (Ssa.Name ret = Ssa.VarName v
                /\ Ssa.Scope ret < Ssa.VarScope v) ->
            ((String.length (Ssa.Name ret) =? 0)%nat
             || (Ssa.Scope new >? Ssa.Scope ret)) = true).
  { intros ret [H|[_ H]]; apply orb_true_iff.
    - left. apply empty_name. assumption.
    - right. cbn [new Ssa.Scope]. rewrite Z.gtb_ltb. apply Z.ltb_lt.
      assumption. }
  induction bs as [|b bs IH]; intros Hle ret Hret;
    cbn [Ssa.Bindings_Set].
  - cbn [Ssa.Get_loop]. fold new.
    change (Ssa.Name new) with (Ssa.VarName v).
    rewrite String.eqb_refl. rewrite (Hnew ret Hret). reflexivity.
  - destruct (String.eqb (Ssa.Name b) (Ssa.VarName v)
              && (Ssa.Scope b =? Ssa.VarScope v)) eqn:E.
    + apply andb_true_iff in E. destruct E as [E1 E2].
      apply String.eqb_eq in E1. apply Z.eqb_eq in E2.
      rewrite E1, E2. fold new. cbn [Ssa.Get_loop].
      change (Ssa.Name new) with (Ssa.VarName v).
      rewrite String.eqb_refl.
      rewrite (Hnew ret Hret).
      apply Get_loop_stable; [exact Hne|].
      intros b' Hb' Hn. apply Hle; [right; assumption | assumption].
    + cbn [Ssa.Get_loop]. apply IH.
      { intros b' Hb'. apply Hle. right. assumption. }
      destruct (String.eqb (Ssa.Name b) (Ssa.VarName v)) eqn:E1;
        [|assumption].
      cbn [andb] in E. apply Z.eqb_neq in E. apply String.eqb_eq in E1.
      assert (Hs : Ssa.Scope b <= Ssa.VarScope v)
        by (apply Hle; [left; reflexivity | assumption]).
      destruct ((String.length (Ssa.Name ret) =? 0)%nat
                || (Ssa.Scope b >? Ssa.Scope ret)); [|assumption].
      right. split; [assumption | lia].
Qed.

(** X11. After [Set] of a variable with a non-empty name, [Get] of that
    name returns the binding just made (the variable's name, scope and
    type, bound to [val], or to the variable itself when [val] is nil),
    provided no binding of the name sits in a higher scope; this holds
    whether [Set] rebinds in place or appends. *)
Theorem Bindings_Get_after_Set {V : Ssa.Variables} (bs : Ssa.Bindings)
    (v : Ssa.Var) (val : option Ssa.Var) :
  Ssa.VarName v <> String.EmptyString ->
  (forall b, In b bs -> Ssa.Name b = Ssa.VarName v ->
     Ssa.Scope b <= Ssa.VarScope v) ->
  Ssa.Bindings_Get (Ssa.Bindings_Set bs v val) (Ssa.VarName v) =
    (Ssa.mkBinding (Ssa.VarName v) (Ssa.VarScope v) (Ssa.VarType v)
       (Ssa.boundTo v val), true).
Proof.
  intros Hne Hle. unfold Ssa.Bindings_Get. cbv zeta.
  rewrite (Set_Get_loop v val bs Hne Hle Ssa.zeroBinding)
    by (left; reflexivity).
  cbn [Ssa.Name]. apply nonempty_name in Hne. rewrite Hne. reflexivity.
Qed.

Lemma Bindings_Get_after_Set_witness :
  let bs := [ @Ssa.mkBinding Ssa.plainVariables "x"%string 0 8%nat None;
              @Ssa.mkBinding Ssa.plainVariables "y"%string 1 8%nat None;
              @Ssa.mkBinding Ssa.plainVariables "x"%string 1 32%nat None ] in
  let v : @Ssa.Var Ssa.plainVariables := ("x"%string, 1, 64%nat) in
  @Ssa.Bindings_Get Ssa.plainVariables (Ssa.Bindings_Set bs v None) "x"%string =
    (@Ssa.mkBinding Ssa.plainVariables "x"%string 1 64%nat
       (Some (Ssa.BoundVariable v)), true).
Proof.
  intros bs v.
  apply (@Bindings_Get_after_Set Ssa.plainVariables bs v None).
  - discriminate.
  - intros b [<-|[<-|[<-|[]]]]; cbn; intros; (lia || discriminate).
Defined.

Lemma Set_Get_loop_other {V : Ssa.Variables} (v : Ssa.Var)
    (val : option Ssa.Var) (name : String.string) (bs : Ssa.Bindings) :
  name <> Ssa.VarName v ->
  forall ret,
    Ssa.Get_loop (Ssa.Bindings_Set bs v val) name ret =
    Ssa.Get_loop bs name ret.
Proof.
  intros Hne.
  assert (Hv : String.eqb (Ssa.VarName v) name = false)
    by (apply String.eqb_neq; congruence).
  induction bs as [|b bs IH]; intros ret; cbn [Ssa.Bindings_Set].
  - cbn [Ssa.Get_loop Ssa.Name]. rewrite Hv. reflexivity.
  - destruct (String.eqb (Ssa.Name b) (Ssa.VarName v)
              && (Ssa.Scope b =? Ssa.VarScope v)) eqn:E.
    + apply andb_true_iff in E. destruct E as [E1 _].
      apply String.eqb_eq in E1. cbn [Ssa.Get_loop Ssa.Name].
      rewrite E1, Hv. reflexivity.
    + cbn [Ssa.Get_loop]. apply IH.
Qed.

(** X12. [Set] of a variable leaves every other name as it was: [Get] of
    a different name gives the same answer before and after. *)
Theorem Bindings_Set_keeps_other_names {V : Ssa.Variables}
    (bs : Ssa.Bindings) (v : Ssa.Var) (val : option Ssa.Var)
    (name : String.string) :
  name <> Ssa.VarName v ->
  Ssa.Bindings_Get (Ssa.Bindings_Set bs v val) name =
  Ssa.Bindings_Get bs name.
Proof.
  intros Hne. unfold Ssa.Bindings_Get.
  rewrite (Set_Get_loop_other v val name bs Hne). reflexivity.
Qed.

Lemma Bindings_Set_keeps_other_names_witness :
  let bs := [ @Ssa.mkBinding Ssa.plainVariables "x"%string 0 8%nat None;
              @Ssa.mkBinding Ssa.plainVariables "y"%string 1 8%nat None ] in
  let v : @Ssa.Var Ssa.plainVariables := ("x"%string, 0, 64%nat) in
  @Ssa.Bindings_Get Ssa.plainVariables (Ssa.Bindings_Set bs v None) "y"%string =
  @Ssa.Bindings_Get Ssa.plainVariables bs "y"%string.
Proof.
  intros bs v.
  apply (@Bindings_Set_keeps_other_names Ssa.plainVariables bs v None "y"%string).
  discriminate.
Defined.

(** ** The keys of the slice *)

Lemma Set_matches_key {V : Ssa.Variables} (b : Ssa.Binding) (v : Ssa.Var) :
  String.eqb (Ssa.Name b) (Ssa.VarName v)
  && (Ssa.Scope b =? Ssa.VarScope v) = true <->
  (Ssa.Name b, Ssa.Scope b) = (Ssa.VarName v, Ssa.VarScope v).
Proof.
  rewrite andb_true_iff, String.eqb_eq, Z.eqb_eq. split.
  - intros [-> ->]. reflexivity.
  - intros H. inversion H. split; reflexivity.
Qed.

Lemma Set_keys_present {V : Ssa.Variables} (v : Ssa.Var)
    (val : option Ssa.Var) (bs : Ssa.Bindings) :
  In (Ssa.VarName v, Ssa.VarScope v) (bindingKeys bs) ->
  bindingKeys (Ssa.Bindings_Set bs v val) = bindingKeys bs.
Proof.
  induction bs as [|b bs IH]; intros H; [destruct H|].
  cbn [Ssa.Bindings_Set].
  destruct (String.eqb (Ssa.Name b) (Ssa.VarName v)
            && (Ssa.Scope b =? Ssa.VarScope v)) eqn:E; [reflexivity|].
  cbn [bindingKeys map]. f_equal. apply IH.
  destruct H as [H|H]; [|exact H].
  apply Set_matches_key in H. congruence.
Qed.

Lemma Set_keys_absent {V : Ssa.Variables} (v : Ssa.Var)
    (val : option Ssa.Var) (bs : Ssa.Bindings) :
  ~ In (Ssa.VarName v, Ssa.VarScope v) (bindingKeys bs) ->
  Ssa.Bindings_Set bs v val =
    bs ++ [Ssa.mkBinding (Ssa.VarName v) (Ssa.VarScope v) (Ssa.VarType v)
             (Ssa.boundTo v val)].
Proof.
  induction bs as [|b bs IH]; intros H; [reflexivity|].
  cbn [Ssa.Bindings_Set].
  destruct (String.eqb (Ssa.Name b) (Ssa.VarName v)
            && (Ssa.Scope b =? Ssa.VarScope v)) eqn:E.
  - apply Set_matches_key in E. destruct H. left. exact E.
  - cbn [app]. f_equal. apply IH. intros N. apply H. right. exact N.
Qed.

(** X13. [Set] keeps the pairs (name, scope) of the slice distinct: on a
    slice without two bindings of the same name and scope, [Set] leaves
    the keys as they are when the variable's pair is among them (it
    rebinds in place), and adds the pair at the end when it is not; in
    both cases the result has the pair, and no pair twice. *)
Theorem Bindings_Set_keeps_keys_distinct {V : Ssa.Variables}
    (bs : Ssa.Bindings) (v : Ssa.Var) (val : option Ssa.Var) :
  NoDup (bindingKeys bs) ->
  let k := (Ssa.VarName v, Ssa.VarScope v) in
  NoDup (bindingKeys (Ssa.Bindings_Set bs v val)) /\
  In k (bindingKeys (Ssa.Bindings_Set bs v val)) /\
  (In k (bindingKeys bs) ->
   bindingKeys (Ssa.Bindings_Set bs v val) = bindingKeys bs) /\
  (~ In k (bindingKeys bs) ->
   bindingKeys (Ssa.Bindings_Set bs v val) = bindingKeys bs ++ [k]).
Proof.
  intros Hnd k.
  assert (Habs : ~ In k (bindingKeys bs) ->
            bindingKeys (Ssa.Bindings_Set bs v val) = bindingKeys bs ++ [k]).
  { intros N. rewrite (Set_keys_absent v val bs N). unfold bindingKeys.
    rewrite map_app. reflexivity. }
  destruct (in_dec (fun a b : String.string * Z =>
                      ltac:(decide equality;
                            [apply Z.eq_dec | apply String.string_dec])
                      : {a = b} + {a <> b})
              k (bindingKeys bs)) as [Hin|Hout].
  - rewrite (Set_keys_present v val bs Hin).
    split; [assumption|]. split; [assumption|].
    split; [reflexivity | intros N; destruct (N Hin)].
  - rewrite (Habs Hout).
    split.
    { apply NoDup_app; [assumption | constructor; [intros []|constructor]|].
      intros x Hx [<-|[]]. apply Hout. exact Hx. }
    split; [apply in_or_app; right; left; reflexivity|].
    split; [intros N; destruct (Hout N) | reflexivity].
Qed.

Lemma Bindings_Set_keeps_keys_distinct_witness :
  let bs := [ @Ssa.mkBinding Ssa.plainVariables "x"%string 0 8%nat None;
              @Ssa.mkBinding Ssa.plainVariables "y"%string 1 8%nat None ] in
  let v : @Ssa.Var Ssa.plainVariables := ("x"%string, 1, 64%nat) in
  let k := ("x"%string, 1) in
  NoDup (bindingKeys (Ssa.Bindings_Set bs v None)) /\
  In k (bindingKeys (Ssa.Bindings_Set bs v None)) /\
  (In k (bindingKeys bs) ->
   bindingKeys (Ssa.Bindings_Set bs v None) = bindingKeys bs) /\
  (~ In k (bindingKeys bs) ->
   bindingKeys (Ssa.Bindings_Set bs v None) = bindingKeys bs ++ [k]).
Proof.
  intros bs v k.
  apply (@Bindings_Set_keeps_keys_distinct Ssa.plainVariables bs v None).
  repeat constructor; cbn; intuition discriminate.
Defined.
